(** * Wireless thermometer firmware: scheduler, sleep arbitration, I2C engine,
      LEUART link driver and BLE circular buffer

    A shallow embedding of the event-driven core of the firmware
    (scheduler.c, i2c.c, leuart.c, ble.c, app.c, main.c) together with the
    properties stated about it.  Unsigned 32-bit C variables are integers
    in [0, 2^32) with the wrap-around written out; [char] is the unsigned
    8-bit type of the ARM target; a failed [EFM_ASSERT] halts the program
    and is the [Fault] result. *)

From Stdlib Require Import ZArith List Bool Lia.
Import ListNotations.
Local Open Scope Z_scope.

(** ** Machine integers and the halting result *)

Definition u32 (z : Z) : Z := z mod 2 ^ 32.
Definition u8 (z : Z) : Z := z mod 2 ^ 8.

(** [~x] on a [uint32_t]. *)
Definition u32_not (z : Z) : Z := u32 (Z.lnot z).

Inductive result (A : Type) : Type :=
| Ok (a : A)
| Fault.
Arguments Ok {A} a.
Arguments Fault {A}.

Definition bind {A B : Type} (r : result A) (k : A -> result B) : result B :=
  match r with
  | Ok a => k a
  | Fault => Fault
  end.

Notation "x <- e ;; k" := (bind e (fun x => k))
  (at level 61, e at next level, right associativity).

(** [EFM_ASSERT(c)]. *)
Definition EFM_ASSERT {S : Type} (c : bool) (s : S) : result S :=
  if c then Ok s else Fault.

(** Array cell update [a[i] = v]; an index outside the array (undefined
    behaviour in C) leaves the list as it is. *)
Fixpoint upd {A : Type} (i : nat) (v : A) (l : list A) : list A :=
  match l, i with
  | [], _ => []
  | _ :: t, O => v :: t
  | h :: t, S j => h :: upd j v t
  end.

(** [strlen]: the number of chars before the first NUL.  A C string is the
    list of chars found at the pointer; the end of the list stands for the
    terminating NUL when no cell of it is 0. *)
Fixpoint strlen (s : list Z) : nat :=
  match s with
  | [] => O
  | c :: t => if c =? 0 then O else S (strlen t)
  end.

(** ** app.h *)

(** The event masks of app.h.  The header is not among the sources (only
    [SI7021_READ_EVT], from i2c.h, is), so its macros are the fields of a
    record the drivers are parameterised by. *)
Record app_h : Type := mk_app_h {
  LETIMER0_COMP0_EVT : Z;
  LETIMER0_COMP1_EVT : Z;
  LETIMER0_UF_EVT : Z;
  BOOT_UP_EVT : Z;
  LEUART_TX_EVT : Z;
  LEUART_RX_EVT : Z
}.

(** One bit per event, around the one mask the sources give (0x08). *)
Definition app_h_bits : app_h := mk_app_h 1 2 4 16 32 64.

(** ** scheduler.c *)

Module Scheduler.

(** [event_scheduled] is the static bitmask; [posted] is a history
    variable listing the argument of every [add_scheduled_event] call,
    oldest first. *)
Record t : Type := mk {
  event_scheduled : Z;
  posted : list Z
}.

Definition scheduler_open (s : t) : t :=
  mk 0 (posted s).

Definition add_scheduled_event (event : Z) (s : t) : t :=
  mk (Z.lor (event_scheduled s) event) (posted s ++ [event]).

Definition remove_scheduled_event (event : Z) (s : t) : t :=
  mk (Z.land (event_scheduled s) (u32_not event)) (posted s).

Definition get_scheduled_events (s : t) : Z := event_scheduled s.

End Scheduler.

(** ** sleep_routines.h, sleep_routines.c *)

Module Sleep.

Definition EM0 : nat := 0.
Definition EM1 : nat := 1.
Definition EM2 : nat := 2.
Definition EM3 : nat := 3.
Definition EM4 : nat := 4.
Definition MAX_ENERGY_MODES : nat := 5.

(** The block counts, one per energy mode, shallowest first. *)
Definition t : Type := list nat.

(** Modelled from the spec: sleep_routines.c is not among the sources (only
    its header is).  The table starts with every count at zero. *)
Definition sleep_open : t := repeat O MAX_ENERGY_MODES.

(** Modelled from the spec: sleep_routines.c is missing; [block(level)]
    increments [count[level]]. *)
Definition sleep_block_mode (EM : nat) (s : t) : result t :=
  Ok (upd EM (S (nth EM s O)) s).

(** Modelled from the spec: sleep_routines.c is missing; [unblock(level)]
    decrements [count[level]], and going below zero is fatal. *)
Definition sleep_unblock_mode (EM : nat) (s : t) : result t :=
  match nth EM s O with
  | O => Fault
  | S n => Ok (upd EM n s)
  end.

(** Modelled from the spec: sleep_routines.c is missing; the first level,
    from the shallowest, whose count is nonzero, or the deepest level. *)
Fixpoint first_blocked (level : nat) (s : list nat) : nat :=
  match s with
  | [] => EM4
  | c :: rest => if (0 <? c)%nat then level else first_blocked (S level) rest
  end.

Definition current_block_energy_mode (s : t) : nat := first_blocked EM0 s.

End Sleep.

(** The scheduler and the sleep table, which every driver shares. *)
Record services : Type := mk_services {
  sched : Scheduler.t;
  sleep : Sleep.t
}.

Definition add_scheduled_event (event : Z) (v : services) : services :=
  mk_services (Scheduler.add_scheduled_event event (sched v)) (sleep v).

Definition remove_scheduled_event (event : Z) (v : services) : services :=
  mk_services (Scheduler.remove_scheduled_event event (sched v)) (sleep v).

Definition sleep_block_mode (EM : nat) (v : services) : result services :=
  t <- Sleep.sleep_block_mode EM (sleep v) ;;
  Ok (mk_services (sched v) t).

Definition sleep_unblock_mode (EM : nat) (v : services) : result services :=
  t <- Sleep.sleep_unblock_mode EM (sleep v) ;;
  Ok (mk_services (sched v) t).

(** Everything posted to the scheduler so far. *)
Definition posted_events (v : services) : list Z := Scheduler.posted (sched v).

(** The block count of an energy mode. *)
Definition blocks (EM : nat) (v : services) : nat := nth EM (sleep v) O.

(** ** i2c.h, i2c.c *)

Module I2C.

Definition I2C_EM_BLOCK : nat := Sleep.EM2.
Definition SI7021_READ_EVT : Z := 0x00000008.

Inductive wr_command : Type := write | read.

Definition wr_bit (c : wr_command) : Z :=
  match c with write => 0 | read => 1 end.

Inductive i2c_defined_states : Type :=
| initialize
| send_measure_cmd
| send_read_cmd
| receive_data
| end_process.

(** [data] is a pointer in the sources; the word it points to is the
    [dest] field of the driver state below. *)
Record I2C_PAYLOAD_STRUCT : Type := mk_payload {
  device_address : Z;
  current_state : i2c_defined_states;
  bytes : Z;
  cmd : Z
}.

Record I2C_PAYLOAD_INIT : Type := mk_init {
  init_device_address : Z;
  init_bytes : Z;
  init_cmd : Z
}.

(** What the driver writes to the peripheral's CMD and TXDATA registers. *)
Inductive reg_write : Type :=
| CMD_START
| CMD_ACK
| CMD_NACK
| CMD_STOP
| TXDATA (byte : Z).

(** The peripheral: whether its bus state is idle, the receive data
    register, and the register writes so far, oldest first. *)
Record I2C_TypeDef : Type := mk_regs {
  STATE_IDLE : bool;
  RXDATA : Z;
  written : list reg_write
}.

Record state : Type := mk_state {
  svc : services;
  payload : I2C_PAYLOAD_STRUCT;
  dest : Z;
  peripheral : I2C_TypeDef
}.

Definition set_current_state (c : i2c_defined_states) (s : state) : state :=
  mk_state (svc s)
    (mk_payload (device_address (payload s)) c (bytes (payload s))
       (cmd (payload s)))
    (dest s) (peripheral s).

Definition set_bytes (n : Z) (s : state) : state :=
  mk_state (svc s)
    (mk_payload (device_address (payload s)) (current_state (payload s)) n
       (cmd (payload s)))
    (dest s) (peripheral s).

Definition set_dest (d : Z) (s : state) : state :=
  mk_state (svc s) (payload s) d (peripheral s).

Definition set_svc (v : services) (s : state) : state :=
  mk_state v (payload s) (dest s) (peripheral s).

(** A write to CMD or TXDATA; a start command takes the bus out of idle. *)
Definition reg (w : reg_write) (s : state) : state :=
  let p := peripheral s in
  mk_state (svc s) (payload s) (dest s)
    (mk_regs (match w with CMD_START => false | _ => STATE_IDLE p end)
       (RXDATA p) (written p ++ [w])).

Definition I2C_Start (i2c_load : I2C_PAYLOAD_INIT) (s : state) : result state :=
  s <- EFM_ASSERT (STATE_IDLE (peripheral s)) s ;;
  v <- sleep_block_mode I2C_EM_BLOCK (svc s) ;;
  let s := set_svc v s in
  let s := mk_state (svc s)
             (mk_payload (init_device_address i2c_load) initialize
                (init_bytes i2c_load) (init_cmd i2c_load))
             (dest s) (peripheral s) in
  let s := reg CMD_START s in
  Ok (reg (TXDATA (u32 (Z.lor (Z.shiftl (init_device_address i2c_load) 1)
                          (wr_bit write)))) s).

Definition I2C_ACK (s : state) : result state :=
  match current_state (payload s) with
  | initialize =>
      let s := reg (TXDATA (cmd (payload s))) s in
      Ok (set_current_state send_measure_cmd s)
  | send_measure_cmd =>
      let s := reg CMD_START s in
      let s := reg (TXDATA (u32 (Z.lor (Z.shiftl (device_address (payload s)) 1)
                                   (wr_bit read)))) s in
      Ok (set_current_state send_read_cmd s)
  | send_read_cmd => Ok (set_current_state receive_data s)
  | receive_data => Fault
  | end_process => Fault
  end.

Definition I2C_NACK (s : state) : result state :=
  match current_state (payload s) with
  | initialize => Fault
  | send_measure_cmd => Fault
  | send_read_cmd =>
      let s := reg CMD_START s in
      Ok (reg (TXDATA (u32 (Z.lor (Z.shiftl (device_address (payload s)) 1)
                              (wr_bit read)))) s)
  | receive_data => Fault
  | end_process => Fault
  end.

Definition I2C_RXDATAV (s : state) : result state :=
  match current_state (payload s) with
  | initialize => Fault
  | send_measure_cmd => Fault
  | send_read_cmd => Fault
  | receive_data =>
      let s := set_bytes (u32 (bytes (payload s) - 1)) s in
      if 0 <? bytes (payload s) then
        let s := set_dest (u32 (Z.shiftl (RXDATA (peripheral s)) 8)) s in
        Ok (reg CMD_ACK s)
      else
        let s := set_dest (Z.lor (dest s) (RXDATA (peripheral s))) s in
        let s := reg CMD_NACK s in
        let s := reg CMD_STOP s in
        Ok (set_current_state end_process s)
  | end_process => Fault
  end.

Definition I2C_MSTOP (s : state) : result state :=
  match current_state (payload s) with
  | initialize => Fault
  | send_measure_cmd => Fault
  | send_read_cmd => Fault
  | receive_data => Fault
  | end_process =>
      let s := set_svc (add_scheduled_event SI7021_READ_EVT (svc s)) s in
      v <- sleep_unblock_mode I2C_EM_BLOCK (svc s) ;;
      let s := set_svc v s in
      Ok (set_current_state initialize s)
  end.

(** [IF & IEN]: the four interrupt sources [i2c_open] enables. *)
Record int_flags : Type := mk_flags {
  IF_ACK : bool;
  IF_NACK : bool;
  IF_RXDATAV : bool;
  IF_MSTOP : bool
}.

Definition I2C0_IRQHandler (int_flag : int_flags) (s : state) : result state :=
  s <- (if IF_ACK int_flag then I2C_ACK s else Ok s) ;;
  s <- (if IF_NACK int_flag then I2C_NACK s else Ok s) ;;
  s <- (if IF_RXDATAV int_flag then I2C_RXDATAV s else Ok s) ;;
  if IF_MSTOP int_flag then I2C_MSTOP s else Ok s.

(** What the addressed device does on the bus, one interrupt each. *)
Inductive bus_event : Type :=
| DevACK
| DevNACK
| DevByte (b : Z)
| DevSTOP.

(** The peripheral raises the matching flag; a received byte is in RXDATA
    when its interrupt is taken, and a stop returns the bus to idle. *)
Definition raise (ev : bus_event) (s : state) : int_flags * state :=
  let p := peripheral s in
  match ev with
  | DevACK => (mk_flags true false false false, s)
  | DevNACK => (mk_flags false true false false, s)
  | DevByte b =>
      (mk_flags false false true false,
       mk_state (svc s) (payload s) (dest s)
         (mk_regs (STATE_IDLE p) b (written p)))
  | DevSTOP =>
      (mk_flags false false false true,
       mk_state (svc s) (payload s) (dest s)
         (mk_regs true (RXDATA p) (written p)))
  end.

Definition interrupt (ev : bus_event) (s : state) : result state :=
  let (int_flag, s) := raise ev s in
  I2C0_IRQHandler int_flag s.

Fixpoint interrupts (evs : list bus_event) (s : state) : result state :=
  match evs with
  | [] => Ok s
  | ev :: rest => s <- interrupt ev s ;; interrupts rest s
  end.

(** The device of the read transaction: it acknowledges the address and
    the command, refuses the read address [nacks] times while it measures,
    then acknowledges it, sends the data bytes, and the bus stops. *)
Definition transaction (nacks : nat) (data : list Z) : list bus_event :=
  [DevACK; DevACK] ++ repeat DevNACK nacks ++ [DevACK] ++
  map DevByte data ++ [DevSTOP].

(** The word the receive loop leaves at the destination, from the word
    that was there and the bytes received: every byte but the last is
    stored shifted, overwriting the word, and the last is or-ed in. *)
Fixpoint rx_word (d : Z) (data : list Z) : Z :=
  match data with
  | [] => d
  | b :: rest =>
      match rest with
      | [] => Z.lor d b
      | _ :: _ => rx_word (u32 (Z.shiftl b 8)) rest
      end
  end.

End I2C.

(** ** leuart.h, leuart.c *)

Module Leuart.

Definition LEUART_EM : nat := Sleep.EM3.
Definition STARTF_CHAR : Z := 35.
Definition SIGF_CHAR : Z := 63.

Inductive leuart_tx_states : Type :=
| begin
| transmit
| transmit_done.

Inductive leuart_rx_states : Type :=
| idle
| start
| receive
| done.

Record LEUART_PAYLOAD_STRUCT : Type := mk_payload {
  state : leuart_tx_states;
  count : Z;
  str : list Z;
  index : Z;
  txbusy : bool;
  rx_state : leuart_rx_states;
  received_str : list Z;
  rx_count : Z;
  startf : Z;
  sigf : Z;
  rxbusy : bool
}.

(** The interrupt sources the driver uses, as the bits of IF, IEN and of
    the handler's [int_flag]. *)
Record int_flags : Type := mk_flags {
  TXBL : bool;
  TXC : bool;
  STARTF : bool;
  RXDATAV : bool;
  SIGF : bool
}.

(** The peripheral registers the driver reads and writes.  [TXDATA] lists
    the bytes written to the transmit register, oldest first. *)
Record LEUART_TypeDef : Type := mk_regs {
  IF_ : int_flags;
  IEN : int_flags;
  RXDATA : Z;
  TXDATA : list Z;
  STATUS_RXBLOCK : bool;
  STATUS_TXIDLE : bool;
  CTRL_SFUBRX : bool;
  STARTFRAME : Z;
  SIGFRAME : Z
}.

Record machine : Type := mk_machine {
  svc : services;
  rx_done_evt : Z;
  tx_done_evt : Z;
  lePayload : LEUART_PAYLOAD_STRUCT;
  LEUART0 : LEUART_TypeDef
}.

Definition set_svc (v : services) (m : machine) : machine :=
  mk_machine v (rx_done_evt m) (tx_done_evt m) (lePayload m) (LEUART0 m).

Definition set_lePayload (p : LEUART_PAYLOAD_STRUCT) (m : machine) : machine :=
  mk_machine (svc m) (rx_done_evt m) (tx_done_evt m) p (LEUART0 m).

Definition set_LEUART0 (r : LEUART_TypeDef) (m : machine) : machine :=
  mk_machine (svc m) (rx_done_evt m) (tx_done_evt m) (lePayload m) r.

Definition set_IF (f : int_flags) (r : LEUART_TypeDef) : LEUART_TypeDef :=
  mk_regs f (IEN r) (RXDATA r) (TXDATA r) (STATUS_RXBLOCK r) (STATUS_TXIDLE r)
    (CTRL_SFUBRX r) (STARTFRAME r) (SIGFRAME r).

Definition set_IEN (f : int_flags) (r : LEUART_TypeDef) : LEUART_TypeDef :=
  mk_regs (IF_ r) f (RXDATA r) (TXDATA r) (STATUS_RXBLOCK r) (STATUS_TXIDLE r)
    (CTRL_SFUBRX r) (STARTFRAME r) (SIGFRAME r).

Definition set_RXBLOCK (b : bool) (r : LEUART_TypeDef) : LEUART_TypeDef :=
  mk_regs (IF_ r) (IEN r) (RXDATA r) (TXDATA r) b (STATUS_TXIDLE r)
    (CTRL_SFUBRX r) (STARTFRAME r) (SIGFRAME r).

(** *** Peripheral model

    The behaviour of the LEUART itself, as the driver's own test
    [leuart_rx_test] relies on it: a received start frame raises STARTF,
    lifts RXBLOCK (SFUBRX) and is loaded into RXDATA; a received signal
    frame raises SIGF and is loaded into RXDATA; RXDATAV stays up until
    RXDATA is read and TXBL until TXDATA is written, and neither can be
    cleared through IFC; frames arriving while RXBLOCK is set are dropped. *)

(** Reading RXDATA empties the receive buffer. *)
Definition read_RXDATA (r : LEUART_TypeDef) : Z * LEUART_TypeDef :=
  let f := IF_ r in
  (RXDATA r, set_IF (mk_flags (TXBL f) (TXC f) (STARTF f) false (SIGF f)) r).

(** Writing TXDATA fills the transmit buffer and starts the transmitter. *)
Definition write_TXDATA (b : Z) (r : LEUART_TypeDef) : LEUART_TypeDef :=
  let f := IF_ r in
  mk_regs (mk_flags false (TXC f) (STARTF f) (RXDATAV f) (SIGF f)) (IEN r)
    (RXDATA r) (TXDATA r ++ [b]) (STATUS_RXBLOCK r) false
    (CTRL_SFUBRX r) (STARTFRAME r) (SIGFRAME r).

(** A write of [mask] to IFC: TXC, STARTF and SIGF can be cleared. *)
Definition write_IFC (mask : int_flags) (r : LEUART_TypeDef) : LEUART_TypeDef :=
  let f := IF_ r in
  set_IF (mk_flags (TXBL f) (TXC f && negb (TXC mask))
            (STARTF f && negb (STARTF mask)) (RXDATAV f)
            (SIGF f && negb (SIGF mask))) r.

(** What happens on the line. *)
Inductive line_event : Type :=
| RxFrame (b : Z)
| TxBufferEmpty
| TxComplete
| Quiet.

Definition line (ev : line_event) (r : LEUART_TypeDef) : LEUART_TypeDef :=
  let f := IF_ r in
  match ev with
  | RxFrame b =>
      let is_start := CTRL_SFUBRX r && (b =? STARTFRAME r) in
      if STATUS_RXBLOCK r && negb is_start then r
      else
        mk_regs (mk_flags (TXBL f) (TXC f)
                   (STARTF f || (b =? STARTFRAME r)) true
                   (SIGF f || (b =? SIGFRAME r)))
          (IEN r) b (TXDATA r) false (STATUS_TXIDLE r)
          (CTRL_SFUBRX r) (STARTFRAME r) (SIGFRAME r)
  | TxBufferEmpty =>
      set_IF (mk_flags true (TXC f) (STARTF f) (RXDATAV f) (SIGF f)) r
  | TxComplete =>
      mk_regs (mk_flags (TXBL f) true (STARTF f) (RXDATAV f) (SIGF f)) (IEN r)
        (RXDATA r) (TXDATA r) (STATUS_RXBLOCK r) true
        (CTRL_SFUBRX r) (STARTFRAME r) (SIGFRAME r)
  | Quiet => r
  end.

(** *** The driver *)

Section WithAppHeader.

Variable h : app_h.

(** [leuart_open], after [LEUART_Reset] and [LEUART_Init]: the registers
    are at their reset values (transmit buffer empty, transmitter idle, no
    interrupt enabled) when the driver programs the frames.  The clock and
    enable checks of the function read hardware only and are taken to
    pass. *)
Definition leuart_open (m : machine) : result machine :=
  let p := lePayload m in
  let p := mk_payload (state p) (count p) (str p) (index p) false
             idle (received_str p) (rx_count p) STARTF_CHAR SIGF_CHAR false in
  v <- sleep_block_mode LEUART_EM (svc m) ;;
  Ok (mk_machine v (LEUART_RX_EVT h) (LEUART_TX_EVT h) p
        (mk_regs (mk_flags true false false false false)
           (mk_flags false false true false false)
           0 (TXDATA (LEUART0 m)) true true true 35 63)).

Definition leuart_tx_busy (m : machine) : bool := txbusy (lePayload m).

Definition leuart_rx_busy (m : machine) : bool := rxbusy (lePayload m).

(** [strcpy(dst, src)]. *)
Fixpoint store {A : Type} (i : nat) (vs : list A) (a : list A) : list A :=
  match vs with
  | [] => a
  | v :: rest => store (S i) rest (upd i v a)
  end.

Definition strcpy (dst src : list Z) : list Z :=
  store 0 (firstn (strlen src) src ++ [0]) dst.

Definition leuart_start (string : list Z) (string_len : Z) (m : machine)
  : result machine :=
  v <- sleep_block_mode LEUART_EM (svc m) ;;
  let m := set_svc v m in
  let p := lePayload m in
  let p := mk_payload transmit string_len (strcpy (str p) string) 0 true
             (rx_state p) (received_str p) (rx_count p) (startf p) (sigf p)
             (rxbusy p) in
  let m := set_lePayload p m in
  let r := write_IFC (mk_flags false true false false false) (LEUART0 m) in
  let e := IEN r in
  let r := set_IEN (mk_flags true (TXC e) (STARTF e) (RXDATAV e) (SIGF e)) r in
  Ok (set_LEUART0 r m).

Definition TXBL_Interrupt (m : machine) : result machine :=
  match state (lePayload m) with
  | begin => Fault
  | transmit =>
      let m :=
        let p := lePayload m in
        if 0 <? count p then
          let r := write_TXDATA (u8 (nth (Z.to_nat (index p)) (str p) 0))
                     (LEUART0 m) in
          let p := mk_payload (state p) (u32 (count p - 1)) (str p)
                     (u32 (index p + 1)) (txbusy p) (rx_state p)
                     (received_str p) (rx_count p) (startf p) (sigf p)
                     (rxbusy p) in
          set_LEUART0 r (set_lePayload p m)
        else m in
      let p := lePayload m in
      if count p =? 0 then
        let p := mk_payload transmit_done (count p) (str p) (index p)
                   (txbusy p) (rx_state p) (received_str p) (rx_count p)
                   (startf p) (sigf p) (rxbusy p) in
        let e := IEN (LEUART0 m) in
        let r := set_IEN (mk_flags false true (STARTF e) (RXDATAV e) (SIGF e))
                   (LEUART0 m) in
        Ok (set_LEUART0 r (set_lePayload p m))
      else Ok m
  | transmit_done => Fault
  end.

Definition TXC_Interrupt (m : machine) : result machine :=
  match state (lePayload m) with
  | begin => Fault
  | transmit => Fault
  | transmit_done =>
      v <- sleep_unblock_mode LEUART_EM (svc m) ;;
      let m := set_svc v m in
      let m := set_svc (add_scheduled_event (tx_done_evt m) (svc m)) m in
      let p := lePayload m in
      Ok (set_lePayload
            (mk_payload (state p) (count p) (str p) (index p) false
               (rx_state p) (received_str p) (rx_count p) (startf p) (sigf p)
               (rxbusy p)) m)
  end.

Definition STARTF_Interrupt (m : machine) : result machine :=
  match rx_state (lePayload m) with
  | idle =>
      m <- (if negb (rxbusy (lePayload m)) then
              let p := lePayload m in
              let p := mk_payload (state p) (count p) (str p) (index p)
                         (txbusy p) (rx_state p) (received_str p) 0
                         (startf p) (sigf p) true in
              let e := IEN (LEUART0 m) in
              let r := set_IEN (mk_flags (TXBL e) (TXC e) (STARTF e) true true)
                         (LEUART0 m) in
              Ok (set_LEUART0 r (set_lePayload p m))
            else Fault) ;;
      let p := lePayload m in
      Ok (set_lePayload
            (mk_payload (state p) (count p) (str p) (index p) (txbusy p)
               start (received_str p) (rx_count p) (startf p) (sigf p)
               (rxbusy p)) m)
  | start => Fault
  | receive => Fault
  | done => Fault
  end.

Definition RXDATAV_Interrupt (m : machine) : result machine :=
  match rx_state (lePayload m) with
  | idle => Fault
  | start =>
      let p := lePayload m in
      Ok (set_lePayload
            (mk_payload (state p) (count p) (str p) (index p) (txbusy p)
               receive (received_str p) (rx_count p) (startf p) (sigf p)
               (rxbusy p)) m)
  | receive =>
      let p := lePayload m in
      let (data, r) := read_RXDATA (LEUART0 m) in
      let p := mk_payload (state p) (count p) (str p) (index p) (txbusy p)
                 (rx_state p)
                 (upd (Z.to_nat (rx_count p)) (u8 data) (received_str p))
                 (u32 (rx_count p + 1)) (startf p) (sigf p) (rxbusy p) in
      Ok (set_LEUART0 r (set_lePayload p m))
  | done => Fault
  end.

Definition SIGF_Interrupt (m : machine) : result machine :=
  match rx_state (lePayload m) with
  | idle => Fault
  | start => Fault
  | receive =>
      let p := lePayload m in
      let p := mk_payload (state p) (count p) (str p) (index p) (txbusy p)
                 (rx_state p)
                 (upd (Z.to_nat (rx_count p)) 0 (received_str p))
                 (u32 (rx_count p + 1)) (startf p) (sigf p) (rxbusy p) in
      let m := set_lePayload p m in
      let e := IEN (LEUART0 m) in
      let r := set_IEN (mk_flags (TXBL e) (TXC e) (STARTF e) false false)
                 (LEUART0 m) in
      let r := set_RXBLOCK true r in
      let m := set_LEUART0 r m in
      let m := set_svc (add_scheduled_event (LEUART_RX_EVT h) (svc m)) m in
      let p := lePayload m in
      Ok (set_lePayload
            (mk_payload (state p) (count p) (str p) (index p) (txbusy p)
               idle (received_str p) (rx_count p) (startf p) (sigf p)
               false) m)
  | done => Fault
  end.

(** [IF & IEN]. *)
Definition enabled_flags (r : LEUART_TypeDef) : int_flags :=
  let f := IF_ r in
  let e := IEN r in
  mk_flags (TXBL f && TXBL e) (TXC f && TXC e) (STARTF f && STARTF e)
    (RXDATAV f && RXDATAV e) (SIGF f && SIGF e).

Definition LEUART0_IRQHandler (m : machine) : result machine :=
  let int_flag := enabled_flags (LEUART0 m) in
  let m := set_LEUART0 (write_IFC int_flag (LEUART0 m)) m in
  m <- (if TXBL int_flag then TXBL_Interrupt m else Ok m) ;;
  m <- (if TXC int_flag then TXC_Interrupt m else Ok m) ;;
  m <- (if STARTF int_flag then STARTF_Interrupt m else Ok m) ;;
  m <- (if RXDATAV int_flag then RXDATAV_Interrupt m else Ok m) ;;
  if SIGF int_flag then SIGF_Interrupt m else Ok m.

(** The interrupt line to the core: some enabled flag is up. *)
Definition irq_pending (m : machine) : bool :=
  let i := enabled_flags (LEUART0 m) in
  TXBL i || TXC i || STARTF i || RXDATAV i || SIGF i.

(** The core enters the handler again for as long as the line is up. *)
Fixpoint service (fuel : nat) (m : machine) : result machine :=
  match fuel with
  | O => Ok m
  | S fuel' =>
      if irq_pending m then
        m <- LEUART0_IRQHandler m ;; service fuel' m
      else Ok m
  end.

(** No line event keeps the handler re-entering more than a few times;
    the properties below state that the line is down afterwards. *)
Definition service_fuel : nat := 8.

(** A line event, and the interrupts it leads to. *)
Definition interrupt (ev : line_event) (m : machine) : result machine :=
  service service_fuel (set_LEUART0 (line ev (LEUART0 m)) m).

Fixpoint interrupts (evs : list line_event) (m : machine) : result machine :=
  match evs with
  | [] => Ok m
  | ev :: rest => m <- interrupt ev m ;; interrupts rest m
  end.

(** The handlers alone, one call per signal, as the state machine of the
    receiver sees them. *)
Inductive rx_signal : Type :=
| StartMarker
| ByteAvailable (b : Z)
| StopMarker.

Definition rx_step (sg : rx_signal) (m : machine) : result machine :=
  match sg with
  | StartMarker => STARTF_Interrupt m
  | ByteAvailable b =>
      let r := LEUART0 m in
      RXDATAV_Interrupt
        (set_LEUART0
           (mk_regs (IF_ r) (IEN r) b (TXDATA r) (STATUS_RXBLOCK r)
              (STATUS_TXIDLE r) (CTRL_SFUBRX r) (STARTFRAME r) (SIGFRAME r)) m)
  | StopMarker => SIGF_Interrupt m
  end.

Fixpoint rx_steps (sgs : list rx_signal) (m : machine) : result machine :=
  match sgs with
  | [] => Ok m
  | sg :: rest => m <- rx_step sg m ;; rx_steps rest m
  end.

(** The receiver is waiting for a start frame: idle and not busy, only
    the STARTF interrupt of the receiver enabled, no receive flag up and
    no interrupt pending, the frames programmed as [leuart_open] does. *)
Definition listening (m : machine) : bool :=
  let p := lePayload m in
  let r := LEUART0 m in
  match rx_state p with idle => true | _ => false end &&
  negb (rxbusy p) &&
  STARTF (IEN r) && negb (RXDATAV (IEN r)) && negb (SIGF (IEN r)) &&
  negb (STARTF (IF_ r)) && negb (RXDATAV (IF_ r)) && negb (SIGF (IF_ r)) &&
  negb (irq_pending m) &&
  CTRL_SFUBRX r && (STARTFRAME r =? STARTF_CHAR) && (SIGFRAME r =? SIGF_CHAR) &&
  (length (received_str p) =? 80)%nat.

(** The message in the accumulation buffer, as a C string. *)
Definition received_message (m : machine) : list Z :=
  let s := received_str (lePayload m) in firstn (strlen s) s.

End WithAppHeader.

End Leuart.

(** ** ble.h, ble.c *)

Module Ble.

Definition CSIZE : Z := 64.
Definition CIRC_TEST : bool := true.
Definition CIRC_OPER : bool := false.

Record BLE_CIRCULAR_BUF : Type := mk_cbuf {
  cbuf : list Z;
  size_mask : Z;
  size : Z;
  read_ptr : Z;
  write_ptr : Z
}.

(** The driver below, the queue, and [test_struct.result_str]. *)
Record machine : Type := mk_machine {
  leuart : Leuart.machine;
  ble_cbuf : BLE_CIRCULAR_BUF;
  result_str : list Z
}.

Definition set_ble_cbuf (b : BLE_CIRCULAR_BUF) (m : machine) : machine :=
  mk_machine (leuart m) b (result_str m).

Definition set_size (n : Z) (b : BLE_CIRCULAR_BUF) : BLE_CIRCULAR_BUF :=
  mk_cbuf (cbuf b) (size_mask b) n (read_ptr b) (write_ptr b).

(** [index_struct->cbuf[index_struct->write_ptr] = c]. *)
Definition write_cell (c : Z) (b : BLE_CIRCULAR_BUF) : BLE_CIRCULAR_BUF :=
  mk_cbuf (upd (Z.to_nat (write_ptr b)) c (cbuf b)) (size_mask b) (size b)
    (read_ptr b) (write_ptr b).

(** [index_struct->cbuf[index_struct->read_ptr]]. *)
Definition read_cell (b : BLE_CIRCULAR_BUF) : Z :=
  nth (Z.to_nat (read_ptr b)) (cbuf b) 0.

Definition ble_circ_init (m : machine) : machine :=
  let b := ble_cbuf m in
  set_ble_cbuf (mk_cbuf (cbuf b) (u8 CSIZE) CSIZE 0 0) m.

Definition ble_circ_space (b : BLE_CIRCULAR_BUF) : Z := u8 (size b).

Definition update_circ_wrtindex (index_struct : BLE_CIRCULAR_BUF)
  (update_by : Z) : BLE_CIRCULAR_BUF :=
  mk_cbuf (cbuf index_struct) (size_mask index_struct) (size index_struct)
    (read_ptr index_struct)
    (u32 (write_ptr index_struct + update_by) mod 64).

Definition update_circ_readindex (index_struct : BLE_CIRCULAR_BUF)
  (update_by : Z) : BLE_CIRCULAR_BUF :=
  mk_cbuf (cbuf index_struct) (size_mask index_struct) (size index_struct)
    (u32 (read_ptr index_struct + update_by) mod 64)
    (write_ptr index_struct).

(** The loop [while (index != length)] of [ble_circ_push], with [todo]
    iterations left. *)
Fixpoint push_loop (todo : nat) (index : nat) (string : list Z)
  (b : BLE_CIRCULAR_BUF) : BLE_CIRCULAR_BUF :=
  match todo with
  | O => b
  | S todo' =>
      let b := write_cell (nth index string 0) b in
      let b := update_circ_wrtindex b 1 in
      push_loop todo' (S index) string b
  end.

Definition ble_circ_push (string : list Z) (m : machine) : result machine :=
  let length := Z.of_nat (strlen string) in
  m <- (if size (ble_cbuf m) <? length then EFM_ASSERT false m else Ok m) ;;
  let b := ble_cbuf m in
  let b := write_cell (u8 length) b in
  let b := update_circ_wrtindex b 1 in
  let b := push_loop (strlen string) 0 string b in
  let b := set_size (u32 (ble_circ_space b - (length + 1))) b in
  Ok (set_ble_cbuf b m).

(** The loop [while (index != length)] of [ble_circ_pop]: the chars read
    into [string_array], in order. *)
Fixpoint pop_loop (todo : nat) (b : BLE_CIRCULAR_BUF)
  : list Z * BLE_CIRCULAR_BUF :=
  match todo with
  | O => ([], b)
  | S todo' =>
      let c := read_cell b in
      let b := update_circ_readindex b 1 in
      let (rest, b) := pop_loop todo' b in
      (c :: rest, b)
  end.

(** How a call of [ble_circ_pop] ends: it returns, it is still in its
    loop on the busy flag when the line events given to it are used up, or
    the program has halted on an assertion. *)
Inductive outcome : Type :=
| Returned (busy : bool) (m : machine)
| Waiting (m : machine)
| Halted.

Section WithAppHeader.

Variable h : app_h.

(** [while (leuart_tx_busy(LEUART0));] with the interrupts of [line]
    arriving, one per turn of the loop. *)
Fixpoint wait_tx (line : list Leuart.line_event) (l : Leuart.machine)
  : result Leuart.machine + Leuart.machine :=
  if Leuart.leuart_tx_busy l then
    match line with
    | [] => inr l
    | ev :: rest =>
        match Leuart.interrupt h ev l with
        | Ok l' => wait_tx rest l'
        | Fault => inl Fault
        end
    end
  else inl (Ok l).

Definition ble_circ_pop (test : bool) (line : list Leuart.line_event)
  (m : machine) : outcome :=
  if negb (Leuart.STATUS_TXIDLE (Leuart.LEUART0 (leuart m))) then
    Returned true m
  else if size (ble_cbuf m) =? CSIZE then
    Returned true m
  else
    let b := ble_cbuf m in
    let length := read_cell b in
    let b := update_circ_readindex b 1 in
    let (chars, b) := pop_loop (Z.to_nat length) b in
    let string_array := chars ++ [0] in
    let m := set_ble_cbuf b m in
    let finish (m : machine) : outcome :=
      let b := ble_cbuf m in
      let b := set_size (u32 (ble_circ_space b + length + 1)) b in
      Returned false (set_ble_cbuf b m) in
    if test then
      finish (mk_machine (leuart m) (ble_cbuf m)
                (Leuart.store 0 (firstn (Z.to_nat length) string_array)
                   (result_str m)))
    else
      match
        (l <- Leuart.leuart_start string_array length (leuart m) ;;
         Leuart.service h Leuart.service_fuel l)
      with
      | Fault => Halted
      | Ok l =>
          match wait_tx line l with
          | inl (Ok l) => finish (mk_machine l (ble_cbuf m) (result_str m))
          | inl Fault => Halted
          | inr l => Waiting (mk_machine l (ble_cbuf m) (result_str m))
          end
      end.

Definition ble_write (string : list Z) (line : list Leuart.line_event)
  (m : machine) : outcome :=
  match ble_circ_push string m with
  | Ok m => ble_circ_pop false line m
  | Fault => Halted
  end.

End WithAppHeader.


(** The copy of a pop stays inside its destination: a pop that gets past
    its two early exits copies as many chars as the length cell says into
    the [CSIZE] cells of [result_str] (test mode) or, through
    [leuart_start], with a NUL behind them into the 80 cells of the link's
    [str].  The code makes no such check; beyond it the stores land
    outside the array, which C leaves undefined. *)
Definition pop_copy_fits (test : bool) (m : machine) : Prop :=
  if negb (Leuart.STATUS_TXIDLE (Leuart.LEUART0 (leuart m))) then True
  else if size (ble_cbuf m) =? CSIZE then True
  else if test then (Z.to_nat (read_cell (ble_cbuf m)) <= 64)%nat
  else (Z.to_nat (read_cell (ble_cbuf m)) < 80)%nat.

(** The queue operations of a client, and what the queue can get to from
    [ble_circ_init] under any sequence of them whose pops copy inside
    their destinations. *)
Inductive reachable (h : app_h) : machine -> Prop :=
| reach_init (m : machine) :
    reachable h (ble_circ_init m)
| reach_push (string : list Z) (m m' : machine) :
    reachable h m -> ble_circ_push string m = Ok m' -> reachable h m'
| reach_pop (test : bool) (line : list Leuart.line_event) (busy : bool)
    (m m' : machine) :
    reachable h m -> pop_copy_fits test m ->
    ble_circ_pop h test line m = Returned busy m' ->
    reachable h m'
| reach_wait (test : bool) (line : list Leuart.line_event) (m m' : machine) :
    reachable h m -> pop_copy_fits test m ->
    ble_circ_pop h test line m = Waiting m' ->
    reachable h m'.

(** The cells [ble_circ_push] writes, in order: the cursor before each
    store. *)
Fixpoint push_loop_cells (todo : nat) (b : BLE_CIRCULAR_BUF) : list Z :=
  match todo with
  | O => []
  | S todo' =>
      write_ptr b :: push_loop_cells todo' (update_circ_wrtindex b 1)
  end.

Definition push_cells (string : list Z) (b : BLE_CIRCULAR_BUF) : list Z :=
  write_ptr b :: push_loop_cells (strlen string) (update_circ_wrtindex b 1).

(** The cells [ble_circ_pop] reads, in order. *)
Fixpoint pop_loop_cells (todo : nat) (b : BLE_CIRCULAR_BUF) : list Z :=
  match todo with
  | O => []
  | S todo' =>
      read_ptr b :: pop_loop_cells todo' (update_circ_readindex b 1)
  end.

Definition pop_cells (b : BLE_CIRCULAR_BUF) : list Z :=
  read_ptr b ::
  pop_loop_cells (Z.to_nat (read_cell b)) (update_circ_readindex b 1).

(** *** The queue as a list of packets

    What the ring holds when each push has fitted with its length prefix:
    the packets not yet popped, oldest first, laid out from the read
    cursor as a prefix cell followed by the chars. *)

Definition encode (q : list (list Z)) : list Z :=
  flat_map (fun p => u8 (Z.of_nat (length p)) :: p) q.

(** The cell [i] places after the read cursor. *)
Definition cell_after (b : BLE_CIRCULAR_BUF) (i : nat) : Z :=
  nth (Z.to_nat ((read_ptr b + Z.of_nat i) mod 64)) (cbuf b) 0.

Definition represents (b : BLE_CIRCULAR_BUF) (q : list (list Z)) : Prop :=
  length (cbuf b) = 64%nat /\
  0 <= read_ptr b < 64 /\
  Z.of_nat (length (encode q)) <= CSIZE /\
  size b = CSIZE - Z.of_nat (length (encode q)) /\
  write_ptr b = (read_ptr b + Z.of_nat (length (encode q))) mod 64 /\
  forall i, (i < length (encode q))%nat -> cell_after b i = nth i (encode q) 0.

(** A string with no NUL before its end, so that the list is the string. *)
Definition packet (p : list Z) : Prop := strlen p = length p.

(** The buffer after the cells of [l] are written from the write cursor
    on, as the push does with the prefix and the chars. *)
Fixpoint write_all (l : list Z) (b : BLE_CIRCULAR_BUF) : BLE_CIRCULAR_BUF :=
  match l with
  | [] => b
  | c :: rest => write_all rest (update_circ_wrtindex (write_cell c b) 1)
  end.

(** The buffer with the read cursor moved [n] cells on. *)
Definition advanced (n : nat) (b : BLE_CIRCULAR_BUF) : BLE_CIRCULAR_BUF :=
  mk_cbuf (cbuf b) (size_mask b) (size b)
    ((read_ptr b + Z.of_nat n) mod 64) (write_ptr b).

(** A client of the queue in test mode, and the bounded FIFO it should
    see: a push is refused when the packet and its prefix do not fit in
    what the queued packets leave of the 64 cells; a pop gives the oldest
    packet, or nothing. *)
Inductive op : Type :=
| Push (p : list Z)
| Pop.

Fixpoint fifo (ops : list op) (q : list (list Z))
  : option (list (option (list Z)) * list (list Z)) :=
  match ops with
  | [] => Some ([], q)
  | Push p :: rest =>
      if Z.of_nat (length (encode q)) + Z.of_nat (length p) + 1 <=? CSIZE
      then fifo rest (q ++ [p])
      else None
  | Pop :: rest =>
      match q with
      | [] =>
          match fifo rest [] with
          | Some (outs, q') => Some (None :: outs, q')
          | None => None
          end
      | p :: q0 =>
          match fifo rest q0 with
          | Some (outs, q') => Some (Some p :: outs, q')
          | None => None
          end
      end
  end.

(** The same client on the code: each pop is in test mode, and what it
    gives is read from [result_str] with the length found in the prefix
    cell. *)
Fixpoint run (h : app_h) (ops : list op) (m : machine)
  : result (list (option (list Z)) * machine) :=
  match ops with
  | [] => Ok ([], m)
  | Push p :: rest => m <- ble_circ_push p m ;; run h rest m
  | Pop :: rest =>
      match ble_circ_pop h CIRC_TEST [] m with
      | Returned true m' =>
          r <- run h rest m' ;; Ok (None :: fst r, snd r)
      | Returned false m' =>
          let length := Z.to_nat (read_cell (ble_cbuf m)) in
          r <- run h rest m' ;;
          Ok (Some (firstn length (result_str m')) :: fst r, snd r)
      | Waiting _ => Fault
      | Halted => Fault
      end
  end.

(** The strings a client pushes are packets. *)
Definition pushes_packets (o : op) : Prop :=
  match o with
  | Push p => packet p
  | Pop => True
  end.

(** Both cursors index a cell of the 64-cell array. *)
Definition cursors_in_range (b : BLE_CIRCULAR_BUF) : Prop :=
  0 <= read_ptr b < 64 /\ 0 <= write_ptr b < 64.

End Ble.

(** While a transmission is on and the TXC flag is down, the busy flag
    stays up: only [TXC_Interrupt] clears it. *)
Definition transmitting (m : Leuart.machine) : Prop :=
  Leuart.leuart_tx_busy m = true /\
  Leuart.TXC (Leuart.IF_ (Leuart.LEUART0 m)) = false.

Definition same_tx (m m' : Leuart.machine) : Prop :=
  Leuart.leuart_tx_busy m' = Leuart.leuart_tx_busy m /\
  Leuart.TXC (Leuart.IF_ (Leuart.LEUART0 m'))
    = Leuart.TXC (Leuart.IF_ (Leuart.LEUART0 m)).

(** ** app.c, main.c: the dispatch loop *)

Module Main.

Import Scheduler.

Section WithAppHeader.

Variable h : app_h.

(** [get_scheduled_events() & event]. *)
Definition scheduled (event : Z) (s : Scheduler.t) : bool :=
  negb (Z.land (get_scheduled_events s) event =? 0).

(** The event handlers of app.c, as the scheduler sees them.  The driver
    calls they make ([Si7021_read], [ble_write], [letimer_start],
    [ble_circ_pop]) reach the scheduler through interrupts only, which
    [Interrupt] below stands for. *)
Definition scheduled_letimer0_uf_evt (s : Scheduler.t) : result Scheduler.t :=
  s <- EFM_ASSERT (scheduled (LETIMER0_UF_EVT h) s) s ;;
  Ok (remove_scheduled_event (LETIMER0_UF_EVT h) s).

Definition scheduled_letimer0_comp0_evt (s : Scheduler.t)
  : result Scheduler.t :=
  let s := remove_scheduled_event (LETIMER0_COMP0_EVT h) s in
  EFM_ASSERT false s.

Definition scheduled_letimer0_comp1_evt (s : Scheduler.t)
  : result Scheduler.t :=
  let s := remove_scheduled_event (LETIMER0_COMP1_EVT h) s in
  EFM_ASSERT false s.

Definition Si7021_temp_done_evt (s : Scheduler.t) : result Scheduler.t :=
  s <- EFM_ASSERT (scheduled I2C.SI7021_READ_EVT s) s ;;
  Ok (remove_scheduled_event I2C.SI7021_READ_EVT s).

Definition scheduled_boot_up_evt (s : Scheduler.t) : result Scheduler.t :=
  s <- EFM_ASSERT (scheduled (BOOT_UP_EVT h) s) s ;;
  Ok (remove_scheduled_event (BOOT_UP_EVT h) s).

Definition scheduled_leuart0_tx_done_evt (s : Scheduler.t)
  : result Scheduler.t :=
  Ok (remove_scheduled_event (LEUART_TX_EVT h) s).

(** One pass of [while (1)] in [main]; the flag tells whether the pass
    called [enter_sleep]. *)
Definition main_loop_pass (s : Scheduler.t) : result (bool * Scheduler.t) :=
  let slept := get_scheduled_events s =? 0 in
  s <- (if scheduled (LETIMER0_UF_EVT h) s
        then scheduled_letimer0_uf_evt s else Ok s) ;;
  s <- (if scheduled (LETIMER0_COMP0_EVT h) s
        then scheduled_letimer0_comp0_evt s else Ok s) ;;
  s <- (if scheduled (LETIMER0_COMP1_EVT h) s
        then scheduled_letimer0_comp1_evt s else Ok s) ;;
  s <- (if scheduled I2C.SI7021_READ_EVT s
        then Si7021_temp_done_evt s else Ok s) ;;
  s <- (if scheduled (BOOT_UP_EVT h) s
        then scheduled_boot_up_evt s else Ok s) ;;
  s <- (if scheduled (LEUART_TX_EVT h) s
        then scheduled_leuart0_tx_done_evt s else Ok s) ;;
  Ok (slept, s).

(** What the scheduler goes through: interrupt handlers posting events,
    and passes of the main loop. *)
Inductive action : Type :=
| Interrupt (event : Z)
| Pass.

Fixpoint execute (acts : list action) (s : Scheduler.t)
  : result (list bool * Scheduler.t) :=
  match acts with
  | [] => Ok ([], s)
  | Interrupt event :: rest => execute rest (add_scheduled_event event s)
  | Pass :: rest =>
      r <- main_loop_pass s ;;
      r' <- execute rest (snd r) ;;
      Ok (fst r :: fst r', snd r')
  end.

(** The masks the main loop tests, i.e. those with a handler. *)
Definition handled : list Z :=
  [LETIMER0_UF_EVT h; LETIMER0_COMP0_EVT h; LETIMER0_COMP1_EVT h;
   I2C.SI7021_READ_EVT; BOOT_UP_EVT h; LEUART_TX_EVT h].

(** No bit of [event] is among those of the masks with a handler. *)
Definition unhandled (event : Z) : Prop :=
  Forall (fun e => Z.land event e = 0) handled.

(** The timer's compare events, whose handlers assert false: the
    application opens the timer with both interrupts disabled. *)
Definition posts_no_compare (a : action) : Prop :=
  match a with
  | Interrupt event =>
      Z.land event (LETIMER0_COMP0_EVT h) = 0 /\
      Z.land event (LETIMER0_COMP1_EVT h) = 0
  | Pass => True
  end.

(** What the theorem on the rx-done event keeps along an execution: the
    bits of [LEUART_RX_EVT] are pending, and no compare event is. *)
Definition rx_pending (s : Scheduler.t) : Prop :=
  Z.land (event_scheduled s) (LEUART_RX_EVT h) = LEUART_RX_EVT h /\
  Z.land (event_scheduled s) (LETIMER0_COMP0_EVT h) = 0 /\
  Z.land (event_scheduled s) (LETIMER0_COMP1_EVT h) = 0.

End WithAppHeader.

End Main.

(** ** The machine at reset *)

(** Statics are zero at reset; the scheduler and the sleep table are
    opened. *)
Definition services_at_reset : services :=
  mk_services (Scheduler.mk 0 []) Sleep.sleep_open.

Definition i2c_at_reset : I2C.state :=
  I2C.mk_state services_at_reset (I2C.mk_payload 0 I2C.initialize 0 0) 0
    (I2C.mk_regs true 0 []).

Definition leuart_at_reset : Leuart.machine :=
  Leuart.mk_machine services_at_reset 0 0
    (Leuart.mk_payload Leuart.begin 0 (repeat 0 80) 0 false
       Leuart.idle (repeat 0 80) 0 0 0 false)
    (Leuart.mk_regs (Leuart.mk_flags true false false false false)
       (Leuart.mk_flags false false false false false)
       0 [] false true false 0 0).

Definition ble_at_reset : Ble.machine :=
  Ble.mk_machine leuart_at_reset (Ble.mk_cbuf (repeat 0 64) 0 0 0 0)
    (repeat 0 64).

(** ** Si7021.h, Si7021.c *)

Module Si7021.

Definition Si7021_dev_addr : Z := 0x40.
Definition SI7021_TEMP_NO_HOLD : Z := 0xF3.
Definition byte_num : Z := 2.

(** [Si7021_read]; [raw_data], the word the payload points to, is the
    [dest] field of the engine's state. *)
Definition Si7021_read (s : I2C.state) : result I2C.state :=
  I2C.I2C_Start
    (I2C.mk_init Si7021_dev_addr byte_num SI7021_TEMP_NO_HOLD) s.

Definition raw_data (s : I2C.state) : Z := I2C.dest s.

End Si7021.

(** The write of the device address with the read bit. *)
Definition read_address (addr : Z) : I2C.reg_write :=
  I2C.TXDATA (u32 (Z.lor (Z.shiftl addr 1) (I2C.wr_bit I2C.read))).

(** What a whole read transaction writes to the peripheral: start and
    write address, the command, repeated start and read address, the same
    again for every refusal, an ACK for every byte but the last, then
    NACK and stop. *)
Definition transaction_writes (addr cmd : Z) (nacks count : nat)
  : list I2C.reg_write :=
  [I2C.CMD_START;
   I2C.TXDATA (u32 (Z.lor (Z.shiftl addr 1) (I2C.wr_bit I2C.write)));
   I2C.TXDATA cmd; I2C.CMD_START; read_address addr] ++
  concat (repeat [I2C.CMD_START; read_address addr] nacks) ++
  repeat I2C.CMD_ACK (count - 1) ++ [I2C.CMD_NACK; I2C.CMD_STOP].

(** The number of bytes the receive loop takes before it stops the bus:
    the count is decremented first and compared with zero after, so a
    count of zero wraps round. *)
Definition bytes_expected (n : Z) : Z := if n =? 0 then 2 ^ 32 else n.

(** *** The link receiver, frame by frame *)

(** A frame on the line: the start marker, the payload, the stop marker. *)
Definition frame (payload : list Z) : list Z :=
  [Leuart.STARTF_CHAR] ++ payload ++ [Leuart.SIGF_CHAR].

(** The receiver of [m] inside a frame: busy in [receive] with the
    byte-available and stop-marker interrupts enabled and RXBLOCK lifted,
    [k] chars in the buffer [buf], and [rxd] the last byte read. *)
Definition receiving (m : Leuart.machine) (buf : list Z) (k : nat) (rxd : Z)
  : Leuart.machine :=
  let p := Leuart.lePayload m in
  let r := Leuart.LEUART0 m in
  let e := Leuart.IEN r in
  Leuart.mk_machine (Leuart.svc m) (Leuart.rx_done_evt m)
    (Leuart.tx_done_evt m)
    (Leuart.mk_payload (Leuart.state p) (Leuart.count p) (Leuart.str p)
       (Leuart.index p) (Leuart.txbusy p) Leuart.receive buf (Z.of_nat k)
       (Leuart.startf p) (Leuart.sigf p) true)
    (Leuart.mk_regs (Leuart.IF_ r)
       (Leuart.mk_flags (Leuart.TXBL e) (Leuart.TXC e) true true true)
       rxd (Leuart.TXDATA r) false (Leuart.STATUS_TXIDLE r)
       (Leuart.CTRL_SFUBRX r) (Leuart.STARTFRAME r) (Leuart.SIGFRAME r)).

(** The receiver of [m] after a frame: idle again with RXBLOCK set, the
    rx-done event posted, [k] chars in the buffer [buf]. *)
Definition frame_stored (h : app_h) (m : Leuart.machine) (buf : list Z)
  (k : nat) : Leuart.machine :=
  let p := Leuart.lePayload m in
  let r := Leuart.LEUART0 m in
  Leuart.mk_machine (add_scheduled_event (LEUART_RX_EVT h) (Leuart.svc m))
    (Leuart.rx_done_evt m) (Leuart.tx_done_evt m)
    (Leuart.mk_payload (Leuart.state p) (Leuart.count p) (Leuart.str p)
       (Leuart.index p) (Leuart.txbusy p) Leuart.idle buf (Z.of_nat k)
       (Leuart.startf p) (Leuart.sigf p) false)
    (Leuart.mk_regs (Leuart.IF_ r) (Leuart.IEN r) Leuart.SIGF_CHAR
       (Leuart.TXDATA r) true (Leuart.STATUS_TXIDLE r)
       (Leuart.CTRL_SFUBRX r) (Leuart.STARTFRAME r) (Leuart.SIGFRAME r)).

(** The link as [leuart_open] leaves it from reset, with the event masks
    at bits 5 (transmit done) and 6 (receive done). *)
Definition leuart_opened : Leuart.machine :=
  Leuart.mk_machine
    (mk_services (Scheduler.mk 0 []) [0; 0; 0; 1; 0]%nat) 64 32
    (Leuart.mk_payload Leuart.begin 0 (repeat 0 80) 0 false
       Leuart.idle (repeat 0 80) 0 35 63 false)
    (Leuart.mk_regs
       (Leuart.mk_flags true false false false false)
       (Leuart.mk_flags false false true false false)
       0 [] true true true 35 63).

(** The busy flag of the receiver agrees with its state: down when idle,
    up inside a frame; the state [done] is never entered. *)
Definition rx_consistent (m : Leuart.machine) : bool :=
  match Leuart.rx_state (Leuart.lePayload m) with
  | Leuart.idle => negb (Leuart.leuart_rx_busy m)
  | Leuart.start => Leuart.leuart_rx_busy m
  | Leuart.receive => Leuart.leuart_rx_busy m
  | Leuart.done => false
  end.

(** What happens to the link once it is open: the application starts a
    transmission, or the line does something. *)
Inductive leuart_call : Type :=
| CallStart (string : list Z) (string_len : Z)
| CallLine (ev : Leuart.line_event).

Definition leuart_call_run (h : app_h) (c : leuart_call) (m : Leuart.machine)
  : result Leuart.machine :=
  match c with
  | CallStart string string_len => Leuart.leuart_start string string_len m
  | CallLine ev => Leuart.interrupt h ev m
  end.

Fixpoint leuart_calls (h : app_h) (cs : list leuart_call) (m : Leuart.machine)
  : result Leuart.machine :=
  match cs with
  | [] => Ok m
  | c :: rest => m <- leuart_call_run h c m ;; leuart_calls h rest m
  end.

(** The stores of a call fall inside the arrays of the payload, both of
    80 cells.  [leuart_start] copies the string and its NUL into [str]
    and the handler reads [string_len] chars of it; a line event inside
    a frame makes the handler store one char and, for the stop marker, a
    NUL behind it into [received_str] at [rx_count] (outside a frame the
    first store follows the reset of [rx_count] by the start marker).
    The code checks none of this; beyond it the stores land on the
    fields behind the arrays, which C leaves undefined. *)
Definition call_in_bounds (c : leuart_call) (m : Leuart.machine) : bool :=
  match c with
  | CallStart string string_len =>
      (strlen string <? 80)%nat && (0 <=? string_len) && (string_len <=? 80)
  | CallLine _ =>
      match Leuart.rx_state (Leuart.lePayload m) with
      | Leuart.idle => true
      | _ =>
          (0 <=? Leuart.rx_count (Leuart.lePayload m)) &&
          (Leuart.rx_count (Leuart.lePayload m) + 2 <=? 80)
      end
  end.

(** Every call of a run is in bounds in the state it is made in. *)
Fixpoint calls_in_bounds (h : app_h) (cs : list leuart_call)
  (m : Leuart.machine) : bool :=
  match cs with
  | [] => true
  | c :: rest =>
      call_in_bounds c m &&
      match leuart_call_run h c m with
      | Ok m' => calls_in_bounds h rest m'
      | Fault => true
      end
  end.

(** *** The link transmitter, byte by byte *)

(** The bytes written to TXDATA when the first [k] chars of the payload
    string [s] have been sent. *)
Definition tx_bytes (s : list Z) (k : nat) : list Z :=
  map (fun i => u8 (nth i s 0)) (seq 0 k).

(** The link of [m] with a transmission of [n] chars of [s] under way and
    [k] of them written: the transmitter busy in [transmit] with the
    buffer-level interrupt enabled, EM3 blocked once more. *)
Definition sending (m : Leuart.machine) (s : list Z) (n k : nat)
  (txbl idle : bool) : Leuart.machine :=
  let p := Leuart.lePayload m in
  let r := Leuart.LEUART0 m in
  let f := Leuart.IF_ r in
  let e := Leuart.IEN r in
  let v := Leuart.svc m in
  Leuart.mk_machine
    (mk_services (sched v)
       (upd Leuart.LEUART_EM (S (nth Leuart.LEUART_EM (sleep v) O)) (sleep v)))
    (Leuart.rx_done_evt m) (Leuart.tx_done_evt m)
    (Leuart.mk_payload Leuart.transmit (Z.of_nat (n - k)) s (Z.of_nat k) true
       (Leuart.rx_state p) (Leuart.received_str p) (Leuart.rx_count p)
       (Leuart.startf p) (Leuart.sigf p) (Leuart.rxbusy p))
    (Leuart.mk_regs
       (Leuart.mk_flags txbl false (Leuart.STARTF f) (Leuart.RXDATAV f)
          (Leuart.SIGF f))
       (Leuart.mk_flags true (Leuart.TXC e) (Leuart.STARTF e)
          (Leuart.RXDATAV e) (Leuart.SIGF e))
       (Leuart.RXDATA r) (Leuart.TXDATA r ++ tx_bytes s k)
       (Leuart.STATUS_RXBLOCK r) idle (Leuart.CTRL_SFUBRX r)
       (Leuart.STARTFRAME r) (Leuart.SIGFRAME r)).

(** All [n] chars written: the transmitter in [transmit_done], waiting for
    the transmission-complete interrupt alone. *)
Definition sent (m : Leuart.machine) (s : list Z) (n : nat) (txbl : bool)
  : Leuart.machine :=
  let p := Leuart.lePayload m in
  let r := Leuart.LEUART0 m in
  let f := Leuart.IF_ r in
  let e := Leuart.IEN r in
  let v := Leuart.svc m in
  Leuart.mk_machine
    (mk_services (sched v)
       (upd Leuart.LEUART_EM (S (nth Leuart.LEUART_EM (sleep v) O)) (sleep v)))
    (Leuart.rx_done_evt m) (Leuart.tx_done_evt m)
    (Leuart.mk_payload Leuart.transmit_done 0 s (Z.of_nat n) true
       (Leuart.rx_state p) (Leuart.received_str p) (Leuart.rx_count p)
       (Leuart.startf p) (Leuart.sigf p) (Leuart.rxbusy p))
    (Leuart.mk_regs
       (Leuart.mk_flags txbl false (Leuart.STARTF f) (Leuart.RXDATAV f)
          (Leuart.SIGF f))
       (Leuart.mk_flags false true (Leuart.STARTF e) (Leuart.RXDATAV e)
          (Leuart.SIGF e))
       (Leuart.RXDATA r) (Leuart.TXDATA r ++ tx_bytes s n)
       (Leuart.STATUS_RXBLOCK r) false (Leuart.CTRL_SFUBRX r)
       (Leuart.STARTFRAME r) (Leuart.SIGFRAME r)).

(** The transmission complete: the transmitter idle and not busy, the
    tx-done event posted, the block on EM3 released. *)
Definition tx_finished (m : Leuart.machine) (s : list Z) (n : nat)
  : Leuart.machine :=
  let p := Leuart.lePayload m in
  let r := Leuart.LEUART0 m in
  let f := Leuart.IF_ r in
  let e := Leuart.IEN r in
  Leuart.mk_machine
    (add_scheduled_event (Leuart.tx_done_evt m) (Leuart.svc m))
    (Leuart.rx_done_evt m) (Leuart.tx_done_evt m)
    (Leuart.mk_payload Leuart.transmit_done 0 s (Z.of_nat n) false
       (Leuart.rx_state p) (Leuart.received_str p) (Leuart.rx_count p)
       (Leuart.startf p) (Leuart.sigf p) (Leuart.rxbusy p))
    (Leuart.mk_regs
       (Leuart.mk_flags true false (Leuart.STARTF f) (Leuart.RXDATAV f)
          (Leuart.SIGF f))
       (Leuart.mk_flags false true (Leuart.STARTF e) (Leuart.RXDATAV e)
          (Leuart.SIGF e))
       (Leuart.RXDATA r) (Leuart.TXDATA r ++ tx_bytes s n)
       (Leuart.STATUS_RXBLOCK r) true (Leuart.CTRL_SFUBRX r)
       (Leuart.STARTFRAME r) (Leuart.SIGFRAME r)).

(** The state after the first interrupt and [j] further buffer-empty
    events of a transmission of [n] chars. *)
Definition tx_after (m : Leuart.machine) (s : list Z) (n j : nat)
  : Leuart.machine :=
  if (S j <? n)%nat then sending m s n (S j) false false
  else sent m s n false.

(** The line during a transmission of [n] chars: the buffer empties after
    each char, and the last char leaves the shift register. *)
Definition tx_line (n : nat) : list Leuart.line_event :=
  repeat Leuart.TxBufferEmpty n ++ [Leuart.TxComplete].

(** *** ble.c on top of the link *)

(** [ble_open]: the link is opened and the queue initialised.  The two
    masks go into the fields [tx_done_evt] and [rx_done_evt] of the
    settings handed to [leuart_open], which does not read them: it stores
    the macros [LEUART_TX_EVT] and [LEUART_RX_EVT] of app.h. *)
Definition ble_open (h : app_h) (tx_event rx_event : Z) (m : Ble.machine)
  : result Ble.machine :=
  l <- Leuart.leuart_open h (Ble.leuart m) ;;
  Ok (Ble.ble_circ_init
        (Ble.mk_machine l (Ble.ble_cbuf m) (Ble.result_str m))).

(** Calls of [ble_write] one after the other, as [scheduled_boot_up_evt]
    makes them, the line carrying each transmission to its end. *)
Fixpoint ble_writes (h : app_h) (strings : list (list Z)) (m : Ble.machine)
  : Ble.outcome :=
  match strings with
  | [] => Ble.Returned false m
  | string :: rest =>
      match Ble.ble_write h string (tx_line (strlen string)) m with
      | Ble.Returned _ m' => ble_writes h rest m'
      | Ble.Waiting m' => Ble.Waiting m'
      | Ble.Halted => Ble.Halted
      end
  end.

(** The link and the queue as [ble_open] leaves them from reset. *)
Definition ble_opened : Ble.machine :=
  Ble.ble_circ_init
    (Ble.mk_machine leuart_opened (Ble.mk_cbuf (repeat 0 64) 0 0 0 0)
       (repeat 0 64)).

(** [rx_str_copy]: [memcpy] of as many chars as the received string has
    before its NUL; no terminator is written. *)
Definition rx_str_copy (destination : list Z) (m : Leuart.machine) : list Z :=
  Leuart.store 0 (Leuart.received_message m) destination.

(** ** letimer.c: the interrupt handler *)

Module Letimer.

(** The interrupt sources of the timer, as the bits of IF, IEN and of the
    handler's [int_flag]. *)
Record int_flags : Type := mk_flags {
  COMP0 : bool;
  COMP1 : bool;
  UF : bool
}.

Record LETIMER_TypeDef : Type := mk_regs {
  IF_ : int_flags;
  IEN : int_flags
}.

(** The scheduler, the event masks [letimer_pwm_open] stores, and the
    timer. *)
Record state : Type := mk_state {
  sched : Scheduler.t;
  scheduled_comp0_evt : Z;
  scheduled_comp1_evt : Z;
  scheduled_uf_evt : Z;
  LETIMER0 : LETIMER_TypeDef
}.

Definition set_sched (t : Scheduler.t) (s : state) : state :=
  mk_state t (scheduled_comp0_evt s) (scheduled_comp1_evt s)
    (scheduled_uf_evt s) (LETIMER0 s).

Definition set_LETIMER0 (r : LETIMER_TypeDef) (s : state) : state :=
  mk_state (sched s) (scheduled_comp0_evt s) (scheduled_comp1_evt s)
    (scheduled_uf_evt s) r.

(** A write of [mask] to IFC clears the flags of the mask. *)
Definition write_IFC (mask : int_flags) (r : LETIMER_TypeDef)
  : LETIMER_TypeDef :=
  let f := IF_ r in
  mk_regs (mk_flags (COMP0 f && negb (COMP0 mask))
             (COMP1 f && negb (COMP1 mask)) (UF f && negb (UF mask)))
    (IEN r).

(** [IF & IEN]. *)
Definition enabled_flags (r : LETIMER_TypeDef) : int_flags :=
  let f := IF_ r in
  let e := IEN r in
  mk_flags (COMP0 f && COMP0 e) (COMP1 f && COMP1 e) (UF f && UF e).

Definition LETIMER0_IRQHandler (s : state) : result state :=
  let int_flag := enabled_flags (LETIMER0 s) in
  let s := set_LETIMER0 (write_IFC int_flag (LETIMER0 s)) s in
  s <- (if COMP0 int_flag then
          s <- EFM_ASSERT (negb (COMP0 (IF_ (LETIMER0 s)))) s ;;
          Ok (set_sched
                (Scheduler.add_scheduled_event (scheduled_comp0_evt s)
                   (sched s)) s)
        else Ok s) ;;
  s <- (if COMP1 int_flag then
          s <- EFM_ASSERT (negb (COMP1 (IF_ (LETIMER0 s)))) s ;;
          Ok (set_sched
                (Scheduler.add_scheduled_event (scheduled_comp1_evt s)
                   (sched s)) s)
        else Ok s) ;;
  if UF int_flag then
    s <- EFM_ASSERT (negb (UF (IF_ (LETIMER0 s)))) s ;;
    Ok (set_sched
          (Scheduler.add_scheduled_event (scheduled_uf_evt s) (sched s)) s)
  else Ok s.

(** What the counter does: it passes COMP0 or COMP1, or underflows; the
    timer raises the matching flag. *)
Inductive timer_event : Type :=
| Compare0
| Compare1
| Underflow.

Definition raise (ev : timer_event) (r : LETIMER_TypeDef) : LETIMER_TypeDef :=
  let f := IF_ r in
  match ev with
  | Compare0 => mk_regs (mk_flags true (COMP1 f) (UF f)) (IEN r)
  | Compare1 => mk_regs (mk_flags (COMP0 f) true (UF f)) (IEN r)
  | Underflow => mk_regs (mk_flags (COMP0 f) (COMP1 f) true) (IEN r)
  end.

(** The interrupt line to the core: some enabled flag is up. *)
Definition irq_pending (s : state) : bool :=
  let i := enabled_flags (LETIMER0 s) in
  COMP0 i || COMP1 i || UF i.

Definition interrupt (ev : timer_event) (s : state) : result state :=
  let s := set_LETIMER0 (raise ev (LETIMER0 s)) s in
  if irq_pending s then LETIMER0_IRQHandler s else Ok s.

Fixpoint interrupts (evs : list timer_event) (s : state) : result state :=
  match evs with
  | [] => Ok s
  | ev :: rest => s <- interrupt ev s ;; interrupts rest s
  end.

Definition is_underflow (ev : timer_event) : bool :=
  match ev with
  | Underflow => true
  | _ => false
  end.

End Letimer.
(** * Properties *)

(** ** Tactics *)

(** Closes a conjunction of equations between closed (or nearly closed)
    terms by running both sides. *)
Ltac run :=
  lazymatch goal with
  | |- _ /\ _ => split; [run | run]
  | |- _ => vm_compute; reflexivity
  end.

(** Runs the right-hand side of an equation, leaving machine arithmetic
    on symbolic values folded. *)
Ltac run_in H :=
  match type of H with
  | ?l = ?r =>
      let r' := eval cbv -[u32 u8 Z.shiftl Z.lor Z.of_nat length app] in r in
      change (l = r') in H
  end.

(** ** Lists and strings *)

Lemma upd_length {A : Type} (i : nat) (v : A) (l : list A) :
  length (upd i v l) = length l.
Proof.
  revert i; induction l as [|h t IH]; intros [|j]; simpl; auto.
Qed.

Lemma strlen_le_length (s : list Z) : (strlen s <= length s)%nat.
Proof.
  induction s as [|c t IH]; simpl; [lia|].
  destruct (c =? 0); simpl; lia.
Qed.

(** ** Bit-level facts about the 32-bit complement *)

Lemma u32_not_testbit (e : Z) (i : Z) :
  0 <= i ->
  Z.testbit (u32_not e) i = if i <? 32 then negb (Z.testbit e i) else false.
Proof.
  intros Hi. unfold u32_not, u32.
  destruct (i <? 32) eqn:E.
  - apply Z.ltb_lt in E.
    rewrite Z.mod_pow2_bits_low by lia.
    apply Z.lnot_spec; lia.
  - apply Z.ltb_ge in E.
    apply Z.mod_pow2_bits_high; lia.
Qed.

Lemma u32_range_testbit (s : Z) (i : Z) :
  0 <= s < 2 ^ 32 -> 32 <= i -> Z.testbit s i = false.
Proof.
  intros Hs Hi.
  destruct (Z.eq_dec s 0) as [->|Hne]; [apply Z.bits_0|].
  apply Z.bits_above_log2; [lia|].
  assert (Z.log2 s < 32) by (apply Z.log2_lt_pow2; lia).
  lia.
Qed.

Lemma land_u32_not_self (s e : Z) : Z.land (Z.land s (u32_not e)) e = 0.
Proof.
  apply Z.bits_inj'; intros i Hi.
  rewrite !Z.land_spec, u32_not_testbit, Z.bits_0 by lia.
  destruct (i <? 32), (Z.testbit s i), (Z.testbit e i); reflexivity.
Qed.

Lemma land_u32_not_disjoint (s e : Z) :
  0 <= s < 2 ^ 32 -> Z.land s e = 0 -> Z.land s (u32_not e) = s.
Proof.
  intros Hs Hd.
  apply Z.bits_inj'; intros i Hi.
  rewrite Z.land_spec, u32_not_testbit by lia.
  assert (Hb : Z.testbit (Z.land s e) i = false) by (rewrite Hd; apply Z.bits_0).
  rewrite Z.land_spec in Hb.
  destruct (i <? 32) eqn:E.
  - destruct (Z.testbit s i), (Z.testbit e i); simpl in *; congruence.
  - apply Z.ltb_ge in E. rewrite (u32_range_testbit s i) by lia. reflexivity.
Qed.

(** C5.  For every pending set [s] and event mask [e] of the 32-bit
    scheduler word: after [add_scheduled_event e] the peeked set has the
    bits of [e] set; after a following [remove_scheduled_event e] they are
    clear; adding [e] twice leaves the same pending set as adding it once;
    and removing an event none of whose bits is pending changes nothing. *)
Theorem C5_event_set_laws (s : Scheduler.t) (e : Z)
  (Hs : 0 <= Scheduler.event_scheduled s < 2 ^ 32) :
  let s1 := Scheduler.add_scheduled_event e s in
  Z.land (Scheduler.get_scheduled_events s1) e = e /\
  Z.land (Scheduler.get_scheduled_events
            (Scheduler.remove_scheduled_event e s1)) e = 0 /\
  Scheduler.get_scheduled_events (Scheduler.add_scheduled_event e s1)
    = Scheduler.get_scheduled_events s1 /\
  (Z.land (Scheduler.get_scheduled_events s) e = 0 ->
   Scheduler.get_scheduled_events (Scheduler.remove_scheduled_event e s)
     = Scheduler.get_scheduled_events s).
Proof.
  unfold Scheduler.get_scheduled_events; simpl.
  repeat split.
  - apply Z.bits_inj'; intros i _.
    rewrite Z.land_spec, Z.lor_spec.
    destruct (Z.testbit (Scheduler.event_scheduled s) i), (Z.testbit e i);
      reflexivity.
  - apply land_u32_not_self.
  - rewrite <- Z.lor_assoc, Z.lor_diag. reflexivity.
  - intros Hd. apply land_u32_not_disjoint; assumption.
Qed.

Lemma C5_event_set_laws_witness :
  let s := Scheduler.mk 8 [8] in
  let s1 := Scheduler.add_scheduled_event 64 s in
  Z.land (Scheduler.get_scheduled_events s1) 64 = 64 /\
  Z.land (Scheduler.get_scheduled_events
            (Scheduler.remove_scheduled_event 64 s1)) 64 = 0 /\
  Scheduler.get_scheduled_events (Scheduler.add_scheduled_event 64 s1)
    = Scheduler.get_scheduled_events s1 /\
  (Z.land (Scheduler.get_scheduled_events s) 64 = 0 ->
   Scheduler.get_scheduled_events (Scheduler.remove_scheduled_event 64 s)
     = Scheduler.get_scheduled_events s).
Proof.
  apply (C5_event_set_laws (Scheduler.mk 8 [8]) 64); simpl; lia.
Defined.
(** ** The link receiver *)

(** [leuart_open] leaves the receiver listening. *)
Lemma listening_after_open (h : app_h) :
  exists m, Leuart.leuart_open h leuart_at_reset = Ok m /\
            Leuart.listening m = true.
Proof. eexists; run. Qed.

(** At the level of the handlers alone, with one byte-available signal for
    the start marker and none for the stop marker, the buffer holds "ABC". *)
Lemma rx_signals_ABC :
  exists m m',
    Leuart.leuart_open app_h_bits leuart_at_reset = Ok m /\
    Leuart.rx_steps app_h_bits
      [Leuart.StartMarker; Leuart.ByteAvailable 35; Leuart.ByteAvailable 65;
       Leuart.ByteAvailable 66; Leuart.ByteAvailable 67; Leuart.StopMarker] m
      = Ok m' /\
    Leuart.received_message m' = [65; 66; 67].
Proof. do 2 eexists; run. Qed.

(** C1, as stated, fails.  After [leuart_open], the bytes '#' 'A' 'B' 'C' '?'
    on the line leave the message "#ABC?" in the accumulation buffer, not
    "ABC": the start marker is still in RXDATA when the handler reaches
    its receive state, and the stop marker raises RXDATAV together with
    SIGF, which the handler serves first. *)
Lemma C1_markers_are_stored :
  exists m m',
    Leuart.leuart_open app_h_bits leuart_at_reset = Ok m /\
    Leuart.interrupts app_h_bits (map Leuart.RxFrame [35; 65; 66; 67; 63]) m
      = Ok m' /\
    Leuart.received_message m' = [35; 65; 66; 67; 63] /\
    Leuart.received_message m' <> [65; 66; 67].
Proof.
  do 2 eexists.
  split; [vm_compute; reflexivity|].
  split; [vm_compute; reflexivity|].
  split; [vm_compute; reflexivity|].
  vm_compute. discriminate.
Qed.

(** C1, amended.  For a receiver that is idle, not busy and listening for
    a start frame, the bytes '#' 'A' 'B' 'C' '?' on the line leave
    "#ABC?" in the accumulation buffer, both markers included, followed by
    a NUL; exactly one rx-done event is posted; the receiver is idle and
    not busy again, with the byte-available and stop-marker interrupts
    disabled, RXBLOCK set and no interrupt pending. *)
Theorem C1_frame_received (h : app_h) (m : Leuart.machine)
  (Hm : Leuart.listening m = true) :
  exists m',
    Leuart.interrupts h (map Leuart.RxFrame [35; 65; 66; 67; 63]) m = Ok m' /\
    firstn 6 (Leuart.received_str (Leuart.lePayload m'))
      = [35; 65; 66; 67; 63; 0] /\
    Leuart.received_message m' = [35; 65; 66; 67; 63] /\
    posted_events (Leuart.svc m')
      = posted_events (Leuart.svc m) ++ [LEUART_RX_EVT h] /\
    Leuart.rx_state (Leuart.lePayload m') = Leuart.idle /\
    Leuart.rxbusy (Leuart.lePayload m') = false /\
    Leuart.RXDATAV (Leuart.IEN (Leuart.LEUART0 m')) = false /\
    Leuart.SIGF (Leuart.IEN (Leuart.LEUART0 m')) = false /\
    Leuart.STATUS_RXBLOCK (Leuart.LEUART0 m') = true /\
    Leuart.irq_pending m' = false.
Proof.
  destruct m as [v rx tx p r].
  destruct p as [st cnt s ix tb rs buf rc sf sg rb].
  destruct r as [f e rxd txd blk idl sfu stf sgf].
  destruct f as [f1 f2 f3 f4 f5], e as [e1 e2 e3 e4 e5].
  unfold Leuart.listening, Leuart.irq_pending, Leuart.enabled_flags in Hm.
  cbn [Leuart.lePayload Leuart.LEUART0 Leuart.rx_state Leuart.rxbusy
       Leuart.IEN Leuart.IF_ Leuart.STARTF Leuart.RXDATAV Leuart.SIGF
       Leuart.TXBL Leuart.TXC Leuart.CTRL_SFUBRX Leuart.STARTFRAME
       Leuart.SIGFRAME Leuart.received_str] in Hm.
  repeat (apply andb_prop in Hm; destruct Hm as [Hm ?]).
  destruct rs; try discriminate.
  repeat match goal with
         | H : negb ?b = true |- _ => apply negb_true_iff in H
         | H : (_ =? _) = true |- _ => apply Z.eqb_eq in H
         | H : (_ =? _)%nat = true |- _ => apply Nat.eqb_eq in H
         end.
  subst.
  do 6 (destruct buf as [|? buf]; [discriminate|]).
  destruct blk, f1, e1, f2, e2; try discriminate; eexists; run.
Qed.

Lemma C1_frame_received_witness :
  exists m m',
    Leuart.leuart_open app_h_bits leuart_at_reset = Ok m /\
    Leuart.interrupts app_h_bits (map Leuart.RxFrame [35; 65; 66; 67; 63]) m
      = Ok m' /\
    Leuart.received_message m' = [35; 65; 66; 67; 63] /\
    posted_events (Leuart.svc m') = [LEUART_RX_EVT app_h_bits].
Proof.
  eexists.
  destruct (C1_frame_received app_h_bits
              (Leuart.mk_machine
                 (mk_services (Scheduler.mk 0 []) [0; 0; 0; 1; 0]%nat) 64 32
                 (Leuart.mk_payload Leuart.begin 0 (repeat 0 80) 0 false
                    Leuart.idle (repeat 0 80) 0 35 63 false)
                 (Leuart.mk_regs
                    (Leuart.mk_flags true false false false false)
                    (Leuart.mk_flags false false true false false)
                    0 [] true true true 35 63))
              eq_refl)
    as (m' & H1 & _ & H3 & H4 & _).
  exists m'. repeat split; [exact H1 | exact H3 | exact H4].
Defined.

(** ** The I2C engine *)

Lemma i2c_interrupts_app (a b : list I2C.bus_event) (s : I2C.state) :
  I2C.interrupts (a ++ b) s = (s' <- I2C.interrupts a s ;; I2C.interrupts b s').
Proof.
  revert s; induction a as [|ev a IH]; intros s; simpl; [reflexivity|].
  destruct (I2C.interrupt ev s); simpl; auto.
Qed.

Lemma rx_word_last_two (d : Z) (pre : list Z) (b0 b1 : Z) :
  I2C.rx_word d (pre ++ [b0; b1]) = Z.lor (u32 (Z.shiftl b0 8)) b1.
Proof.
  revert d; induction pre as [|b pre IH]; intros d; [reflexivity|].
  change ((b :: pre) ++ [b0; b1]) with (b :: (pre ++ [b0; b1])).
  cbn [I2C.rx_word].
  destruct (pre ++ [b0; b1]) eqn:E.
  - destruct pre; discriminate.
  - apply IH.
Qed.

(** The receive loop: with as many bytes delivered as the count asks for,
    the engine ends in [end_process]; nothing is posted meanwhile. *)
Lemma i2c_receive_all (data : list Z) :
  forall s : I2C.state,
    I2C.current_state (I2C.payload s) = I2C.receive_data ->
    I2C.bytes (I2C.payload s) = Z.of_nat (length data) ->
    data <> [] ->
    Z.of_nat (length data) < 2 ^ 32 ->
    exists s',
      I2C.interrupts (map I2C.DevByte data) s = Ok s' /\
      I2C.current_state (I2C.payload s') = I2C.end_process /\
      I2C.svc s' = I2C.svc s /\
      I2C.dest s' = I2C.rx_word (I2C.dest s) data.
Proof.
  induction data as [|b rest IH]; intros s Hst Hn Hne Hmax; [congruence|].
  destruct s as [v [a c n k] d [i rx w]].
  simpl in Hst, Hn. subst c.
  assert (Hlen : n - 1 = Z.of_nat (length rest)) by lia.
  assert (Hsmall : u32 (n - 1) = Z.of_nat (length rest)).
  { rewrite Hlen. apply Z.mod_small. simpl length in Hmax. lia. }
  cbn [map I2C.interrupts I2C.interrupt I2C.raise I2C.I2C0_IRQHandler
       I2C.IF_ACK I2C.IF_NACK I2C.IF_RXDATAV I2C.IF_MSTOP bind
       I2C.peripheral I2C.svc I2C.payload I2C.dest I2C.STATE_IDLE
       I2C.written].
  unfold I2C.I2C_RXDATAV.
  cbn [I2C.payload I2C.current_state I2C.set_bytes I2C.bytes I2C.svc
       I2C.dest I2C.peripheral I2C.device_address I2C.cmd].
  rewrite Hsmall.
  destruct rest as [|b' rest'].
  - eexists; repeat split; reflexivity.
  - assert (Hpos : (0 <? Z.of_nat (length (b' :: rest'))) = true)
      by (apply Z.ltb_lt; simpl length; lia).
    rewrite Hpos.
    cbn [bind I2C.set_dest I2C.reg I2C.svc I2C.payload I2C.dest
         I2C.peripheral I2C.RXDATA I2C.STATE_IDLE I2C.written].
    match goal with
    | |- exists s', I2C.interrupts _ ?s0 = _ /\ _ =>
        destruct (IH s0) as (s' & H1 & H2 & H3 & H4);
          [reflexivity | reflexivity | discriminate
          | simpl length in Hmax |- *; lia |]
    end.
    exists s'. repeat split; assumption.
Qed.

(** C3, as stated, fails for byte counts other than two.  With N = 3 and
    the device sending 0x12 0x34 0x56, the destination word ends as 0x3456:
    the second byte overwrote the first. *)
Lemma C3_three_bytes_lose_the_first :
  exists s0 s',
    I2C.I2C_Start (I2C.mk_init 64 3 243) i2c_at_reset = Ok s0 /\
    I2C.interrupts (I2C.transaction 1 [0x12; 0x34; 0x56]) s0 = Ok s' /\
    I2C.dest s' = 0x3456 /\
    I2C.dest s' <> 0x123456.
Proof.
  do 2 eexists.
  split; [vm_compute; reflexivity|].
  split; [vm_compute; reflexivity|].
  split; [vm_compute; reflexivity|].
  vm_compute. discriminate.
Qed.

(** C3, amended.  For an idle peripheral and a transaction started with
    byte count N >= 1: when the device acknowledges the address and the
    command, refuses the first read address, acknowledges the second and
    sends N bytes before the stop, the engine is back in [initialize],
    exactly one completion event has been posted and the block on EM2 taken
    by [I2C_Start] is released.  The destination word holds the bytes
    most-significant first for N = 2; for a larger N it holds the last two
    bytes only, and for N = 1 the byte or-ed into what the word held. *)
Theorem C3_read_transaction (s : I2C.state) (i2c_load : I2C.I2C_PAYLOAD_INIT)
  (data : list Z)
  (Hidle : I2C.STATE_IDLE (I2C.peripheral s) = true)
  (Htable : length (sleep (I2C.svc s)) = Sleep.MAX_ENERGY_MODES)
  (Hbytes : I2C.init_bytes i2c_load = Z.of_nat (length data))
  (Hone : (1 <= length data)%nat)
  (Hmax : Z.of_nat (length data) < 2 ^ 32) :
  exists s0 s',
    I2C.I2C_Start i2c_load s = Ok s0 /\
    I2C.interrupts (I2C.transaction 1 data) s0 = Ok s' /\
    I2C.current_state (I2C.payload s') = I2C.initialize /\
    posted_events (I2C.svc s')
      = posted_events (I2C.svc s) ++ [I2C.SI7021_READ_EVT] /\
    blocks I2C.I2C_EM_BLOCK (I2C.svc s0)
      = S (blocks I2C.I2C_EM_BLOCK (I2C.svc s)) /\
    sleep (I2C.svc s') = sleep (I2C.svc s) /\
    I2C.dest s' = I2C.rx_word (I2C.dest s) data /\
    (forall b0 b1, data = [b0; b1] -> 0 <= b0 < 256 ->
       I2C.dest s' = Z.lor (Z.shiftl b0 8) b1) /\
    (forall pre b0 b1, data = pre ++ [b0; b1] ->
       I2C.dest s' = Z.lor (u32 (Z.shiftl b0 8)) b1) /\
    (forall b, data = [b] -> I2C.dest s' = Z.lor (I2C.dest s) b).
Proof.
  destruct s as [[sc tb] [a c n k] d [i rx w]].
  destruct i2c_load as [addr nb cm].
  simpl in Hidle, Htable, Hbytes. subst i nb.
  do 5 (destruct tb as [|? tb]; [discriminate|]).
  destruct tb; [|discriminate].
  match goal with
  | |- exists s0 s', ?start = _ /\ _ =>
      pose proof (eq_refl start) as Hstart; run_in Hstart
  end.
  match type of Hstart with
  | _ = Ok ?s0 =>
      exists s0;
      pose proof (eq_refl (I2C.interrupts
                  [I2C.DevACK; I2C.DevACK; I2C.DevNACK; I2C.DevACK] s0))
        as Haddr; run_in Haddr
  end.
  match type of Haddr with
  | _ = Ok ?s1 =>
      destruct (i2c_receive_all data s1) as (s2 & H1 & H2 & H3 & H4);
        [reflexivity | reflexivity
        | destruct data; [simpl in Hone; lia | discriminate]
        | exact Hmax |]
  end.
  destruct s2 as [v2 [a2 c2 n2' k2] d2 [i2 rx2 w2]].
  cbn [I2C.payload I2C.current_state I2C.svc I2C.dest] in H2, H3, H4.
  subst c2 v2.
  pose proof (eq_refl (I2C.interrupts [I2C.DevSTOP]
              (I2C.mk_state
                 (mk_services sc [n0; n1; S n2; n3; n4])
                 (I2C.mk_payload a2 I2C.end_process n2' k2) d2
                 (I2C.mk_regs i2 rx2 w2)))) as Hstop.
  run_in Hstop.
  match type of Hstop with _ = Ok ?s3 => exists s3 end.
  split; [exact Hstart|].
  split.
  { unfold I2C.transaction. cbn [repeat].
    change ([I2C.DevACK; I2C.DevACK] ++ [I2C.DevNACK] ++ [I2C.DevACK] ++
            map I2C.DevByte data ++ [I2C.DevSTOP])
      with ([I2C.DevACK; I2C.DevACK; I2C.DevNACK; I2C.DevACK] ++
            (map I2C.DevByte data ++ [I2C.DevSTOP])).
    rewrite i2c_interrupts_app, Haddr. cbn [bind].
    rewrite i2c_interrupts_app, H1. cbn [bind].
    exact Hstop. }
  split; [reflexivity|].
  split; [reflexivity|].
  split; [reflexivity|].
  split; [reflexivity|].
  split; [exact H4|].
  split; [|split].
  - intros b0 b1 -> Hb. cbn [I2C.dest] in *. rewrite H4.
    cbn [I2C.rx_word]. unfold u32.
    rewrite Z.mod_small; [reflexivity|].
    rewrite Z.shiftl_mul_pow2 by lia.
    change (2 ^ 8) with 256. change (2 ^ 32) with 4294967296. lia.
  - intros pre b0 b1 ->. cbn [I2C.dest] in *. rewrite H4.
    apply rx_word_last_two.
  - intros b ->. cbn [I2C.dest] in *. rewrite H4. reflexivity.
Qed.

Lemma C3_read_transaction_witness :
  exists s0 s',
    I2C.I2C_Start (I2C.mk_init 64 2 243) i2c_at_reset = Ok s0 /\
    I2C.interrupts (I2C.transaction 1 [0x65; 0x4c]) s0 = Ok s' /\
    I2C.current_state (I2C.payload s') = I2C.initialize /\
    posted_events (I2C.svc s') = [I2C.SI7021_READ_EVT] /\
    I2C.dest s' = 0x654c.
Proof.
  destruct (C3_read_transaction i2c_at_reset (I2C.mk_init 64 2 243)
              [0x65; 0x4c] eq_refl eq_refl eq_refl)
    as (s0 & s' & H1 & H2 & H3 & H4 & _ & _ & _ & H8 & _);
    [simpl; lia | simpl; lia |].
  exists s0, s'.
  repeat split; [exact H1 | exact H2 | exact H3 | exact H4 |].
  rewrite (H8 0x65 0x4c eq_refl); [vm_compute; reflexivity | lia].
Defined.

(** ** The BLE circular buffer *)

Lemma firstn_as_nth (p : list Z) :
  forall (n k : nat), (n + k <= length p)%nat ->
    firstn k (skipn n p) = map (fun i => nth i p 0) (seq n k).
Proof.
  intros n k; revert n; induction k as [|k IH]; intros n Hn; [reflexivity|].
  cbn [seq map].
  rewrite <- IH by lia.
  assert (Hs : skipn n p = nth n p 0 :: skipn (S n) p).
  { clear IH. revert n Hn. induction p as [|c p IHp]; intros n Hn.
    - simpl in Hn; lia.
    - destruct n as [|n]; [reflexivity|].
      simpl. apply IHp. simpl in Hn. lia. }
  rewrite Hs. reflexivity.
Qed.

(** The chars of a C string, one by one. *)
Lemma string_as_nth (p : list Z) (n : nat) :
  strlen p = n ->
  firstn n p = map (fun i => nth i p 0) (seq 0 n).
Proof.
  intros Hn.
  rewrite <- (firstn_as_nth p 0 n); [reflexivity|].
  pose proof (strlen_le_length p). lia.
Qed.

(** A list of known length, cell by cell. *)
Ltac cells l H :=
  repeat (destruct l as [|? l]; [discriminate H|]);
  try (destruct l; [|discriminate H]).

(** C2, as stated, fails.  From the initialised queue, pushing the 50-char
    string and then the 25-char string of [circular_buff_test] halts on
    the assertion of the second push: after 51 cells are taken, 13 are
    left.  No pop has a third string to give back. *)
Lemma C2_three_pushes_do_not_fit :
  let test1 := map Z.of_nat (seq 1 50) in
  let test2 := map Z.of_nat (seq 20 25) in
  let test3 := map Z.of_nat (seq 35 5) in
  (strlen test1 = 50 /\ strlen test2 = 25 /\ strlen test3 = 5)%nat /\
  (m1 <- Ble.ble_circ_push test1 (Ble.ble_circ_init ble_at_reset) ;;
   m2 <- Ble.ble_circ_push test2 m1 ;;
   Ble.ble_circ_push test3 m2) = Fault.
Proof. intros test1 test2 test3. run. Qed.

(** C2, amended.  From the initialised 64-cell queue with the transmitter
    idle, for strings of 50, 25 and 5 chars: pushing the first and popping
    in test mode gives it back; pushing the second and the third and
    popping twice gives them back in that order; each of the three pops
    returns false, and a fourth returns true and leaves the queue as it
    is.  (This is the order of [circular_buff_test]; the three strings do
    not fit at once.) *)
Theorem C2_round_trip (h : app_h) (m : Ble.machine) (p1 p2 p3 : list Z)
  (line : list Leuart.line_event)
  (Hidle : Leuart.STATUS_TXIDLE (Leuart.LEUART0 (Ble.leuart m)) = true)
  (Hbuf : length (Ble.cbuf (Ble.ble_cbuf m)) = 64%nat)
  (Hres : length (Ble.result_str m) = 64%nat)
  (H1 : strlen p1 = 50%nat) (H2 : strlen p2 = 25%nat)
  (H3 : strlen p3 = 5%nat) :
  exists m1 m2 m3 m4 m5 m6,
    Ble.ble_circ_push p1 (Ble.ble_circ_init m) = Ok m1 /\
    Ble.ble_circ_pop h Ble.CIRC_TEST line m1 = Ble.Returned false m2 /\
    firstn 50 (Ble.result_str m2) = firstn 50 p1 /\
    Ble.ble_circ_push p2 m2 = Ok m3 /\
    Ble.ble_circ_push p3 m3 = Ok m4 /\
    Ble.ble_circ_pop h Ble.CIRC_TEST line m4 = Ble.Returned false m5 /\
    firstn 25 (Ble.result_str m5) = firstn 25 p2 /\
    Ble.ble_circ_pop h Ble.CIRC_TEST line m5 = Ble.Returned false m6 /\
    firstn 5 (Ble.result_str m6) = firstn 5 p3 /\
    Ble.ble_circ_pop h Ble.CIRC_TEST line m6 = Ble.Returned true m6 /\
    Ble.size (Ble.ble_cbuf m6) = Ble.CSIZE.
Proof.
  destruct m as [[v rx tx p r] [cb sm sz rp wp] res].
  destruct r as [f e rxd txd blk idl sfu stf sgf].
  cbn in Hidle, Hbuf, Hres. subst idl.
  cells cb Hbuf. cells res Hres.
  rewrite (string_as_nth p1 50 H1), (string_as_nth p2 25 H2),
    (string_as_nth p3 5 H3).
  unfold Ble.ble_circ_push.
  rewrite H1, H2, H3.
  do 6 eexists. run.
Qed.

Lemma C2_round_trip_witness :
  let test1 := map Z.of_nat (seq 1 50) in
  let test2 := map Z.of_nat (seq 20 25) in
  let test3 := map Z.of_nat (seq 35 5) in
  exists m2 m5 m6,
    firstn 50 (Ble.result_str m2) = test1 /\
    firstn 25 (Ble.result_str m5) = test2 /\
    firstn 5 (Ble.result_str m6) = test3 /\
    Ble.ble_circ_pop app_h_bits Ble.CIRC_TEST [] m6 = Ble.Returned true m6.
Proof.
  intros test1 test2 test3.
  destruct (C2_round_trip app_h_bits ble_at_reset test1 test2 test3 []
              eq_refl eq_refl eq_refl eq_refl eq_refl eq_refl)
    as (m1 & m2 & m3 & m4 & m5 & m6 & _ & _ & R1 & _ & _ & _ & R2 & _ & R3
        & R4 & _).
  exists m2, m5, m6.
  repeat apply conj; [exact R1 | exact R2 | exact R3 | exact R4].
Defined.

(** *** The capacity check of [ble_circ_push] *)

(** The push halts exactly when the string is longer than the counter. *)
Lemma push_halts_iff (string : list Z) (m : Ble.machine) :
  Ble.ble_circ_push string m = Fault <->
  Ble.size (Ble.ble_cbuf m) < Z.of_nat (strlen string).
Proof.
  unfold Ble.ble_circ_push.
  destruct (Ble.size (Ble.ble_cbuf m) <? Z.of_nat (strlen string)) eqn:E.
  - apply Z.ltb_lt in E. simpl. tauto.
  - apply Z.ltb_ge in E. simpl. split; [discriminate | lia].
Qed.

(** A push that fits takes its length and one cell off the counter. *)
Lemma push_size (string : list Z) (m m' : Ble.machine) :
  0 <= Ble.size (Ble.ble_cbuf m) <= Ble.CSIZE ->
  Z.of_nat (strlen string) + 1 <= Ble.size (Ble.ble_cbuf m) ->
  Ble.ble_circ_push string m = Ok m' ->
  Ble.size (Ble.ble_cbuf m')
    = Ble.size (Ble.ble_cbuf m) - (Z.of_nat (strlen string) + 1).
Proof.
  intros Hs Hfit. unfold Ble.ble_circ_push, Ble.CSIZE in *.
  destruct (Ble.size (Ble.ble_cbuf m) <? Z.of_nat (strlen string)) eqn:E;
    [discriminate|].
  cbn [bind]. intros H; injection H as <-.
  cbn [Ble.ble_cbuf Ble.set_ble_cbuf Ble.set_size Ble.size].
  assert (Hsz : forall n i str b,
             Ble.size (Ble.push_loop n i str b) = Ble.size b).
  { induction n as [|n IH]; intros i str b; [reflexivity|].
    cbn [Ble.push_loop]. rewrite IH. reflexivity. }
  unfold Ble.ble_circ_space. rewrite Hsz.
  cbn [Ble.size Ble.update_circ_wrtindex Ble.write_cell].
  unfold u8, u32.
  change (2 ^ 8) with 256. change (2 ^ 32) with 4294967296.
  rewrite (Z.mod_small (Ble.size (Ble.ble_cbuf m)) 256) by lia.
  apply Z.mod_small. lia.
Qed.

(** C4, evaluated where it fails.  On the initialised queue the counter is
    64; a string of 64 chars needs 65 cells, yet [ble_circ_push] accepts
    it: the last char lands on the cell of the length prefix, and the
    counter wraps to 2^32 - 1. *)
Theorem C4_push_one_cell_too_long_is_accepted :
  let string := repeat 65 64 in
  let m := Ble.ble_circ_init ble_at_reset in
  Z.of_nat (strlen string) + 1 > Ble.size (Ble.ble_cbuf m) /\
  exists m',
    Ble.ble_circ_push string m = Ok m' /\
    Ble.size (Ble.ble_cbuf m') = 4294967295 /\
    Ble.write_ptr (Ble.ble_cbuf m') = 1 /\
    nth 0 (Ble.cbuf (Ble.ble_cbuf m')) 0 = 65.
Proof.
  intros string m. split; [vm_compute; reflexivity|].
  eexists. run.
Qed.

(** C6, evaluated where it fails.  After a 50-char and a 13-char string
    are pushed, 51 + 14 = 65 cells of the 64 are claimed and the counter
    is 2^32 - 1; the last char of the second string has overwritten the
    length prefix of the first, so the pop that follows takes 113 chars
    for the length and leaves the counter at 369. *)
Theorem C6_counter_wraps :
  let first := map Z.of_nat (seq 1 50) in
  let second := map Z.of_nat (seq 101 13) in
  exists m1 m2 m3,
    Ble.ble_circ_push first (Ble.ble_circ_init ble_at_reset) = Ok m1 /\
    Ble.size (Ble.ble_cbuf m1) = Ble.CSIZE - 51 /\
    Ble.ble_circ_push second m1 = Ok m2 /\
    Ble.size (Ble.ble_cbuf m2) = 4294967295 /\
    Ble.size (Ble.ble_cbuf m2) <> Ble.CSIZE - (51 + 14) /\
    Ble.read_cell (Ble.ble_cbuf m2) = 113 /\
    Ble.ble_circ_pop app_h_bits Ble.CIRC_TEST [] m2 = Ble.Returned false m3 /\
    Ble.size (Ble.ble_cbuf m3) = 369.
Proof.
  intros first second. do 3 eexists.
  split; [vm_compute; reflexivity|].
  split; [vm_compute; reflexivity|].
  split; [vm_compute; reflexivity|].
  split; [vm_compute; reflexivity|].
  split; [vm_compute; discriminate|].
  split; [vm_compute; reflexivity|].
  split; [vm_compute; reflexivity|].
  vm_compute; reflexivity.
Qed.

(** *** The cursors *)

Lemma wrtindex_in_range (b : Ble.BLE_CIRCULAR_BUF) (k : Z) :
  0 <= Ble.read_ptr b < 64 ->
  Ble.cursors_in_range (Ble.update_circ_wrtindex b k).
Proof.
  intros Hr. split; [exact Hr|].
  cbn [Ble.update_circ_wrtindex Ble.write_ptr].
  apply Z.mod_pos_bound. lia.
Qed.

Lemma readindex_in_range (b : Ble.BLE_CIRCULAR_BUF) (k : Z) :
  0 <= Ble.write_ptr b < 64 ->
  Ble.cursors_in_range (Ble.update_circ_readindex b k).
Proof.
  intros Hw. split; [|exact Hw].
  cbn [Ble.update_circ_readindex Ble.read_ptr].
  apply Z.mod_pos_bound. lia.
Qed.

Lemma push_loop_in_range (n : nat) :
  forall (i : nat) (string : list Z) (b : Ble.BLE_CIRCULAR_BUF),
    Ble.cursors_in_range b ->
    Ble.cursors_in_range (Ble.push_loop n i string b).
Proof.
  induction n as [|n IH]; intros i string b Hb; [exact Hb|].
  cbn [Ble.push_loop]. apply IH.
  apply wrtindex_in_range. exact (proj1 Hb).
Qed.

Lemma pop_loop_in_range (n : nat) :
  forall b : Ble.BLE_CIRCULAR_BUF,
    Ble.cursors_in_range b ->
    Ble.cursors_in_range (snd (Ble.pop_loop n b)).
Proof.
  induction n as [|n IH]; intros b Hb; [exact Hb|].
  cbn [Ble.pop_loop].
  specialize (IH (Ble.update_circ_readindex b 1)
                (readindex_in_range b 1 (proj2 Hb))).
  destruct (Ble.pop_loop n (Ble.update_circ_readindex b 1)) as [rest b'].
  exact IH.
Qed.

Lemma push_in_range (string : list Z) (m m' : Ble.machine) :
  Ble.cursors_in_range (Ble.ble_cbuf m) ->
  Ble.ble_circ_push string m = Ok m' ->
  Ble.cursors_in_range (Ble.ble_cbuf m').
Proof.
  intros Hm. unfold Ble.ble_circ_push.
  destruct (Ble.size (Ble.ble_cbuf m) <? Z.of_nat (strlen string));
    [discriminate|].
  cbn [bind]. intros H; injection H as <-.
  cbn [Ble.ble_cbuf Ble.set_ble_cbuf].
  pose proof (push_loop_in_range (strlen string) 0 string
                (Ble.update_circ_wrtindex
                   (Ble.write_cell (u8 (Z.of_nat (strlen string)))
                      (Ble.ble_cbuf m)) 1)
                (wrtindex_in_range _ 1 (proj1 Hm))) as H.
  exact H.
Qed.

Lemma pop_in_range (h : app_h) (test : bool) (line : list Leuart.line_event)
  (m : Ble.machine) :
  Ble.cursors_in_range (Ble.ble_cbuf m) ->
  match Ble.ble_circ_pop h test line m with
  | Ble.Returned _ m' => Ble.cursors_in_range (Ble.ble_cbuf m')
  | Ble.Waiting m' => Ble.cursors_in_range (Ble.ble_cbuf m')
  | Ble.Halted => True
  end.
Proof.
  intros Hm. unfold Ble.ble_circ_pop.
  destruct (negb _); [exact Hm|].
  destruct (_ =? _); [exact Hm|].
  pose proof (pop_loop_in_range
                (Z.to_nat (Ble.read_cell (Ble.ble_cbuf m)))
                (Ble.update_circ_readindex (Ble.ble_cbuf m) 1)
                (readindex_in_range _ 1 (proj2 Hm))) as Hloop.
  destruct (Ble.pop_loop _ _) as [chars b]. cbn [snd] in Hloop.
  destruct test.
  - exact Hloop.
  - cbn [Ble.leuart Ble.set_ble_cbuf Ble.ble_cbuf Ble.result_str].
    destruct (bind _ _) as [l|]; [|exact I].
    destruct (Ble.wait_tx h line l) as [[l'|]|l']; try exact Hloop; exact I.
Qed.

Lemma push_loop_cells_in_range (n : nat) :
  forall b : Ble.BLE_CIRCULAR_BUF,
    Ble.cursors_in_range b ->
    Forall (fun i => 0 <= i < 64) (Ble.push_loop_cells n b).
Proof.
  induction n as [|n IH]; intros b Hb; cbn [Ble.push_loop_cells];
    constructor.
  - exact (proj2 Hb).
  - apply IH. apply wrtindex_in_range. exact (proj1 Hb).
Qed.

Lemma pop_loop_cells_in_range (n : nat) :
  forall b : Ble.BLE_CIRCULAR_BUF,
    Ble.cursors_in_range b ->
    Forall (fun i => 0 <= i < 64) (Ble.pop_loop_cells n b).
Proof.
  induction n as [|n IH]; intros b Hb; cbn [Ble.pop_loop_cells];
    constructor.
  - exact (proj1 Hb).
  - apply IH. apply readindex_in_range. exact (proj2 Hb).
Qed.

(** The cursors stay below 64, and so does the index of every cell of the
    ring that the next push or pop touches, in every state the queue gets
    to from [ble_circ_init] by pushes and by pops that copy inside their
    destinations: the code moves a cursor through
    [update_circ_wrtindex] and [update_circ_readindex] only. *)
Lemma cursors_stay_in_range (h : app_h) (m : Ble.machine)
  (Hm : Ble.reachable h m) :
  0 <= Ble.read_ptr (Ble.ble_cbuf m) < 64 /\
  0 <= Ble.write_ptr (Ble.ble_cbuf m) < 64 /\
  (forall string : list Z,
     Forall (fun i => 0 <= i < 64) (Ble.push_cells string (Ble.ble_cbuf m))) /\
  Forall (fun i => 0 <= i < 64) (Ble.pop_cells (Ble.ble_cbuf m)).
Proof.
  assert (Hr : Ble.cursors_in_range (Ble.ble_cbuf m)).
  { induction Hm as [m | string m m' _ IH Hpush
                    | test line busy m m' _ IH _ Hpop
                    | test line m m' _ IH _ Hpop].
    - cbn. unfold Ble.cursors_in_range. cbn. lia.
    - exact (push_in_range string m m' IH Hpush).
    - pose proof (pop_in_range h test line m IH) as H.
      rewrite Hpop in H. exact H.
    - pose proof (pop_in_range h test line m IH) as H.
      rewrite Hpop in H. exact H. }
  destruct Hr as [Hrd Hwr].
  split; [exact Hrd|]. split; [exact Hwr|]. split.
  - intros string. unfold Ble.push_cells. constructor; [exact Hwr|].
    apply push_loop_cells_in_range. apply wrtindex_in_range. exact Hrd.
  - unfold Ble.pop_cells. constructor; [exact Hrd|].
    apply pop_loop_cells_in_range. apply readindex_in_range. exact Hwr.
Qed.


(** ** The queue as a FIFO of packets *)

Lemma nth_upd_same {A : Type} (d v : A) (l : list A) :
  forall i : nat, (i < length l)%nat -> nth i (upd i v l) d = v.
Proof.
  induction l as [|x l IH]; intros [|i] Hi; simpl in *; try lia; auto.
  apply IH. lia.
Qed.

Lemma nth_upd_other {A : Type} (d v : A) (l : list A) :
  forall i j : nat, i <> j -> nth j (upd i v l) d = nth j l d.
Proof.
  induction l as [|x l IH]; intros [|i] [|j] Hij; simpl; auto; try lia.
Qed.

Lemma mod64_distinct (a i j : Z) :
  0 <= i < j -> j < i + 64 -> (a + i) mod 64 <> (a + j) mod 64.
Proof.
  intros Hi Hj Heq.
  assert (H : (a + j - (a + i)) mod 64 = 0).
  { rewrite Zminus_mod, Heq, Z.sub_diag. reflexivity. }
  replace (a + j - (a + i)) with (j - i) in H by lia.
  rewrite Z.mod_small in H by lia. lia.
Qed.

Lemma wrtindex_step (b : Ble.BLE_CIRCULAR_BUF) :
  0 <= Ble.write_ptr b < 64 ->
  Ble.write_ptr (Ble.update_circ_wrtindex b 1) = (Ble.write_ptr b + 1) mod 64.
Proof.
  intros H. cbn [Ble.update_circ_wrtindex Ble.write_ptr].
  unfold u32. rewrite (Z.mod_small (Ble.write_ptr b + 1)); [reflexivity|].
  change (2 ^ 32) with 4294967296. lia.
Qed.

Lemma readindex_step (b : Ble.BLE_CIRCULAR_BUF) :
  0 <= Ble.read_ptr b < 64 ->
  Ble.read_ptr (Ble.update_circ_readindex b 1) = (Ble.read_ptr b + 1) mod 64.
Proof.
  intros H. cbn [Ble.update_circ_readindex Ble.read_ptr].
  unfold u32. rewrite (Z.mod_small (Ble.read_ptr b + 1)); [reflexivity|].
  change (2 ^ 32) with 4294967296. lia.
Qed.

(** The loop of the push writes the chars of the string in order. *)
Lemma push_loop_write_all (n : nat) :
  forall (i : nat) (string : list Z) (b : Ble.BLE_CIRCULAR_BUF),
    (i + n <= length string)%nat ->
    Ble.push_loop n i string b
      = Ble.write_all (firstn n (skipn i string)) b.
Proof.
  induction n as [|n IH]; intros i string b Hn; [reflexivity|].
  cbn [Ble.push_loop].
  assert (Hs : skipn i string = nth i string 0 :: skipn (S i) string).
  { clear IH b. revert i Hn. induction string as [|c t IHt]; intros i Hn.
    - simpl in Hn; lia.
    - destruct i as [|i]; [reflexivity|].
      simpl. apply IHt. simpl in Hn. lia. }
  rewrite Hs. cbn [firstn Ble.write_all].
  apply IH. lia.
Qed.

(** What [write_all] leaves: the cells of the list from the old write
    cursor on, the other cells as they were, the cursor past the list. *)
Lemma write_all_spec (l : list Z) :
  forall b : Ble.BLE_CIRCULAR_BUF,
    (length l <= 64)%nat ->
    0 <= Ble.write_ptr b < 64 ->
    length (Ble.cbuf b) = 64%nat ->
    let b' := Ble.write_all l b in
    Ble.write_ptr b' = (Ble.write_ptr b + Z.of_nat (length l)) mod 64 /\
    Ble.read_ptr b' = Ble.read_ptr b /\
    Ble.size b' = Ble.size b /\
    length (Ble.cbuf b') = 64%nat /\
    (forall j, (j < length l)%nat ->
       nth (Z.to_nat ((Ble.write_ptr b + Z.of_nat j) mod 64)) (Ble.cbuf b') 0
         = nth j l 0) /\
    (forall k : Z,
       0 <= k < 64 ->
       (forall j, (j < length l)%nat ->
          k <> (Ble.write_ptr b + Z.of_nat j) mod 64) ->
       nth (Z.to_nat k) (Ble.cbuf b') 0 = nth (Z.to_nat k) (Ble.cbuf b) 0).
Proof.
  induction l as [|c l IH]; intros b Hl Hw Hlen; cbn zeta.
  - cbn [Ble.write_all length]. rewrite Z.add_0_r, Z.mod_small by lia.
    repeat apply conj; auto. intros j Hj. simpl in Hj. lia.
  - cbn [Ble.write_all].
    set (b1 := Ble.update_circ_wrtindex (Ble.write_cell c b) 1).
    assert (Hw1 : Ble.write_ptr b1 = (Ble.write_ptr b + 1) mod 64)
      by (exact (wrtindex_step (Ble.write_cell c b) Hw)).
    assert (Hw1r : 0 <= Ble.write_ptr b1 < 64)
      by (rewrite Hw1; apply Z.mod_pos_bound; lia).
    assert (Hc1 : Ble.cbuf b1
                  = upd (Z.to_nat (Ble.write_ptr b)) c (Ble.cbuf b))
      by reflexivity.
    assert (Hlen1 : length (Ble.cbuf b1) = 64%nat)
      by (rewrite Hc1, upd_length; exact Hlen).
    simpl length in Hl.
    destruct (IH b1 ltac:(lia) Hw1r Hlen1) as (I1 & I2 & I3 & I4 & I5 & I6).
    assert (Hpos : forall j : nat,
               (Ble.write_ptr b1 + Z.of_nat j) mod 64
               = (Ble.write_ptr b + Z.of_nat (S j)) mod 64).
    { intros j. rewrite Hw1, Z.add_mod_idemp_l by lia.
      f_equal. lia. }
    repeat apply conj.
    + rewrite I1, Hw1, Z.add_mod_idemp_l by lia.
      f_equal. simpl length. lia.
    + rewrite I2. reflexivity.
    + rewrite I3. reflexivity.
    + exact I4.
    + intros [|j] Hj.
      * cbn [nth]. rewrite Z.add_0_r, Z.mod_small by lia.
        rewrite I6.
        -- rewrite Hc1. apply nth_upd_same. lia.
        -- exact Hw.
        -- intros j Hj'. rewrite Hpos.
           replace (Ble.write_ptr b) with ((Ble.write_ptr b + 0) mod 64) at 1
             by (rewrite Z.add_0_r; apply Z.mod_small; lia).
           apply mod64_distinct; lia.
      * cbn [nth]. rewrite <- Hpos. apply I5. simpl in Hj. lia.
    + intros k Hk Hother.
      rewrite I6.
      * rewrite Hc1. apply nth_upd_other.
        specialize (Hother O ltac:(simpl; lia)).
        rewrite Z.add_0_r, Z.mod_small in Hother by lia.
        intros E. apply Hother. lia.
      * exact Hk.
      * intros j Hj. rewrite Hpos. apply Hother. simpl. lia.
Qed.

(** The loop of the pop reads the cells after the read cursor in order. *)
Lemma pop_loop_spec (n : nat) :
  forall b : Ble.BLE_CIRCULAR_BUF,
    0 <= Ble.read_ptr b < 64 ->
    Ble.pop_loop n b
      = (map (Ble.cell_after b) (seq 0 n), Ble.advanced n b).
Proof.
  induction n as [|n IH]; intros b Hr.
  - cbn [Ble.pop_loop seq map]. unfold Ble.advanced.
    rewrite Z.add_0_r, Z.mod_small by lia. destruct b; reflexivity.
  - cbn [Ble.pop_loop].
    assert (Hr1 : Ble.read_ptr (Ble.update_circ_readindex b 1)
                  = (Ble.read_ptr b + 1) mod 64)
      by (apply readindex_step; exact Hr).
    rewrite IH by (rewrite Hr1; apply Z.mod_pos_bound; lia).
    cbn [seq map]. rewrite <- seq_shift, map_map.
    f_equal.
    + f_equal.
      * unfold Ble.read_cell, Ble.cell_after.
        rewrite Z.add_0_r, Z.mod_small by lia. reflexivity.
      * apply map_ext. intros j. unfold Ble.cell_after.
        rewrite Hr1, Z.add_mod_idemp_l by lia.
        cbn [Ble.update_circ_readindex Ble.cbuf].
        do 3 f_equal. lia.
    + unfold Ble.advanced. rewrite Hr1, Z.add_mod_idemp_l by lia.
      cbn [Ble.update_circ_readindex Ble.cbuf Ble.size_mask Ble.size
           Ble.write_ptr].
      do 2 f_equal. lia.
Qed.

Lemma encode_app (q : list (list Z)) (p : list Z) :
  Ble.encode (q ++ [p])
    = Ble.encode q ++ u8 (Z.of_nat (length p)) :: p.
Proof.
  unfold Ble.encode. rewrite flat_map_app. cbn [flat_map].
  rewrite app_nil_r. reflexivity.
Qed.

Lemma store_length {A : Type} (vs : list A) :
  forall (i : nat) (a : list A), length (Leuart.store i vs a) = length a.
Proof.
  induction vs as [|v vs IH]; intros i a; cbn [Leuart.store]; [reflexivity|].
  rewrite IH, upd_length. reflexivity.
Qed.

Lemma store_nth {A : Type} (d : A) (vs : list A) :
  forall (i : nat) (a : list A) (k : nat),
    (i + length vs <= length a)%nat ->
    nth k (Leuart.store i vs a) d
      = if (i <=? k)%nat && (k <? i + length vs)%nat
        then nth (k - i) vs d else nth k a d.
Proof.
  induction vs as [|v vs IH]; intros i a k Hfit; cbn [Leuart.store length].
  - rewrite Nat.add_0_r.
    destruct (i <=? k)%nat eqn:E1, (k <? i)%nat eqn:E2; try reflexivity.
    apply Nat.leb_le in E1. apply Nat.ltb_lt in E2. lia.
  - simpl length in Hfit.
    rewrite IH by (rewrite upd_length; lia).
    destruct (Nat.eq_dec k i) as [->|Hne].
    + replace (S i <=? i)%nat with false by (symmetry; apply Nat.leb_gt; lia).
      cbn [andb]. rewrite nth_upd_same by lia.
      replace (i <=? i)%nat with true by (symmetry; apply Nat.leb_le; lia).
      replace (i <? i + S (length vs))%nat with true
        by (symmetry; apply Nat.ltb_lt; lia).
      rewrite Nat.sub_diag. reflexivity.
    + rewrite nth_upd_other by lia.
      destruct (S i <=? k)%nat eqn:E1.
      * apply Nat.leb_le in E1.
        replace (i <=? k)%nat with true by (symmetry; apply Nat.leb_le; lia).
        replace (k <? i + S (length vs))%nat with (k <? S i + length vs)%nat
          by (f_equal; lia).
        cbn [andb]. destruct (k <? S i + length vs)%nat; [|reflexivity].
        replace (k - i)%nat with (S (k - S i)) by lia. reflexivity.
      * apply Nat.leb_gt in E1.
        replace (i <=? k)%nat with false by (symmetry; apply Nat.leb_gt; lia).
        reflexivity.
Qed.

Lemma store_firstn (vs a : list Z) :
  (length vs <= length a)%nat ->
  firstn (length vs) (Leuart.store 0 vs a) = vs.
Proof.
  intros Hfit.
  apply (nth_ext _ _ 0 0).
  - rewrite length_firstn, store_length. lia.
  - intros k Hk. rewrite length_firstn, store_length in Hk.
    rewrite nth_firstn.
    replace (k <? length vs)%nat with true by (symmetry; apply Nat.ltb_lt; lia).
    rewrite store_nth by (simpl; lia).
    replace (0 <=? k)%nat with true by reflexivity.
    replace (k <? 0 + length vs)%nat with true
      by (symmetry; apply Nat.ltb_lt; lia).
    cbn [andb]. rewrite Nat.sub_0_r. reflexivity.
Qed.

(** A push that fits with its prefix appends the packet to the queue. *)
Lemma push_represents (p : list Z) (q : list (list Z)) (m : Ble.machine) :
  Ble.represents (Ble.ble_cbuf m) q ->
  Ble.packet p ->
  Z.of_nat (length (Ble.encode q)) + Z.of_nat (length p) + 1 <= Ble.CSIZE ->
  exists m',
    Ble.ble_circ_push p m = Ok m' /\
    Ble.represents (Ble.ble_cbuf m') (q ++ [p]) /\
    Ble.leuart m' = Ble.leuart m /\
    Ble.result_str m' = Ble.result_str m.
Proof.
  intros (Hlen & Hr & Hcap & Hsize & Hw & Hcells) Hp Hfit.
  unfold Ble.CSIZE in *.
  unfold Ble.ble_circ_push. rewrite Hp.
  assert (Hchk : (Ble.size (Ble.ble_cbuf m) <? Z.of_nat (length p)) = false)
    by (apply Z.ltb_ge; lia).
  rewrite Hchk. cbn [bind].
  rewrite push_loop_write_all by lia.
  cbn [skipn]. rewrite firstn_all.
  set (l := u8 (Z.of_nat (length p)) :: p).
  change (Ble.write_all p
            (Ble.update_circ_wrtindex
               (Ble.write_cell (u8 (Z.of_nat (length p))) (Ble.ble_cbuf m)) 1))
    with (Ble.write_all l (Ble.ble_cbuf m)).
  assert (Hl : length l = S (length p)) by reflexivity.
  assert (Hwr : 0 <= Ble.write_ptr (Ble.ble_cbuf m) < 64)
    by (rewrite Hw; apply Z.mod_pos_bound; lia).
  destruct (write_all_spec l (Ble.ble_cbuf m) ltac:(lia) Hwr Hlen)
    as (W1 & W2 & W3 & W4 & W5 & W6).
  eexists. split; [reflexivity|].
  split; [|split; reflexivity].
  cbn [Ble.ble_cbuf Ble.set_ble_cbuf].
  assert (Henc : length (Ble.encode (q ++ [p]))
                 = (length (Ble.encode q) + S (length p))%nat).
  { rewrite encode_app, length_app. reflexivity. }
  unfold Ble.represents, Ble.cell_after, Ble.CSIZE.
  cbn [Ble.set_size Ble.cbuf Ble.read_ptr Ble.size Ble.write_ptr].
  rewrite Henc, W2.
  repeat apply conj.
  - exact W4.
  - lia.
  - lia.
  - lia.
  - unfold Ble.ble_circ_space. rewrite W3, Hsize.
    unfold u8, u32. change (2 ^ 8) with 256.
    change (2 ^ 32) with 4294967296.
    rewrite (Z.mod_small (64 - _) 256) by lia.
    rewrite Z.mod_small by lia. lia.
  - rewrite W1, Hw, Z.add_mod_idemp_l, Hl by lia. f_equal. lia.
  - intros i Hi. rewrite encode_app.
    destruct (Nat.lt_ge_cases i (length (Ble.encode q))) as [Hlt | Hge].
    + rewrite app_nth1 by exact Hlt.
      rewrite W6.
      * apply Hcells. exact Hlt.
      * apply Z.mod_pos_bound. lia.
      * intros j Hj. rewrite Hw, Z.add_mod_idemp_l by lia.
        rewrite <- Z.add_assoc. apply mod64_distinct; lia.
    + rewrite app_nth2 by exact Hge.
      change (u8 (Z.of_nat (length p)) :: p) with l.
      rewrite <- (W5 (i - length (Ble.encode q))%nat) by lia.
      rewrite Hw, Z.add_mod_idemp_l by lia.
      do 3 f_equal. lia.
Qed.

(** A pop in test mode takes the oldest packet off the queue and leaves
    it in [result_str]. *)
Lemma pop_represents (h : app_h) (line : list Leuart.line_event)
  (p : list Z) (q : list (list Z)) (m : Ble.machine) :
  Ble.represents (Ble.ble_cbuf m) (p :: q) ->
  Leuart.STATUS_TXIDLE (Leuart.LEUART0 (Ble.leuart m)) = true ->
  length (Ble.result_str m) = 64%nat ->
  exists m',
    Ble.ble_circ_pop h Ble.CIRC_TEST line m = Ble.Returned false m' /\
    Ble.represents (Ble.ble_cbuf m') q /\
    Z.to_nat (Ble.read_cell (Ble.ble_cbuf m)) = length p /\
    firstn (length p) (Ble.result_str m') = p /\
    Ble.leuart m' = Ble.leuart m /\
    length (Ble.result_str m') = 64%nat.
Proof.
  intros (Hlen & Hr & Hcap & Hsize & Hw & Hcells) Hidle Hres.
  unfold Ble.CSIZE in *.
  assert (Henc : length (Ble.encode (p :: q))
                 = S (length p + length (Ble.encode q))).
  { unfold Ble.encode. cbn [flat_map]. cbn [app length].
    rewrite length_app. reflexivity. }
  rewrite Henc in *.
  assert (Hhead : Ble.read_cell (Ble.ble_cbuf m) = Z.of_nat (length p)).
  { pose proof (Hcells O ltac:(lia)) as H0.
    unfold Ble.cell_after in H0.
    rewrite Z.add_0_r, Z.mod_small in H0 by lia.
    unfold Ble.read_cell. rewrite H0.
    unfold Ble.encode. cbn [flat_map app nth].
    unfold u8. change (2 ^ 8) with 256. apply Z.mod_small. lia. }
  unfold Ble.ble_circ_pop, Ble.CIRC_TEST. rewrite Hidle. cbn [negb].
  assert (Hne : (Ble.size (Ble.ble_cbuf m) =? Ble.CSIZE) = false)
    by (apply Z.eqb_neq; unfold Ble.CSIZE; lia).
  rewrite Hne, Hhead, Nat2Z.id.
  assert (Hr1 : Ble.read_ptr (Ble.update_circ_readindex (Ble.ble_cbuf m) 1)
                = (Ble.read_ptr (Ble.ble_cbuf m) + 1) mod 64)
    by (apply readindex_step; exact Hr).
  rewrite pop_loop_spec by (rewrite Hr1; apply Z.mod_pos_bound; lia).
  assert (Hchars : map (Ble.cell_after
                          (Ble.update_circ_readindex (Ble.ble_cbuf m) 1))
                     (seq 0 (length p)) = p).
  { apply (nth_ext _ _ 0 0).
    - rewrite length_map, length_seq. reflexivity.
    - intros k Hk. rewrite length_map, length_seq in Hk.
      rewrite (nth_indep _ 0 (Ble.cell_after
                 (Ble.update_circ_readindex (Ble.ble_cbuf m) 1) 0))
        by (rewrite length_map, length_seq; exact Hk).
      rewrite map_nth, seq_nth by exact Hk.
      pose proof (Hcells (S k) ltac:(lia)) as Hc.
      unfold Ble.cell_after in *.
      rewrite Hr1, Z.add_mod_idemp_l by lia.
      cbn [Ble.update_circ_readindex Ble.cbuf].
      replace (Ble.read_ptr (Ble.ble_cbuf m) + 1 + Z.of_nat (0 + k))
        with (Ble.read_ptr (Ble.ble_cbuf m) + Z.of_nat (S k)) by lia.
      rewrite Hc. unfold Ble.encode. cbn [flat_map app nth].
      apply app_nth1. exact Hk. }
  rewrite Hchars.
  rewrite firstn_app, firstn_all, Nat.sub_diag. cbn [firstn].
  rewrite app_nil_r.
  eexists. split; [reflexivity|].
  cbn [Ble.ble_cbuf Ble.set_ble_cbuf Ble.result_str Ble.leuart].
  split; [|split; [reflexivity|split; [|split; [reflexivity|]]]].
  - unfold Ble.represents, Ble.cell_after, Ble.advanced, Ble.ble_circ_space,
      Ble.CSIZE.
    cbn [Ble.set_size Ble.cbuf Ble.read_ptr Ble.size Ble.write_ptr
         Ble.update_circ_readindex Ble.size_mask].
    rewrite Hsize.
    assert (Hrp : (u32 (Ble.read_ptr (Ble.ble_cbuf m) + 1) mod 64
                   + Z.of_nat (length p)) mod 64
                  = (Ble.read_ptr (Ble.ble_cbuf m)
                     + Z.of_nat (S (length p))) mod 64).
    { change (u32 (Ble.read_ptr (Ble.ble_cbuf m) + 1) mod 64)
        with (Ble.read_ptr (Ble.update_circ_readindex (Ble.ble_cbuf m) 1)).
      rewrite Hr1, Z.add_mod_idemp_l by lia. f_equal. lia. }
    rewrite Hrp.
    repeat apply conj.
    + exact Hlen.
    + apply Z.mod_pos_bound. lia.
    + apply Z.mod_pos_bound. lia.
    + lia.
    + unfold u8, u32. change (2 ^ 8) with 256.
      change (2 ^ 32) with 4294967296.
      rewrite (Z.mod_small (64 - _) 256) by lia.
      rewrite Z.mod_small by lia. lia.
    + rewrite Hw, Z.add_mod_idemp_l by lia. f_equal. lia.
    + intros i Hi.
      pose proof (Hcells (S (length p) + i)%nat ltac:(lia)) as Hc.
      unfold Ble.cell_after in Hc.
      rewrite Z.add_mod_idemp_l by lia.
      replace (Ble.read_ptr (Ble.ble_cbuf m) + Z.of_nat (S (length p))
               + Z.of_nat i)
        with (Ble.read_ptr (Ble.ble_cbuf m)
              + Z.of_nat (S (length p) + i)) by lia.
      rewrite Hc. unfold Ble.encode at 1. cbn [flat_map].
      change ((u8 (Z.of_nat (length p)) :: p) ++ ?x)
        with (u8 (Z.of_nat (length p)) :: (p ++ x)).
      cbn [Nat.add nth].
      rewrite app_nth2 by lia.
      f_equal. lia.
  - apply store_firstn. lia.
  - rewrite store_length. exact Hres.
Qed.

Lemma init_represents (m : Ble.machine) :
  length (Ble.cbuf (Ble.ble_cbuf m)) = 64%nat ->
  Ble.represents (Ble.ble_cbuf (Ble.ble_circ_init m)) [].
Proof.
  intros Hlen. unfold Ble.represents, Ble.CSIZE.
  cbn [Ble.ble_circ_init Ble.ble_cbuf Ble.set_ble_cbuf Ble.cbuf Ble.read_ptr
       Ble.size Ble.write_ptr Ble.encode flat_map length].
  repeat apply conj; try lia; try reflexivity; try exact Hlen.
  all: intros i Hi; inversion Hi.
Qed.

Lemma pop_empty (h : app_h) (test : bool) (line : list Leuart.line_event)
  (m : Ble.machine) :
  Ble.represents (Ble.ble_cbuf m) [] ->
  Ble.ble_circ_pop h test line m = Ble.Returned true m.
Proof.
  intros (_ & _ & _ & Hsize & _). unfold Ble.ble_circ_pop.
  destruct (negb _); [reflexivity|].
  rewrite Hsize. reflexivity.
Qed.

(** The queue in test mode refines the bounded FIFO: whatever sequence of
    pushes and pops the FIFO accepts, the code goes through without
    halting, every pop gives what the FIFO gives, and the ring holds the
    FIFO's packets at the end, its counter at 64 less their cells. *)
Theorem queue_refines_fifo (h : app_h) (ops : list Ble.op) :
  forall (q : list (list Z)) (m : Ble.machine)
    (outs : list (option (list Z))) (q' : list (list Z)),
    Ble.represents (Ble.ble_cbuf m) q ->
    Leuart.STATUS_TXIDLE (Leuart.LEUART0 (Ble.leuart m)) = true ->
    length (Ble.result_str m) = 64%nat ->
    Forall Ble.pushes_packets ops ->
    Ble.fifo ops q = Some (outs, q') ->
    exists m',
      Ble.run h ops m = Ok (outs, m') /\
      Ble.represents (Ble.ble_cbuf m') q'.
Proof.
  induction ops as [|o rest IH]; intros q m outs q' Hq Hidle Hres Hops Hf.
  - cbn in Hf. injection Hf as <- <-. exists m. split; [reflexivity|exact Hq].
  - inversion Hops as [|? ? Ho Hrest]; subst.
    destruct o as [p|]; cbn [Ble.fifo Ble.run] in *.
    + destruct (_ <=? _) eqn:Efit; [|discriminate].
      apply Z.leb_le in Efit.
      destruct (push_represents p q m Hq Ho Efit) as (m1 & E1 & R1 & L1 & S1).
      rewrite E1. cbn [bind].
      apply (IH (q ++ [p]) m1 outs q' R1); try assumption.
      * rewrite L1. exact Hidle.
      * rewrite S1. exact Hres.
    + destruct q as [|p q0].
      * destruct (Ble.fifo rest []) as [[outs0 q0']|] eqn:E0; [|discriminate].
        injection Hf as <- <-.
        rewrite (pop_empty h Ble.CIRC_TEST [] m Hq).
        destruct (IH [] m outs0 q0' Hq Hidle Hres Hrest E0) as (m' & E' & R').
        rewrite E'. cbn [bind fst snd]. exists m'. split; [reflexivity|exact R'].
      * destruct (Ble.fifo rest q0) as [[outs0 q0']|] eqn:E0; [|discriminate].
        injection Hf as <- <-.
        destruct (pop_represents h [] p q0 m Hq Hidle Hres)
          as (m1 & E1 & R1 & Hhd & Hout & L1 & S1).
        rewrite E1, Hhd, Hout.
        destruct (IH q0 m1 outs0 q0' R1) as (m' & E' & R'); try assumption.
        -- rewrite L1. exact Hidle.
        -- rewrite E'. cbn [bind fst snd]. exists m'.
           split; [reflexivity|exact R'].
Qed.
(** ** Blocks on the energy modes *)

Lemma services_block (EM : nat) (v v' : services) :
  sleep_block_mode EM v = Ok v' ->
  Sleep.sleep_block_mode EM (sleep v) = Ok (sleep v') /\ sched v' = sched v.
Proof.
  unfold sleep_block_mode. cbn [Sleep.sleep_block_mode bind].
  intros H; injection H as <-. split; reflexivity.
Qed.

Lemma services_unblock (EM : nat) (v v' : services) :
  sleep_unblock_mode EM v = Ok v' ->
  Sleep.sleep_unblock_mode EM (sleep v) = Ok (sleep v') /\ sched v' = sched v.
Proof.
  unfold sleep_unblock_mode.
  destruct (Sleep.sleep_unblock_mode EM (sleep v)) as [t|]; cbn [bind];
    [|discriminate].
  intros H; injection H as <-. split; reflexivity.
Qed.

(** C7, as stated, fails for the receiver.  [leuart_open] blocks EM3 for
    the receiver; after a whole frame, with the rx-done event posted by the
    stop-marker handler, the count of EM3 is still 1. *)
Lemma C7_receiver_block_is_kept :
  exists m m',
    Leuart.leuart_open app_h_bits leuart_at_reset = Ok m /\
    blocks Leuart.LEUART_EM (Leuart.svc leuart_at_reset) = 0%nat /\
    blocks Leuart.LEUART_EM (Leuart.svc m) = 1%nat /\
    Leuart.interrupts app_h_bits (map Leuart.RxFrame [35; 70; 63]) m = Ok m' /\
    posted_events (Leuart.svc m') = [LEUART_RX_EVT app_h_bits] /\
    blocks Leuart.LEUART_EM (Leuart.svc m') = 1%nat.
Proof. do 2 eexists. run. Qed.

(** C7, amended.  Starting a bus transaction blocks EM2 and the bus-stop
    handler unblocks EM2; starting a link transmission blocks EM3 and the
    transmission-complete handler unblocks EM3; no other handler of the
    two drivers touches the table.  Opening the link receiver blocks EM3,
    and no handler of the receiver, the stop-marker handler included,
    releases it. *)
Theorem C7_blocks_of_the_drivers (h : app_h) :
  (forall i2c_load s s',
     I2C.I2C_Start i2c_load s = Ok s' ->
     Sleep.sleep_block_mode Sleep.EM2 (sleep (I2C.svc s))
       = Ok (sleep (I2C.svc s'))) /\
  (forall s s',
     I2C.I2C_MSTOP s = Ok s' ->
     Sleep.sleep_unblock_mode Sleep.EM2 (sleep (I2C.svc s))
       = Ok (sleep (I2C.svc s'))) /\
  (forall s s',
     I2C.I2C_ACK s = Ok s' \/ I2C.I2C_NACK s = Ok s' \/
     I2C.I2C_RXDATAV s = Ok s' ->
     sleep (I2C.svc s') = sleep (I2C.svc s)) /\
  (forall string string_len m m',
     Leuart.leuart_start string string_len m = Ok m' ->
     Sleep.sleep_block_mode Sleep.EM3 (sleep (Leuart.svc m))
       = Ok (sleep (Leuart.svc m'))) /\
  (forall m m',
     Leuart.TXC_Interrupt m = Ok m' ->
     Sleep.sleep_unblock_mode Sleep.EM3 (sleep (Leuart.svc m))
       = Ok (sleep (Leuart.svc m'))) /\
  (forall m m',
     Leuart.TXBL_Interrupt m = Ok m' ->
     sleep (Leuart.svc m') = sleep (Leuart.svc m)) /\
  (forall m m',
     Leuart.leuart_open h m = Ok m' ->
     Sleep.sleep_block_mode Sleep.EM3 (sleep (Leuart.svc m))
       = Ok (sleep (Leuart.svc m'))) /\
  (forall m m',
     Leuart.STARTF_Interrupt m = Ok m' \/ Leuart.RXDATAV_Interrupt m = Ok m' \/
     Leuart.SIGF_Interrupt h m = Ok m' ->
     sleep (Leuart.svc m') = sleep (Leuart.svc m)).
Proof.
  repeat apply conj.
  - intros i2c_load s s'. unfold I2C.I2C_Start.
    destruct (I2C.STATE_IDLE (I2C.peripheral s)); cbn [EFM_ASSERT bind];
      [|discriminate].
    destruct (sleep_block_mode I2C.I2C_EM_BLOCK (I2C.svc s)) as [v|] eqn:E;
      cbn [bind]; [|discriminate].
    intros H; injection H as <-.
    exact (proj1 (services_block _ _ _ E)).
  - intros s s'. unfold I2C.I2C_MSTOP.
    destruct (I2C.current_state (I2C.payload s)); try discriminate.
    cbn [I2C.svc I2C.set_svc].
    destruct (sleep_unblock_mode _ _) as [v|] eqn:E; cbn [bind];
      [|discriminate].
    intros H; injection H as <-.
    exact (proj1 (services_unblock _ _ _ E)).
  - intros s s' [H | [H | H]]; revert H;
      unfold I2C.I2C_ACK, I2C.I2C_NACK, I2C.I2C_RXDATAV;
      destruct (I2C.current_state (I2C.payload s)); try discriminate;
      try (intros H; injection H as <-; reflexivity).
    cbn [I2C.set_bytes I2C.payload I2C.bytes].
    destruct (0 <? _); intros H; injection H as <-; reflexivity.
  - intros string string_len m m'. unfold Leuart.leuart_start.
    destruct (sleep_block_mode Leuart.LEUART_EM (Leuart.svc m)) as [v|] eqn:E;
      cbn [bind]; [|discriminate].
    intros H; injection H as <-.
    exact (proj1 (services_block _ _ _ E)).
  - intros m m'. unfold Leuart.TXC_Interrupt.
    destruct (Leuart.state (Leuart.lePayload m)); try discriminate.
    destruct (sleep_unblock_mode Leuart.LEUART_EM (Leuart.svc m)) as [v|] eqn:E;
      cbn [bind]; [|discriminate].
    intros H; injection H as <-.
    exact (proj1 (services_unblock _ _ _ E)).
  - intros m m'. unfold Leuart.TXBL_Interrupt.
    destruct (Leuart.state (Leuart.lePayload m)); try discriminate.
    destruct (0 <? Leuart.count (Leuart.lePayload m));
      match goal with
      | |- (if ?c then _ else _) = _ -> _ => destruct c
      end; intros H; injection H as <-; reflexivity.
  - intros m m'. unfold Leuart.leuart_open.
    destruct (sleep_block_mode Leuart.LEUART_EM (Leuart.svc m)) as [v|] eqn:E;
      cbn [bind]; [|discriminate].
    intros H; injection H as <-.
    exact (proj1 (services_block _ _ _ E)).
  - intros m m' [H | [H | H]]; revert H;
      unfold Leuart.STARTF_Interrupt, Leuart.RXDATAV_Interrupt,
        Leuart.SIGF_Interrupt;
      destruct (Leuart.rx_state (Leuart.lePayload m)); try discriminate;
      try (intros H; injection H as <-; reflexivity).
    destruct (negb (Leuart.rxbusy (Leuart.lePayload m))); cbn [bind];
      [|discriminate].
    intros H; injection H as <-; reflexivity.
Qed.

Lemma C7_blocks_of_the_drivers_witness :
  exists m m' m'',
    Leuart.leuart_open app_h_bits leuart_at_reset = Ok m /\
    Leuart.interrupts app_h_bits [Leuart.RxFrame 35; Leuart.RxFrame 70] m
      = Ok m' /\
    Leuart.SIGF_Interrupt app_h_bits m' = Ok m'' /\
    sleep (Leuart.svc m'') = sleep (Leuart.svc m') /\
    blocks Leuart.LEUART_EM (Leuart.svc m'') = 1%nat.
Proof.
  destruct (Leuart.leuart_open app_h_bits leuart_at_reset) as [m|] eqn:H0;
    [|vm_compute in H0; discriminate].
  destruct (Leuart.interrupts app_h_bits
              [Leuart.RxFrame 35; Leuart.RxFrame 70] m) as [m'|] eqn:H1;
    [|vm_compute in H0; injection H0 as <-; vm_compute in H1; discriminate].
  destruct (Leuart.SIGF_Interrupt app_h_bits m') as [m''|] eqn:H2;
    [|vm_compute in H0; injection H0 as <-; vm_compute in H1;
      injection H1 as <-; vm_compute in H2; discriminate].
  exists m, m', m''.
  repeat apply conj; try reflexivity; try assumption.
  - destruct (C7_blocks_of_the_drivers app_h_bits)
      as (_ & _ & _ & _ & _ & _ & _ & Hrx).
    exact (Hrx m' m'' (or_intror (or_intror H2))).
  - vm_compute in H0; injection H0 as <-. vm_compute in H1.
    injection H1 as <-. vm_compute in H2. injection H2 as <-.
    vm_compute. reflexivity.
Defined.

(** ** The wait of [ble_circ_pop] *)

Lemma TXBL_same_tx (m m' : Leuart.machine) :
  Leuart.TXBL_Interrupt m = Ok m' -> same_tx m m'.
Proof.
  unfold Leuart.TXBL_Interrupt, same_tx, Leuart.leuart_tx_busy.
  destruct (Leuart.state (Leuart.lePayload m)); try discriminate.
  destruct (0 <? Leuart.count (Leuart.lePayload m));
    match goal with
    | |- (if ?c then _ else _) = _ -> _ => destruct c
    end; intros H; injection H as <-; split; reflexivity.
Qed.

Lemma STARTF_same_tx (m m' : Leuart.machine) :
  Leuart.STARTF_Interrupt m = Ok m' -> same_tx m m'.
Proof.
  unfold Leuart.STARTF_Interrupt, same_tx, Leuart.leuart_tx_busy.
  destruct (Leuart.rx_state (Leuart.lePayload m)); try discriminate.
  destruct (negb (Leuart.rxbusy (Leuart.lePayload m))); cbn [bind];
    [|discriminate].
  intros H; injection H as <-; split; reflexivity.
Qed.

Lemma RXDATAV_same_tx (m m' : Leuart.machine) :
  Leuart.RXDATAV_Interrupt m = Ok m' -> same_tx m m'.
Proof.
  unfold Leuart.RXDATAV_Interrupt, same_tx, Leuart.leuart_tx_busy.
  destruct (Leuart.rx_state (Leuart.lePayload m)); try discriminate;
    intros H; injection H as <-; split; reflexivity.
Qed.

Lemma SIGF_same_tx (h : app_h) (m m' : Leuart.machine) :
  Leuart.SIGF_Interrupt h m = Ok m' -> same_tx m m'.
Proof.
  unfold Leuart.SIGF_Interrupt, same_tx, Leuart.leuart_tx_busy.
  destruct (Leuart.rx_state (Leuart.lePayload m)); try discriminate;
    intros H; injection H as <-; split; reflexivity.
Qed.

Lemma same_tx_transmitting (m m' : Leuart.machine) :
  same_tx m m' -> transmitting m -> transmitting m'.
Proof.
  unfold same_tx, transmitting. intros [-> ->] H. exact H.
Qed.

Lemma guarded_transmitting (c : bool)
  (f : Leuart.machine -> result Leuart.machine) (m m' : Leuart.machine) :
  (forall a b, f a = Ok b -> same_tx a b) ->
  transmitting m ->
  (if c then f m else Ok m) = Ok m' ->
  transmitting m'.
Proof.
  intros Hf Hm. destruct c; intros H.
  - exact (same_tx_transmitting _ _ (Hf _ _ H) Hm).
  - injection H as <-. exact Hm.
Qed.

Lemma IRQHandler_transmitting (h : app_h) (m m' : Leuart.machine) :
  transmitting m ->
  Leuart.LEUART0_IRQHandler h m = Ok m' ->
  transmitting m'.
Proof.
  intros [Hb Hc]. unfold Leuart.LEUART0_IRQHandler.
  set (m0 := Leuart.set_LEUART0 _ m).
  assert (H0 : transmitting m0).
  { split; [exact Hb|].
    subst m0. cbn. rewrite Hc. reflexivity. }
  assert (Hf : Leuart.TXC (Leuart.enabled_flags (Leuart.LEUART0 m)) = false).
  { cbn. rewrite Hc. reflexivity. }
  rewrite Hf. clearbody m0. clear Hb Hc Hf.
  destruct (if Leuart.TXBL _ then _ else _) as [m1|] eqn:E1; cbn [bind];
    [|discriminate].
  apply (guarded_transmitting _ _ _ _ TXBL_same_tx H0) in E1.
  destruct (if Leuart.STARTF _ then _ else _) as [m2|] eqn:E2; cbn [bind];
    [|discriminate].
  apply (guarded_transmitting _ _ _ _ STARTF_same_tx E1) in E2.
  destruct (if Leuart.RXDATAV _ then _ else _) as [m3|] eqn:E3; cbn [bind];
    [|discriminate].
  apply (guarded_transmitting _ _ _ _ RXDATAV_same_tx E2) in E3.
  exact (guarded_transmitting _ _ _ _ (SIGF_same_tx h) E3).
Qed.

Lemma service_transmitting (h : app_h) (fuel : nat) :
  forall m m' : Leuart.machine,
    transmitting m ->
    Leuart.service h fuel m = Ok m' ->
    transmitting m'.
Proof.
  induction fuel as [|fuel IH]; intros m m' Hm; cbn [Leuart.service].
  - intros H; injection H as <-. exact Hm.
  - destruct (Leuart.irq_pending m).
    + destruct (Leuart.LEUART0_IRQHandler h m) as [m1|] eqn:E; cbn [bind];
        [|discriminate].
      apply IH. exact (IRQHandler_transmitting h m m1 Hm E).
    + intros H; injection H as <-. exact Hm.
Qed.

Lemma interrupt_transmitting (h : app_h) (ev : Leuart.line_event)
  (m m' : Leuart.machine) :
  ev <> Leuart.TxComplete ->
  transmitting m ->
  Leuart.interrupt h ev m = Ok m' ->
  transmitting m'.
Proof.
  intros Hev [Hb Hc]. unfold Leuart.interrupt.
  apply service_transmitting.
  split; [exact Hb|].
  cbn [Leuart.LEUART0 Leuart.set_LEUART0].
  destruct ev as [b| | |]; cbn [Leuart.line]; try exact Hc; try congruence.
  destruct (_ && _); [exact Hc|]. cbn. exact Hc.
Qed.

(** With no transmission-complete event on the line, the loop on the busy
    flag is not left. *)
Lemma wait_tx_not_left (h : app_h) (line : list Leuart.line_event) :
  forall l l' : Leuart.machine,
    transmitting l ->
    Forall (fun ev => ev <> Leuart.TxComplete) line ->
    Ble.wait_tx h line l <> inl (Ok l').
Proof.
  induction line as [|ev rest IH]; intros l l' Hl Hline;
    cbn [Ble.wait_tx]; rewrite (proj1 Hl).
  - discriminate.
  - inversion Hline as [|? ? Hev Hrest]; subst.
    destruct (Leuart.interrupt h ev l) as [l1|] eqn:E; [|discriminate].
    apply IH; [|exact Hrest].
    exact (interrupt_transmitting h ev l l1 Hev Hl E).
Qed.

Lemma leuart_start_transmitting (string : list Z) (string_len : Z)
  (m m' : Leuart.machine) :
  Leuart.leuart_start string string_len m = Ok m' -> transmitting m'.
Proof.
  unfold Leuart.leuart_start.
  destruct (sleep_block_mode _ _) as [v|]; cbn [bind]; [|discriminate].
  intros H; injection H as <-. split; cbn; [reflexivity|].
  apply andb_false_r.
Qed.

(** C9, as stated, fails.  With a packet queued and the transmitter idle,
    [ble_circ_pop] in non-test mode is still in its loop on the busy flag
    after a thousand turns without a transmission-complete interrupt; it
    returns once that interrupt has been served. *)
Lemma C9_pop_loops_on_the_busy_flag :
  exists m m' m'',
    Ble.ble_circ_push [72; 105] (Ble.ble_circ_init ble_at_reset) = Ok m /\
    Ble.ble_circ_pop app_h_bits Ble.CIRC_OPER
      (Leuart.TxBufferEmpty :: repeat Leuart.Quiet 1000) m = Ble.Waiting m' /\
    Leuart.leuart_tx_busy (Ble.leuart m') = true /\
    Leuart.TXDATA (Leuart.LEUART0 (Ble.leuart m')) = [72; 105] /\
    Ble.ble_circ_pop app_h_bits Ble.CIRC_OPER
      [Leuart.TxBufferEmpty; Leuart.TxComplete] m = Ble.Returned false m'' /\
    Leuart.leuart_tx_busy (Ble.leuart m'') = false.
Proof. do 3 eexists. run. Qed.

(** C9, amended.  In non-test mode [ble_circ_pop] hands the packet to
    [leuart_start] and then loops on the transmitter's busy flag.  As long
    as no transmission-complete event arrives it does not return with a
    packet popped: it can only return through its two early exits
    (transmitter not idle, nothing queued), where it returns true and
    leaves the machine as it is.  When it returns false, the busy flag has
    been cleared. *)
Theorem C9_pop_returns_after_tx_complete (h : app_h)
  (line : list Leuart.line_event) (m m' : Ble.machine) (busy : bool)
  (Hpop : Ble.ble_circ_pop h Ble.CIRC_OPER line m = Ble.Returned busy m') :
  (busy = false -> Leuart.leuart_tx_busy (Ble.leuart m') = false) /\
  (Forall (fun ev => ev <> Leuart.TxComplete) line ->
   busy = true /\ m' = m).
Proof.
  revert Hpop. unfold Ble.ble_circ_pop, Ble.CIRC_OPER.
  destruct (negb _).
  { intros H; injection H as <- <-. split; [discriminate|auto]. }
  destruct (_ =? _).
  { intros H; injection H as <- <-. split; [discriminate|auto]. }
  destruct (Ble.pop_loop _ _) as [chars b].
  cbn [Ble.leuart Ble.set_ble_cbuf Ble.ble_cbuf Ble.result_str].
  destruct (Leuart.leuart_start _ _ _) as [l0|] eqn:Estart; cbn [bind];
    [|discriminate].
  destruct (Leuart.service h Leuart.service_fuel l0) as [l1|] eqn:Eserv;
    [|discriminate].
  assert (Hl1 : transmitting l1).
  { apply (service_transmitting h _ _ _
             (leuart_start_transmitting _ _ _ _ Estart) Eserv). }
  destruct (Ble.wait_tx h line l1) as [[l2|]|l2] eqn:Ewait; try discriminate.
  intros H; injection H as <- <-.
  split.
  - intros _. cbn [Ble.leuart].
    clear - Ewait. revert l1 Ewait.
    induction line as [|ev rest IH]; intros l1; cbn [Ble.wait_tx];
      destruct (Leuart.leuart_tx_busy l1) eqn:Eb; try discriminate;
      try (intros H; injection H as <-; exact Eb).
    destruct (Leuart.interrupt h ev l1) as [l3|]; [|discriminate].
    apply IH.
  - intros Hline. exfalso.
    exact (wait_tx_not_left h line l1 l2 Hl1 Hline Ewait).
Qed.

Lemma C9_pop_returns_after_tx_complete_witness :
  exists m m',
    Ble.ble_circ_push [72; 105] (Ble.ble_circ_init ble_at_reset) = Ok m /\
    Ble.ble_circ_pop app_h_bits Ble.CIRC_OPER
      [Leuart.TxBufferEmpty; Leuart.TxComplete] m = Ble.Returned false m' /\
    Leuart.leuart_tx_busy (Ble.leuart m') = false.
Proof.
  destruct (Ble.ble_circ_push [72; 105] (Ble.ble_circ_init ble_at_reset))
    as [m|] eqn:Hpush; [|vm_compute in Hpush; discriminate].
  destruct (Ble.ble_circ_pop app_h_bits Ble.CIRC_OPER
              [Leuart.TxBufferEmpty; Leuart.TxComplete] m)
    as [busy m'| |] eqn:Hpop;
    [| vm_compute in Hpush; injection Hpush as <-; vm_compute in Hpop;
       discriminate ..].
  assert (Hbusy : busy = false).
  { vm_compute in Hpush; injection Hpush as <-. vm_compute in Hpop.
    injection Hpop as <- _. reflexivity. }
  subst busy.
  exists m, m'. split; [reflexivity|]. split; [exact Hpop|].
  exact (proj1 (C9_pop_returns_after_tx_complete app_h_bits _ m m' false Hpop)
           eq_refl).
Defined.

(** ** The dispatch loop *)

Lemma land_remove_other (s e x : Z) :
  0 <= x < 2 ^ 32 -> Z.land x e = 0 ->
  Z.land (Z.land s (u32_not e)) x = Z.land s x.
Proof.
  intros Hx Hd.
  apply Z.bits_inj'; intros i Hi.
  rewrite !Z.land_spec, u32_not_testbit by lia.
  assert (Hb : Z.testbit (Z.land x e) i = false)
    by (rewrite Hd; apply Z.bits_0).
  rewrite Z.land_spec in Hb.
  destruct (i <? 32) eqn:E.
  - destruct (Z.testbit s i), (Z.testbit e i), (Z.testbit x i);
      simpl in *; congruence.
  - apply Z.ltb_ge in E. rewrite (u32_range_testbit x i) by lia.
    rewrite !andb_false_r. reflexivity.
Qed.

Lemma land_remove_clear (s e c : Z) :
  Z.land s c = 0 -> Z.land (Z.land s (u32_not e)) c = 0.
Proof.
  intros Hc.
  rewrite <- Z.land_assoc, (Z.land_comm (u32_not e) c), Z.land_assoc, Hc.
  apply Z.land_0_l.
Qed.

Lemma land_add_set (s e x : Z) :
  Z.land s x = x -> Z.land (Z.lor s e) x = x.
Proof.
  intros Hx.
  apply Z.bits_inj'; intros i _.
  assert (Hb : Z.testbit (Z.land s x) i = Z.testbit x i) by (rewrite Hx; auto).
  rewrite Z.land_spec in Hb. rewrite Z.land_spec, Z.lor_spec.
  destruct (Z.testbit s i), (Z.testbit e i), (Z.testbit x i);
    simpl in *; congruence.
Qed.

Lemma land_add_clear (s e c : Z) :
  Z.land s c = 0 -> Z.land e c = 0 -> Z.land (Z.lor s e) c = 0.
Proof.
  intros Hs He. rewrite Z.land_lor_distr_l, Hs, He. reflexivity.
Qed.

Section RxEvent.

Variable h : app_h.
Hypothesis Hrange : 0 <= LEUART_RX_EVT h < 2 ^ 32.
Hypothesis Hunhandled : Main.unhandled h (LEUART_RX_EVT h).

Lemma remove_handled_rx_pending (e : Z) (s : Scheduler.t) :
  In e (Main.handled h) ->
  Main.rx_pending h s ->
  Main.rx_pending h (Scheduler.remove_scheduled_event e s).
Proof.
  intros He (Hrx & H0 & H1).
  unfold Main.rx_pending. cbn [Scheduler.remove_scheduled_event
                                Scheduler.event_scheduled].
  repeat apply conj.
  - rewrite land_remove_other; [exact Hrx | exact Hrange |].
    unfold Main.unhandled in Hunhandled.
    rewrite Forall_forall in Hunhandled. apply Hunhandled. exact He.
  - apply land_remove_clear. exact H0.
  - apply land_remove_clear. exact H1.
Qed.

Lemma add_rx_pending (e : Z) (s : Scheduler.t) :
  Main.posts_no_compare h (Main.Interrupt e) ->
  Main.rx_pending h s ->
  Main.rx_pending h (Scheduler.add_scheduled_event e s).
Proof.
  intros [He0 He1] (Hrx & H0 & H1).
  unfold Main.rx_pending. cbn [Scheduler.add_scheduled_event
                                Scheduler.event_scheduled].
  repeat apply conj.
  - apply land_add_set. exact Hrx.
  - apply land_add_clear; assumption.
  - apply land_add_clear; assumption.
Qed.

(** A handler that asserts its event and removes it, behind the test of
    the main loop. *)
Lemma guarded_remove (e : Z) (s : Scheduler.t) :
  In e (Main.handled h) ->
  Main.rx_pending h s ->
  exists s',
    (if Main.scheduled e s
     then (s0 <- EFM_ASSERT (Main.scheduled e s) s ;;
           Ok (Scheduler.remove_scheduled_event e s0))
     else Ok s) = Ok s' /\
    Main.rx_pending h s'.
Proof.
  intros He Hs. destruct (Main.scheduled e s) eqn:E.
  - cbn [EFM_ASSERT bind]. eexists; split; [reflexivity|].
    apply remove_handled_rx_pending; assumption.
  - eexists; split; [reflexivity | exact Hs].
Qed.

Lemma main_loop_pass_rx_pending (s : Scheduler.t) :
  LEUART_RX_EVT h <> 0 ->
  Main.rx_pending h s ->
  exists s',
    Main.main_loop_pass h s = Ok (false, s') /\ Main.rx_pending h s'.
Proof.
  intros Hnz Hs. unfold Main.main_loop_pass.
  assert (Hslept : (Scheduler.get_scheduled_events s =? 0) = false).
  { apply Z.eqb_neq. intros Hz. destruct Hs as (Hrx & _).
    unfold Scheduler.get_scheduled_events in Hz.
    rewrite Hz, Z.land_0_l in Hrx. congruence. }
  rewrite Hslept.
  destruct (guarded_remove (LETIMER0_UF_EVT h) s) as (s1 & E1 & H1);
    [cbn; tauto | exact Hs |].
  unfold Main.scheduled_letimer0_uf_evt. rewrite E1. cbn [bind].
  assert (Hc0 : Main.scheduled (LETIMER0_COMP0_EVT h) s1 = false).
  { unfold Main.scheduled, Scheduler.get_scheduled_events.
    rewrite (proj1 (proj2 H1)). reflexivity. }
  rewrite Hc0. cbn [bind].
  assert (Hc1 : Main.scheduled (LETIMER0_COMP1_EVT h) s1 = false).
  { unfold Main.scheduled, Scheduler.get_scheduled_events.
    rewrite (proj2 (proj2 H1)). reflexivity. }
  rewrite Hc1. cbn [bind].
  destruct (guarded_remove I2C.SI7021_READ_EVT s1) as (s2 & E2 & H2);
    [cbn; tauto | exact H1 |].
  unfold Main.Si7021_temp_done_evt. rewrite E2. cbn [bind].
  destruct (guarded_remove (BOOT_UP_EVT h) s2) as (s3 & E3 & H3);
    [cbn; tauto | exact H2 |].
  unfold Main.scheduled_boot_up_evt. rewrite E3. cbn [bind].
  unfold Main.scheduled_leuart0_tx_done_evt.
  destruct (Main.scheduled (LEUART_TX_EVT h) s3); cbn [bind].
  - eexists; split; [reflexivity|].
    apply remove_handled_rx_pending; [cbn; tauto | exact H3].
  - eexists; split; [reflexivity | exact H3].
Qed.

Lemma execute_rx_pending (acts : list Main.action) :
  LEUART_RX_EVT h <> 0 ->
  Forall (Main.posts_no_compare h) acts ->
  forall s : Scheduler.t,
    Main.rx_pending h s ->
    exists slept s',
      Main.execute h acts s = Ok (slept, s') /\
      Forall (fun b => b = false) slept /\
      Main.rx_pending h s'.
Proof.
  intros Hnz. induction acts as [|a rest IH]; intros Hacts s Hs.
  - exists [], s. split; [reflexivity|]. split; [constructor | exact Hs].
  - inversion Hacts as [|? ? Ha Hrest]; subst.
    destruct a as [e|]; cbn [Main.execute].
    + apply (IH Hrest). apply add_rx_pending; assumption.
    + destruct (main_loop_pass_rx_pending s Hnz Hs) as (s1 & E1 & H1).
      rewrite E1. cbn [bind snd fst].
      destruct (IH Hrest s1 H1) as (slept & s' & E & Hsl & H').
      rewrite E. cbn [bind snd fst].
      exists (false :: slept), s'.
      split; [reflexivity|]. split; [constructor; auto | exact H'].
Qed.

End RxEvent.

(** C8, evaluated where it fails.  [SIGF_Interrupt] posts
    [LEUART_RX_EVT]; the main loop tests six masks and that one is not
    among them, and no handler removes it.  Whenever the mask shares no bit
    with the six that are handled, then from a state where it is pending,
    through any passes of the main loop and any interrupts posting events
    (the compare events apart, whose handlers halt), the execution goes
    on, the bits of [LEUART_RX_EVT] are pending at its end, and no pass
    has called [enter_sleep]. *)
Theorem C8_rx_done_event_stays_pending (h : app_h) (acts : list Main.action)
  (s : Scheduler.t)
  (Hrange : 0 < LEUART_RX_EVT h < 2 ^ 32)
  (Hunhandled : Main.unhandled h (LEUART_RX_EVT h))
  (Hacts : Forall (Main.posts_no_compare h) acts)
  (Hs : Main.rx_pending h s) :
  exists slept s',
    Main.execute h acts s = Ok (slept, s') /\
    Forall (fun b => b = false) slept /\
    Z.land (Scheduler.get_scheduled_events s') (LEUART_RX_EVT h)
      = LEUART_RX_EVT h.
Proof.
  destruct (execute_rx_pending h ltac:(lia) Hunhandled acts ltac:(lia)
              Hacts s Hs) as (slept & s' & E & Hsl & Hrx & _).
  exists slept, s'. split; [exact E|]. split; [exact Hsl | exact Hrx].
Qed.

Lemma C8_rx_done_event_stays_pending_witness :
  exists m m',
    Leuart.leuart_open app_h_bits leuart_at_reset = Ok m /\
    Leuart.interrupts app_h_bits (map Leuart.RxFrame [35; 70; 63]) m = Ok m' /\
    Scheduler.get_scheduled_events (sched (Leuart.svc m')) = 64 /\
    exists slept s',
      Main.execute app_h_bits
        [Main.Pass; Main.Interrupt 4; Main.Pass; Main.Interrupt 8; Main.Pass;
         Main.Pass]
        (sched (Leuart.svc m')) = Ok (slept, s') /\
      Forall (fun b => b = false) slept /\
      Z.land (Scheduler.get_scheduled_events s') (LEUART_RX_EVT app_h_bits)
        = LEUART_RX_EVT app_h_bits.
Proof.
  eexists. eexists.
  split; [vm_compute; reflexivity|].
  split; [vm_compute; reflexivity|].
  split; [vm_compute; reflexivity|].
  apply (C8_rx_done_event_stays_pending app_h_bits
           [Main.Pass; Main.Interrupt 4; Main.Pass; Main.Interrupt 8;
            Main.Pass; Main.Pass]).
  - vm_compute. split; reflexivity.
  - repeat constructor.
  - repeat constructor.
  - vm_compute. repeat split; reflexivity.
Defined.

(** * Further properties of the drivers *)

(** ** The scheduler *)

(** Posting or removing an event leaves the bits of every event that
    shares no bit with it as they are. *)
Theorem scheduler_events_independent (s : Scheduler.t) (e x : Z)
  (Hx : 0 <= x < 2 ^ 32) (Hdisjoint : Z.land x e = 0) :
  Z.land (Scheduler.get_scheduled_events (Scheduler.add_scheduled_event e s)) x
    = Z.land (Scheduler.get_scheduled_events s) x /\
  Z.land (Scheduler.get_scheduled_events
            (Scheduler.remove_scheduled_event e s)) x
    = Z.land (Scheduler.get_scheduled_events s) x.
Proof.
  unfold Scheduler.get_scheduled_events.
  cbn [Scheduler.add_scheduled_event Scheduler.remove_scheduled_event
       Scheduler.event_scheduled].
  split.
  - rewrite Z.land_lor_distr_l, (Z.land_comm e x), Hdisjoint.
    apply Z.lor_0_r.
  - apply land_remove_other; assumption.
Qed.

Lemma scheduler_events_independent_witness :
  let s := Scheduler.mk 0x48 [8; 64] in
  Z.land (Scheduler.get_scheduled_events
            (Scheduler.add_scheduled_event 0x20 s)) 0x40
    = Z.land (Scheduler.get_scheduled_events s) 0x40 /\
  Z.land (Scheduler.get_scheduled_events
            (Scheduler.remove_scheduled_event 0x08 s)) 0x40
    = Z.land (Scheduler.get_scheduled_events s) 0x40.
Proof.
  intros s. split.
  - apply (scheduler_events_independent s 0x20 0x40); [lia | reflexivity].
  - apply (scheduler_events_independent s 0x08 0x40); [lia | reflexivity].
Defined.
(** ** The I2C engine: refusals, register writes, byte count *)

(** The device may refuse the read address any number of times: each
    refusal is answered by a repeated start and the read address, and
    nothing else changes. *)
Lemma i2c_refusals (n : nat) :
  forall s : I2C.state,
    I2C.current_state (I2C.payload s) = I2C.send_read_cmd ->
    I2C.STATE_IDLE (I2C.peripheral s) = false ->
    I2C.interrupts (repeat I2C.DevNACK n) s
      = Ok (I2C.mk_state (I2C.svc s) (I2C.payload s) (I2C.dest s)
              (I2C.mk_regs false (I2C.RXDATA (I2C.peripheral s))
                 (I2C.written (I2C.peripheral s) ++
                  concat (repeat [I2C.CMD_START;
                                  read_address
                                    (I2C.device_address (I2C.payload s))]
                            n)))).
Proof.
  induction n as [|n IH]; intros s Hst Hidle.
  - destruct s as [v p d [i rx w]]. cbn in Hidle. subst i.
    cbn. rewrite app_nil_r. reflexivity.
  - destruct s as [v [a c b k] d [i rx w]]. cbn in Hst, Hidle. subst c i.
    cbn [repeat I2C.interrupts].
    assert (E : I2C.interrupt I2C.DevNACK
                  (I2C.mk_state v (I2C.mk_payload a I2C.send_read_cmd b k) d
                     (I2C.mk_regs false rx w))
                = Ok (I2C.mk_state v
                        (I2C.mk_payload a I2C.send_read_cmd b k) d
                        (I2C.mk_regs false rx
                           ((w ++ [I2C.CMD_START]) ++ [read_address a]))))
      by reflexivity.
    rewrite E. cbn [bind]. rewrite IH by reflexivity.
    cbn [I2C.svc I2C.payload I2C.dest I2C.peripheral I2C.RXDATA I2C.written
         I2C.device_address concat].
    rewrite <- !app_assoc. reflexivity.
Qed.

(** The register writes of the receive loop: an ACK for every byte but
    the last, then NACK and stop. *)
Lemma i2c_receive_writes (data : list Z) :
  forall s s' : I2C.state,
    I2C.current_state (I2C.payload s) = I2C.receive_data ->
    I2C.bytes (I2C.payload s) = Z.of_nat (length data) ->
    Z.of_nat (length data) < 2 ^ 32 ->
    I2C.interrupts (map I2C.DevByte data) s = Ok s' ->
    data <> [] ->
    I2C.written (I2C.peripheral s')
      = I2C.written (I2C.peripheral s) ++
        repeat I2C.CMD_ACK (length data - 1) ++ [I2C.CMD_NACK; I2C.CMD_STOP] /\
    I2C.STATE_IDLE (I2C.peripheral s') = I2C.STATE_IDLE (I2C.peripheral s) /\
    I2C.bytes (I2C.payload s') = 0.
Proof.
  induction data as [|b rest IH]; intros s s' Hst Hn Hmax Hrun Hne;
    [congruence|].
  destruct s as [v [a c n k] d [i rx w]].
  cbn [I2C.payload I2C.current_state I2C.bytes] in Hst, Hn. subst c.
  assert (Hsmall : u32 (n - 1) = Z.of_nat (length rest)).
  { unfold u32. rewrite Z.mod_small; simpl length in *; lia. }
  cbn [map I2C.interrupts I2C.interrupt I2C.raise I2C.I2C0_IRQHandler
       I2C.IF_ACK I2C.IF_NACK I2C.IF_RXDATAV I2C.IF_MSTOP bind
       I2C.peripheral I2C.svc I2C.payload I2C.dest I2C.STATE_IDLE
       I2C.written] in Hrun.
  unfold I2C.I2C_RXDATAV in Hrun.
  cbn [I2C.payload I2C.current_state I2C.set_bytes I2C.bytes I2C.svc
       I2C.dest I2C.peripheral I2C.device_address I2C.cmd] in Hrun.
  rewrite Hsmall in Hrun.
  destruct rest as [|b' rest'].
  - cbv -[u32 Z.shiftl Z.lor app] in Hrun. injection Hrun as <-.
    cbn. rewrite <- app_assoc. split; [reflexivity|split; reflexivity].
  - assert (Hpos : (0 <? Z.of_nat (length (b' :: rest'))) = true)
      by (apply Z.ltb_lt; simpl length; lia).
    rewrite Hpos in Hrun.
    cbn [bind I2C.set_dest I2C.reg I2C.svc I2C.payload I2C.dest
         I2C.peripheral I2C.RXDATA I2C.STATE_IDLE I2C.written] in Hrun.
    apply IH in Hrun; [| reflexivity | reflexivity
                       | simpl length in Hmax |- *; lia | discriminate].
    destruct Hrun as (Hw & Hi & Hb).
    unfold I2C.reg, I2C.set_dest, I2C.set_bytes in Hw, Hi.
    cbn [I2C.peripheral I2C.written I2C.STATE_IDLE I2C.svc I2C.payload
         I2C.dest I2C.RXDATA] in Hw, Hi |- *.
    rewrite Hw, Hi, Hb. split; [|split; reflexivity].
    rewrite <- app_assoc.
    replace (length (b :: b' :: rest') - 1)%nat
      with (S (length (b' :: rest') - 1)) by (simpl; lia).
    reflexivity.
Qed.

(** The run of a read transaction from an idle peripheral, with the
    register writes the engine makes on the way. *)
Lemma i2c_transaction_trace (s : I2C.state)
  (i2c_load : I2C.I2C_PAYLOAD_INIT) (nacks : nat) (data : list Z)
  (Hidle : I2C.STATE_IDLE (I2C.peripheral s) = true)
  (Htable : length (sleep (I2C.svc s)) = Sleep.MAX_ENERGY_MODES)
  (Hbytes : I2C.init_bytes i2c_load = Z.of_nat (length data))
  (Hone : (1 <= length data)%nat)
  (Hmax : Z.of_nat (length data) < 2 ^ 32) :
  exists s0 s',
    I2C.I2C_Start i2c_load s = Ok s0 /\
    I2C.interrupts (I2C.transaction nacks data) s0 = Ok s' /\
    I2C.current_state (I2C.payload s') = I2C.initialize /\
    I2C.STATE_IDLE (I2C.peripheral s') = true /\
    posted_events (I2C.svc s')
      = posted_events (I2C.svc s) ++ [I2C.SI7021_READ_EVT] /\
    sleep (I2C.svc s') = sleep (I2C.svc s) /\
    I2C.dest s' = I2C.rx_word (I2C.dest s) data /\
    I2C.written (I2C.peripheral s')
      = I2C.written (I2C.peripheral s) ++
        transaction_writes (I2C.init_device_address i2c_load)
          (I2C.init_cmd i2c_load) nacks (length data).
Proof.
  destruct s as [[sc tb] [a c n k] d [i rx w]].
  destruct i2c_load as [addr nb cm].
  simpl in Hidle, Htable, Hbytes. subst i nb.
  do 5 (destruct tb as [|? tb]; [discriminate|]).
  destruct tb; [|discriminate].
  match goal with
  | |- exists s0 s', ?start = _ /\ _ =>
      pose proof (eq_refl start) as Hstart; run_in Hstart
  end.
  match type of Hstart with
  | _ = Ok ?s0 =>
      exists s0;
      pose proof (eq_refl (I2C.interrupts [I2C.DevACK; I2C.DevACK] s0))
        as Haddr; run_in Haddr
  end.
  match type of Haddr with
  | _ = Ok ?s1 =>
      pose proof (i2c_refusals nacks s1 eq_refl eq_refl) as Hnack;
      cbn [I2C.svc I2C.payload I2C.dest I2C.peripheral I2C.RXDATA
           I2C.written I2C.device_address] in Hnack
  end.
  match type of Hnack with
  | _ = Ok ?s2 =>
      pose proof (eq_refl (I2C.interrupts [I2C.DevACK] s2)) as Hack;
      match type of Hack with
      | ?l = ?r =>
          let r' := eval cbn [I2C.interrupts I2C.interrupt I2C.raise
                              I2C.I2C0_IRQHandler I2C.IF_ACK I2C.IF_NACK
                              I2C.IF_RXDATAV I2C.IF_MSTOP bind I2C.I2C_ACK
                              I2C.payload I2C.current_state
                              I2C.set_current_state I2C.svc I2C.dest
                              I2C.peripheral I2C.device_address I2C.bytes
                              I2C.cmd] in r in
          change (l = r') in Hack
      end
  end.
  match type of Hack with
  | _ = Ok ?s3 =>
      destruct (i2c_receive_all data s3) as (s4 & H1 & H2 & H3 & H4);
        [reflexivity | reflexivity
        | destruct data; [simpl in Hone; lia | discriminate]
        | exact Hmax |];
      destruct (i2c_receive_writes data s3 s4) as (H5 & H6 & H7);
        [reflexivity | reflexivity | exact Hmax | exact H1
        | destruct data; [simpl in Hone; lia | discriminate] |]
  end.
  destruct s4 as [v4 [a4 c4 m4 k4] d4 [i4 rx4 w4]].
  cbn [I2C.payload I2C.current_state I2C.svc I2C.dest I2C.peripheral
       I2C.written I2C.STATE_IDLE I2C.bytes] in H2, H3, H4, H5, H6, H7.
  subst c4 v4 i4 m4.
  pose proof (eq_refl (I2C.interrupts [I2C.DevSTOP]
              (I2C.mk_state
                 (mk_services sc [n0; n1; S n2; n3; n4])
                 (I2C.mk_payload a4 I2C.end_process 0 k4) d4
                 (I2C.mk_regs false rx4 w4)))) as Hstop.
  run_in Hstop.
  match type of Hstop with _ = Ok ?s5 => exists s5 end.
  split; [exact Hstart|].
  split.
  { unfold I2C.transaction.
    change ([I2C.DevACK; I2C.DevACK] ++ repeat I2C.DevNACK nacks ++
            [I2C.DevACK] ++ map I2C.DevByte data ++ [I2C.DevSTOP])
      with ([I2C.DevACK; I2C.DevACK] ++ (repeat I2C.DevNACK nacks ++
            ([I2C.DevACK] ++ (map I2C.DevByte data ++ [I2C.DevSTOP])))).
    rewrite i2c_interrupts_app, Haddr. cbn [bind].
    rewrite i2c_interrupts_app, Hnack. cbn [bind].
    rewrite i2c_interrupts_app, Hack. cbn [bind].
    rewrite i2c_interrupts_app, H1. cbn [bind].
    exact Hstop. }
  split; [reflexivity|].
  split; [reflexivity|].
  split; [reflexivity|].
  split; [reflexivity|].
  split; [exact H4|].
  cbn [I2C.peripheral I2C.written I2C.init_device_address I2C.init_cmd].
  cbn [I2C.peripheral I2C.written I2C.set_current_state I2C.svc I2C.payload
       I2C.dest] in H5.
  rewrite H5. unfold transaction_writes, read_address.
  cbn [I2C.wr_bit]. rewrite <- !app_assoc. reflexivity.
Qed.

(** A read transaction, whatever the number of refusals of the read
    address: the engine ends back in [initialize] with the peripheral
    idle, one completion event posted and the block on EM2 released, the
    destination word as the receive loop leaves it, and the peripheral has
    been written the start, addresses, command, repeated starts,
    acknowledges, NACK and stop of the transaction, in that order. *)
Theorem i2c_transaction_with_refusals (s : I2C.state)
  (i2c_load : I2C.I2C_PAYLOAD_INIT) (nacks : nat) (data : list Z)
  (Hidle : I2C.STATE_IDLE (I2C.peripheral s) = true)
  (Htable : length (sleep (I2C.svc s)) = Sleep.MAX_ENERGY_MODES)
  (Hbytes : I2C.init_bytes i2c_load = Z.of_nat (length data))
  (Hone : (1 <= length data)%nat)
  (Hmax : Z.of_nat (length data) < 2 ^ 32) :
  exists s0 s',
    I2C.I2C_Start i2c_load s = Ok s0 /\
    I2C.interrupts (I2C.transaction nacks data) s0 = Ok s' /\
    I2C.current_state (I2C.payload s') = I2C.initialize /\
    I2C.STATE_IDLE (I2C.peripheral s') = true /\
    posted_events (I2C.svc s')
      = posted_events (I2C.svc s) ++ [I2C.SI7021_READ_EVT] /\
    sleep (I2C.svc s') = sleep (I2C.svc s) /\
    I2C.dest s' = I2C.rx_word (I2C.dest s) data /\
    I2C.written (I2C.peripheral s')
      = I2C.written (I2C.peripheral s) ++
        transaction_writes (I2C.init_device_address i2c_load)
          (I2C.init_cmd i2c_load) nacks (length data).
Proof.
  exact (i2c_transaction_trace s i2c_load nacks data Hidle Htable Hbytes
           Hone Hmax).
Qed.

Lemma i2c_transaction_with_refusals_witness :
  exists s0 s',
    I2C.I2C_Start (I2C.mk_init 64 2 243) i2c_at_reset = Ok s0 /\
    I2C.interrupts (I2C.transaction 3 [0x65; 0x4c]) s0 = Ok s' /\
    I2C.written (I2C.peripheral s')
      = I2C.written (I2C.peripheral i2c_at_reset) ++
        transaction_writes 64 243 3 2.
Proof.
  destruct (i2c_transaction_with_refusals i2c_at_reset
              (I2C.mk_init 64 2 243) 3 [0x65; 0x4c]
              eq_refl eq_refl eq_refl)
    as (s0 & s' & H1 & H2 & _ & _ & _ & _ & _ & H8);
    [simpl; lia | simpl; lia |].
  exists s0, s'.
  split; [exact H1 | split; [exact H2 | exact H8]].
Defined.

(** ** The I2C engine: the byte count is exact *)

Ltac i2c_byte_step :=
  cbn [map app I2C.interrupts I2C.interrupt I2C.raise I2C.I2C0_IRQHandler
       I2C.IF_ACK I2C.IF_NACK I2C.IF_RXDATAV I2C.IF_MSTOP bind
       I2C.peripheral I2C.svc I2C.payload I2C.dest I2C.STATE_IDLE
       I2C.written];
  unfold I2C.I2C_RXDATAV;
  cbn [I2C.payload I2C.current_state I2C.set_bytes I2C.bytes I2C.svc
       I2C.dest I2C.peripheral I2C.device_address I2C.cmd].

Lemma u32_pred (n : Z) :
  0 <= n < 2 ^ 32 ->
  u32 (n - 1) = if n =? 0 then 2 ^ 32 - 1 else n - 1.
Proof.
  intros Hn. unfold u32. destruct (Z.eqb_spec n 0) as [->|Hne].
  - reflexivity.
  - apply Z.mod_small. lia.
Qed.

(** Fewer bytes than the count asks for leave the engine waiting in
    [receive_data]. *)
Lemma i2c_receive_short (data : list Z) :
  forall s : I2C.state,
    I2C.current_state (I2C.payload s) = I2C.receive_data ->
    0 <= I2C.bytes (I2C.payload s) < 2 ^ 32 ->
    Z.of_nat (length data) < bytes_expected (I2C.bytes (I2C.payload s)) ->
    exists s',
      I2C.interrupts (map I2C.DevByte data) s = Ok s' /\
      I2C.current_state (I2C.payload s') = I2C.receive_data.
Proof.
  induction data as [|b rest IH]; intros s Hst Hn Hlt.
  - exists s. split; [reflexivity | exact Hst].
  - destruct s as [v [a c n k] d [i rx w]].
    cbn [I2C.payload I2C.current_state I2C.bytes] in Hst, Hn, Hlt. subst c.
    i2c_byte_step.
    pose proof (u32_pred n Hn) as Hp.
    unfold bytes_expected in Hlt.
    assert (Hlen : Z.of_nat (length (b :: rest))
                   = Z.of_nat (length rest) + 1) by (simpl length; lia).
    assert (Hpos : (0 <? u32 (n - 1)) = true).
    { apply Z.ltb_lt. rewrite Hp. destruct (Z.eqb_spec n 0); lia. }
    rewrite Hpos.
    cbn [bind].
    apply IH.
    + reflexivity.
    + unfold I2C.reg, I2C.set_dest, I2C.set_bytes.
      cbn [I2C.payload I2C.bytes I2C.svc I2C.dest I2C.peripheral].
      rewrite Hp. destruct (Z.eqb_spec n 0); lia.
    + unfold I2C.reg, I2C.set_dest, I2C.set_bytes, bytes_expected.
      cbn [I2C.payload I2C.bytes I2C.svc I2C.dest I2C.peripheral].
      rewrite Hp.
      destruct (Z.eqb_spec n 0) as [->|Hne].
      * change (2 ^ 32 - 1 =? 0) with false. cbv iota. lia.
      * destruct (Z.eqb_spec (n - 1) 0); lia.
Qed.

(** More bytes than the count asks for: the byte after the last one
    arrives in [end_process], where the engine halts. *)
Lemma i2c_receive_long (data : list Z) (tail : list I2C.bus_event) :
  forall s : I2C.state,
    I2C.current_state (I2C.payload s) = I2C.receive_data ->
    0 <= I2C.bytes (I2C.payload s) < 2 ^ 32 ->
    bytes_expected (I2C.bytes (I2C.payload s)) < Z.of_nat (length data) ->
    I2C.interrupts (map I2C.DevByte data ++ tail) s = Fault.
Proof.
  induction data as [|b rest IH]; intros s Hst Hn Hlt.
  - unfold bytes_expected in Hlt. simpl length in Hlt.
    destruct (I2C.bytes (I2C.payload s) =? 0); lia.
  - destruct s as [v [a c n k] d [i rx w]].
    cbn [I2C.payload I2C.current_state I2C.bytes] in Hst, Hn, Hlt. subst c.
    i2c_byte_step.
    pose proof (u32_pred n Hn) as Hp.
    unfold bytes_expected in Hlt.
    assert (Hlen : Z.of_nat (length (b :: rest))
                   = Z.of_nat (length rest) + 1) by (simpl length; lia).
    destruct (Z.eqb_spec n 1) as [->|Hn1].
    + change (0 <? u32 (1 - 1)) with false. cbv iota.
      destruct rest as [|b' rest']; [simpl in Hlt; lia|].
      reflexivity.
    + assert (Hpos : (0 <? u32 (n - 1)) = true).
      { apply Z.ltb_lt. rewrite Hp. destruct (Z.eqb_spec n 0); lia. }
      rewrite Hpos.
      cbn [bind].
      apply IH.
      * reflexivity.
      * unfold I2C.reg, I2C.set_dest, I2C.set_bytes.
        cbn [I2C.payload I2C.bytes I2C.svc I2C.dest I2C.peripheral].
        rewrite Hp. destruct (Z.eqb_spec n 0); lia.
      * unfold I2C.reg, I2C.set_dest, I2C.set_bytes, bytes_expected.
        cbn [I2C.payload I2C.bytes I2C.svc I2C.dest I2C.peripheral].
        rewrite Hp.
        destruct (Z.eqb_spec n 0) as [->|Hne].
        -- change (2 ^ 32 - 1 =? 0) with false. cbv iota.
           change (0 =? 0) with true in Hlt. cbv iota in Hlt. lia.
        -- destruct (Z.eqb_spec (n - 1) 0); [lia|].
           destruct (Z.eqb_spec n 0); lia.
Qed.

(** From an idle peripheral, the start of a transaction and the address
    phase of the device (however often it refuses the read address) bring
    the engine to [receive_data] with the count as loaded. *)
Lemma i2c_address_phase (s : I2C.state) (i2c_load : I2C.I2C_PAYLOAD_INIT)
  (nacks : nat) :
  I2C.STATE_IDLE (I2C.peripheral s) = true ->
  length (sleep (I2C.svc s)) = Sleep.MAX_ENERGY_MODES ->
  exists s0 s3,
    I2C.I2C_Start i2c_load s = Ok s0 /\
    I2C.interrupts ([I2C.DevACK; I2C.DevACK] ++ repeat I2C.DevNACK nacks
                    ++ [I2C.DevACK]) s0 = Ok s3 /\
    I2C.current_state (I2C.payload s3) = I2C.receive_data /\
    I2C.bytes (I2C.payload s3) = I2C.init_bytes i2c_load.
Proof.
  intros Hidle Htable.
  destruct s as [[sc tb] [a c n k] d [i rx w]].
  destruct i2c_load as [addr nb cm].
  simpl in Hidle, Htable. subst i.
  do 5 (destruct tb as [|? tb]; [discriminate|]).
  destruct tb; [|discriminate].
  match goal with
  | |- exists s0 s', ?start = _ /\ _ =>
      pose proof (eq_refl start) as Hstart; run_in Hstart
  end.
  match type of Hstart with
  | _ = Ok ?s0 =>
      exists s0;
      pose proof (eq_refl (I2C.interrupts [I2C.DevACK; I2C.DevACK] s0))
        as Haddr; run_in Haddr
  end.
  match type of Haddr with
  | _ = Ok ?s1 =>
      pose proof (i2c_refusals nacks s1 eq_refl eq_refl) as Hnack;
      cbn [I2C.svc I2C.payload I2C.dest I2C.peripheral I2C.RXDATA
           I2C.written I2C.device_address] in Hnack
  end.
  match type of Hnack with
  | _ = Ok ?s2 =>
      pose proof (eq_refl (I2C.interrupts [I2C.DevACK] s2)) as Hack;
      match type of Hack with
      | ?l = ?r =>
          let r' := eval cbn [I2C.interrupts I2C.interrupt I2C.raise
                              I2C.I2C0_IRQHandler I2C.IF_ACK I2C.IF_NACK
                              I2C.IF_RXDATAV I2C.IF_MSTOP bind I2C.I2C_ACK
                              I2C.payload I2C.current_state
                              I2C.set_current_state I2C.svc I2C.dest
                              I2C.peripheral I2C.device_address I2C.bytes
                              I2C.cmd] in r in
          change (l = r') in Hack
      end
  end.
  match type of Hack with _ = Ok ?s3 => exists s3 end.
  split; [exact Hstart|].
  split.
  { rewrite i2c_interrupts_app, Haddr. cbn [bind].
    rewrite i2c_interrupts_app, Hnack. cbn [bind].
    exact Hack. }
  split; reflexivity.
Qed.

(** The transaction completes only with exactly as many data bytes as the
    count asks for: with fewer the stop arrives in [receive_data], with
    more a byte arrives in [end_process], and either way the engine
    halts.  A count of zero asks for [2 ^ 32] bytes. *)
Theorem i2c_byte_count_is_exact (s : I2C.state)
  (i2c_load : I2C.I2C_PAYLOAD_INIT) (nacks : nat) (data : list Z)
  (Hidle : I2C.STATE_IDLE (I2C.peripheral s) = true)
  (Htable : length (sleep (I2C.svc s)) = Sleep.MAX_ENERGY_MODES)
  (Hrange : 0 <= I2C.init_bytes i2c_load < 2 ^ 32)
  (Hwrong : Z.of_nat (length data)
            <> bytes_expected (I2C.init_bytes i2c_load)) :
  exists s0,
    I2C.I2C_Start i2c_load s = Ok s0 /\
    I2C.interrupts (I2C.transaction nacks data) s0 = Fault.
Proof.
  destruct (i2c_address_phase s i2c_load nacks Hidle Htable)
    as (s0 & s3 & Hstart & Hphase & Hst & Hb).
  exists s0. split; [exact Hstart|].
  unfold I2C.transaction.
  replace ([I2C.DevACK; I2C.DevACK] ++ repeat I2C.DevNACK nacks ++
           [I2C.DevACK] ++ map I2C.DevByte data ++ [I2C.DevSTOP])
    with (([I2C.DevACK; I2C.DevACK] ++ repeat I2C.DevNACK nacks ++
           [I2C.DevACK]) ++ (map I2C.DevByte data ++ [I2C.DevSTOP]))
    by (rewrite <- !app_assoc; reflexivity).
  rewrite i2c_interrupts_app, Hphase. cbn [bind].
  destruct (Z.lt_ge_cases (Z.of_nat (length data))
              (bytes_expected (I2C.init_bytes i2c_load))) as [Hlt|Hge].
  - destruct (i2c_receive_short data s3) as (s4 & Hrun & Hst4);
      [exact Hst | rewrite Hb; exact Hrange | rewrite Hb; exact Hlt |].
    rewrite i2c_interrupts_app, Hrun. cbn [bind].
    destruct s4 as [v4 [a4 c4 m4 k4] d4 [i4 rx4 w4]].
    cbn [I2C.payload I2C.current_state] in Hst4. subst c4.
    reflexivity.
  - apply i2c_receive_long;
      [exact Hst | rewrite Hb; exact Hrange | rewrite Hb; lia].
Qed.

Lemma i2c_byte_count_is_exact_witness :
  exists s0,
    I2C.I2C_Start (I2C.mk_init 64 2 243) i2c_at_reset = Ok s0 /\
    I2C.interrupts (I2C.transaction 1 [0x65; 0x4c; 0x7a]) s0 = Fault.
Proof.
  apply (i2c_byte_count_is_exact i2c_at_reset (I2C.mk_init 64 2 243) 1
           [0x65; 0x4c; 0x7a] eq_refl eq_refl).
  - simpl. lia.
  - vm_compute. discriminate.
Defined.

(** ** The temperature sensor *)

Lemma byte_pair_word (b0 b1 : Z) :
  0 <= b0 < 256 -> 0 <= b1 < 256 ->
  Z.lor (u32 (Z.shiftl b0 8)) b1 = 256 * b0 + b1.
Proof.
  intros H0 H1.
  assert (Hs : Z.shiftl b0 8 = 256 * b0)
    by (rewrite Z.shiftl_mul_pow2 by lia; change (2 ^ 8) with 256; lia).
  assert (Hu : u32 (Z.shiftl b0 8) = Z.shiftl b0 8)
    by (unfold u32; apply Z.mod_small; rewrite Hs; lia).
  rewrite Hu.
  assert (Hd : Z.land (Z.shiftl b0 8) b1 = 0).
  { apply Z.bits_inj'. intros n Hn.
    rewrite Z.land_spec, Z.bits_0.
    destruct (Z.ltb_spec n 8) as [Hlt|Hge].
    - rewrite Z.shiftl_spec_low by lia. reflexivity.
    - rewrite (Z.bits_above_log2 b1 n), andb_false_r; [reflexivity | lia |].
      destruct (Z.eq_dec b1 0) as [->|Hne]; [simpl; lia|].
      apply Z.log2_lt_pow2; [lia|].
      apply Z.lt_le_trans with (2 ^ 8); [simpl; lia|].
      apply Z.pow_le_mono_r; lia. }
  rewrite <- (Z.lxor_lor _ _ Hd), <- (Z.add_nocarry_lxor _ _ Hd), Hs.
  reflexivity.
Qed.

(** A temperature measurement: [Si7021_read] addresses device 0x40 for
    writing, sends command 0xF3 and addresses the device for reading until
    it accepts; with the two bytes of the measurement delivered, the raw
    value is the 16-bit word made of them, most significant byte first,
    whatever was there before, the completion event is posted, and the
    peripheral is idle and the sleep table as before, ready for the next
    read. *)
Theorem Si7021_measurement (s : I2C.state) (nacks : nat) (b0 b1 : Z)
  (Hidle : I2C.STATE_IDLE (I2C.peripheral s) = true)
  (Htable : length (sleep (I2C.svc s)) = Sleep.MAX_ENERGY_MODES)
  (Hb0 : 0 <= b0 < 256) (Hb1 : 0 <= b1 < 256) :
  exists s0 s',
    Si7021.Si7021_read s = Ok s0 /\
    I2C.interrupts (I2C.transaction nacks [b0; b1]) s0 = Ok s' /\
    Si7021.raw_data s' = 256 * b0 + b1 /\
    0 <= Si7021.raw_data s' < 65536 /\
    I2C.written (I2C.peripheral s')
      = I2C.written (I2C.peripheral s) ++
        [I2C.CMD_START; I2C.TXDATA 0x80; I2C.TXDATA 0xF3;
         I2C.CMD_START; I2C.TXDATA 0x81] ++
        concat (repeat [I2C.CMD_START; I2C.TXDATA 0x81] nacks) ++
        [I2C.CMD_ACK; I2C.CMD_NACK; I2C.CMD_STOP] /\
    posted_events (I2C.svc s')
      = posted_events (I2C.svc s) ++ [I2C.SI7021_READ_EVT] /\
    I2C.STATE_IDLE (I2C.peripheral s') = true /\
    sleep (I2C.svc s') = sleep (I2C.svc s).
Proof.
  destruct (i2c_transaction_trace s
              (I2C.mk_init Si7021.Si7021_dev_addr Si7021.byte_num
                 Si7021.SI7021_TEMP_NO_HOLD) nacks [b0; b1] Hidle Htable
              eq_refl)
    as (s0 & s' & H1 & H2 & _ & H4 & H5 & H6 & H7 & H8);
    [simpl; lia | simpl; lia |].
  exists s0, s'.
  assert (Hraw : Si7021.raw_data s' = 256 * b0 + b1).
  { unfold Si7021.raw_data. rewrite H7. cbn [I2C.rx_word].
    apply byte_pair_word; assumption. }
  split; [exact H1|].
  split; [exact H2|].
  split; [exact Hraw|].
  split; [rewrite Hraw; lia|].
  split; [exact H8|].
  split; [exact H5|].
  split; [exact H4 | exact H6].
Qed.

Lemma Si7021_measurement_witness :
  exists s0 s',
    Si7021.Si7021_read i2c_at_reset = Ok s0 /\
    I2C.interrupts (I2C.transaction 2 [0x65; 0x4c]) s0 = Ok s' /\
    Si7021.raw_data s' = 0x654c.
Proof.
  destruct (Si7021_measurement i2c_at_reset 2 0x65 0x4c eq_refl eq_refl)
    as (s0 & s' & H1 & H2 & H3 & _); [lia | lia |].
  exists s0, s'.
  split; [exact H1 | split; [exact H2 | exact H3]].
Defined.

(** ** The link receiver: frames of any payload *)

(** What [listening] says of a machine, field by field. *)
Lemma listening_inv (m : Leuart.machine) :
  Leuart.listening m = true ->
  exists v rx tx st cnt s ix tb buf rc sf sg f1 f2 e1 e2 rxd txd blk idl,
    m = Leuart.mk_machine v rx tx
          (Leuart.mk_payload st cnt s ix tb Leuart.idle buf rc sf sg false)
          (Leuart.mk_regs (Leuart.mk_flags f1 f2 false false false)
             (Leuart.mk_flags e1 e2 true false false)
             rxd txd blk idl true 35 63) /\
    f1 && e1 = false /\ f2 && e2 = false /\ length buf = 80%nat.
Proof.
  intros Hm.
  destruct m as [v rx tx p r].
  destruct p as [st cnt s ix tb rs buf rc sf sg rb].
  destruct r as [f e rxd txd blk idl sfu stf sgf].
  destruct f as [f1 f2 f3 f4 f5], e as [e1 e2 e3 e4 e5].
  unfold Leuart.listening, Leuart.irq_pending, Leuart.enabled_flags in Hm.
  cbn [Leuart.lePayload Leuart.LEUART0 Leuart.rx_state Leuart.rxbusy
       Leuart.IEN Leuart.IF_ Leuart.STARTF Leuart.RXDATAV Leuart.SIGF
       Leuart.TXBL Leuart.TXC Leuart.CTRL_SFUBRX Leuart.STARTFRAME
       Leuart.SIGFRAME Leuart.received_str] in Hm.
  repeat (apply andb_prop in Hm; destruct Hm as [Hm ?]).
  destruct rs; try discriminate.
  repeat match goal with
         | H : negb ?b = true |- _ => apply negb_true_iff in H
         | H : (_ =? _) = true |- _ => apply Z.eqb_eq in H
         | H : (_ =? _)%nat = true |- _ => apply Nat.eqb_eq in H
         end.
  subst.
  exists v, rx, tx, st, cnt, s, ix, tb, buf, rc, sf, sg, f1, f2, e1, e2,
    rxd, txd, blk, idl.
  split; [reflexivity|].
  destruct f1, e1, f2, e2; try discriminate; repeat split; assumption.
Qed.

Ltac listening_cases m Hm :=
  let H1 := fresh "H1" in
  let H2 := fresh "H2" in
  let Hlen := fresh "Hlen" in
  destruct (listening_inv m Hm)
    as (v & rx & tx & st & cnt & s & ix & tb & buf0 & rc & sf & sg &
        f1 & f2 & e1 & e2 & rxd0 & txd & blk & idl & -> & H1 & H2 & Hlen);
  destruct f1, e1; try discriminate H1;
  destruct f2, e2; try discriminate H2;
  clear H1 H2.

Ltac rx_run :=
  cbv -[upd u8 u32 Z.of_nat Z.to_nat Z.add Z.lor Z.eqb].

(** Bytes other than the start marker, arriving while the receiver
    listens behind RXBLOCK, are dropped. *)
Lemma rx_blocked_byte (h : app_h) (m : Leuart.machine) (b : Z) :
  Leuart.listening m = true ->
  Leuart.STATUS_RXBLOCK (Leuart.LEUART0 m) = true ->
  b <> Leuart.STARTF_CHAR ->
  Leuart.interrupt h (Leuart.RxFrame b) m = Ok m.
Proof.
  intros Hm Hblk Hb.
  apply Z.eqb_neq in Hb. unfold Leuart.STARTF_CHAR in Hb.
  listening_cases m Hm; cbn in Hblk; subst blk;
    unfold Leuart.interrupt, Leuart.line;
    cbn [Leuart.LEUART0 Leuart.CTRL_SFUBRX Leuart.STARTFRAME
         Leuart.STATUS_RXBLOCK andb negb];
    rewrite Hb; cbn [andb negb]; reflexivity.
Qed.

Lemma rx_blocked_bytes (h : app_h) (m : Leuart.machine) (noise : list Z) :
  Leuart.listening m = true ->
  Leuart.STATUS_RXBLOCK (Leuart.LEUART0 m) = true ->
  Forall (fun b => b <> Leuart.STARTF_CHAR) noise ->
  Leuart.interrupts h (map Leuart.RxFrame noise) m = Ok m.
Proof.
  intros Hm Hblk Hn. induction Hn as [|b noise Hb _ IH]; [reflexivity|].
  cbn [map Leuart.interrupts].
  rewrite (rx_blocked_byte h m b Hm Hblk Hb). exact IH.
Qed.

(** The start marker takes the listening receiver into the frame, and is
    itself the first char stored. *)
Lemma rx_start_marker (h : app_h) (m : Leuart.machine) :
  Leuart.listening m = true ->
  Leuart.interrupt h (Leuart.RxFrame Leuart.STARTF_CHAR) m
    = Ok (receiving m
            (upd 0 Leuart.STARTF_CHAR
               (Leuart.received_str (Leuart.lePayload m)))
            1 Leuart.STARTF_CHAR).
Proof.
  intros Hm.
  listening_cases m Hm; destruct blk; vm_compute; reflexivity.
Qed.

(** Inside the frame, a byte that is no marker is stored at the count. *)
Lemma rx_payload_byte (h : app_h) (m : Leuart.machine) (buf : list Z)
  (k : nat) (rxd b : Z) :
  Leuart.listening m = true ->
  0 <= b < 256 -> b <> Leuart.STARTF_CHAR -> b <> Leuart.SIGF_CHAR ->
  Z.of_nat k + 1 < 2 ^ 32 ->
  Leuart.interrupt h (Leuart.RxFrame b) (receiving m buf k rxd)
    = Ok (receiving m (upd k b buf) (S k) b).
Proof.
  intros Hm Hb H35 H63 Hk.
  apply Z.eqb_neq in H35, H63.
  unfold Leuart.STARTF_CHAR in H35. unfold Leuart.SIGF_CHAR in H63.
  assert (Hu8 : u8 b = b) by (unfold u8; apply Z.mod_small; lia).
  assert (Hu32 : u32 (Z.of_nat k + 1) = Z.of_nat (S k))
    by (unfold u32; rewrite Z.mod_small; lia).
  listening_cases m Hm;
    unfold Leuart.interrupt, Leuart.line, receiving;
    cbn [Leuart.LEUART0 Leuart.lePayload Leuart.IF_ Leuart.IEN
         Leuart.CTRL_SFUBRX Leuart.STARTFRAME Leuart.SIGFRAME
         Leuart.STATUS_RXBLOCK Leuart.TXBL Leuart.TXC Leuart.STARTF
         Leuart.RXDATAV Leuart.SIGF Leuart.TXDATA Leuart.STATUS_TXIDLE
         andb negb orb];
    rewrite H35, H63; rx_run;
    rewrite Hu8, Hu32, Nat2Z.id; reflexivity.
Qed.

(** The stop marker is stored too, then the NUL, the event is posted and
    the receiver is idle behind RXBLOCK again. *)
Lemma rx_stop_marker (h : app_h) (m : Leuart.machine) (buf : list Z)
  (k : nat) (rxd : Z) :
  Leuart.listening m = true ->
  Z.of_nat k + 2 < 2 ^ 32 ->
  Leuart.interrupt h (Leuart.RxFrame Leuart.SIGF_CHAR) (receiving m buf k rxd)
    = Ok (frame_stored h m
            (upd (S k) 0 (upd k Leuart.SIGF_CHAR buf)) (S (S k))).
Proof.
  intros Hm Hk.
  assert (Hu32 : u32 (Z.of_nat k + 1) = Z.of_nat (S k))
    by (unfold u32; rewrite Z.mod_small; lia).
  assert (Hu32' : u32 (Z.of_nat (S k) + 1) = Z.of_nat (S (S k)))
    by (unfold u32; rewrite Z.mod_small; lia).
  destruct h as [e0 e1' e2' e3 e4 e5].
  listening_cases m Hm;
    cbv -[upd u8 u32 Z.of_nat Z.to_nat Z.add Z.lor];
    change (u8 63) with 63;
    rewrite Hu32, Nat2Z.id, Hu32', Nat2Z.id; reflexivity.
Qed.

(** A second start marker inside a frame halts the driver. *)
Lemma rx_nested_start_marker (h : app_h) (m : Leuart.machine)
  (buf : list Z) (k : nat) (rxd : Z) :
  Leuart.listening m = true ->
  Leuart.interrupt h (Leuart.RxFrame Leuart.STARTF_CHAR)
    (receiving m buf k rxd) = Fault.
Proof.
  intros Hm.
  listening_cases m Hm;
    cbv -[upd u8 u32 Z.of_nat Z.to_nat Z.add Z.lor]; reflexivity.
Qed.

Lemma leuart_interrupts_app (h : app_h) (a b : list Leuart.line_event)
  (m : Leuart.machine) :
  Leuart.interrupts h (a ++ b) m
    = (m' <- Leuart.interrupts h a m ;; Leuart.interrupts h b m').
Proof.
  revert m; induction a as [|ev a IH]; intros m; [reflexivity|].
  cbn [app Leuart.interrupts].
  destruct (Leuart.interrupt h ev m); cbn [bind]; auto.
Qed.

Lemma store_app {A : Type} (a b : list A) :
  forall (i : nat) (l : list A),
    Leuart.store i (a ++ b) l
      = Leuart.store (i + length a) b (Leuart.store i a l).
Proof.
  induction a as [|x a IH]; intros i l; cbn [app Leuart.store length].
  - rewrite Nat.add_0_r. reflexivity.
  - rewrite IH. f_equal. lia.
Qed.

Lemma strlen_prefix (pre rest : list Z) :
  Forall (fun b => b <> 0) pre ->
  strlen (pre ++ 0 :: rest) = length pre.
Proof.
  intros Hp. induction Hp as [|b pre Hb _ IH]; [reflexivity|].
  cbn [app strlen length].
  apply Z.eqb_neq in Hb. rewrite Hb, IH. reflexivity.
Qed.

Lemma rx_payload (h : app_h) (m : Leuart.machine) (payload : list Z) :
  forall (buf : list Z) (k : nat) (rxd : Z),
    Leuart.listening m = true ->
    Forall (fun b => 0 <= b < 256 /\ b <> Leuart.STARTF_CHAR /\
                     b <> Leuart.SIGF_CHAR) payload ->
    Z.of_nat (k + length payload) < 2 ^ 32 ->
    Leuart.interrupts h (map Leuart.RxFrame payload) (receiving m buf k rxd)
      = Ok (receiving m (Leuart.store k payload buf) (k + length payload)
              (last (rxd :: payload) 0)).
Proof.
  induction payload as [|b rest IH]; intros buf k rxd Hm Hok Hk.
  - cbn [map Leuart.interrupts Leuart.store length last].
    rewrite Nat.add_0_r. reflexivity.
  - inversion Hok as [|? ? (Hb & H35 & H63) Hrest]; subst.
    cbn [map Leuart.interrupts Leuart.store].
    simpl length in Hk |- *.
    rewrite rx_payload_byte by (try assumption; lia).
    cbn [bind].
    rewrite IH by (try assumption; lia).
    replace (S k + length rest)%nat with (k + S (length rest))%nat by lia.
    reflexivity.
Qed.

Lemma listening_frame_stored (h : app_h) (m : Leuart.machine)
  (buf : list Z) (k : nat) :
  Leuart.listening m = true ->
  length buf = 80%nat ->
  Leuart.listening (frame_stored h m buf k) = true.
Proof.
  intros Hm Hbuf.
  listening_cases m Hm;
    unfold Leuart.listening, frame_stored;
    cbn [Leuart.lePayload Leuart.LEUART0 Leuart.received_str];
    rewrite Hbuf; reflexivity.
Qed.

(** The bytes on the line that reach the buffer are those of the frame,
    markers included: what arrives before the start marker and after the
    stop marker is dropped, as [leuart_rx_test] expects of
    "Hello#Test4U?\nRXTestPass...". *)
Lemma rx_frame (h : app_h) (m : Leuart.machine)
  (before payload after : list Z) :
  Leuart.listening m = true ->
  Leuart.STATUS_RXBLOCK (Leuart.LEUART0 m) = true ->
  Forall (fun b => b <> Leuart.STARTF_CHAR) before ->
  Forall (fun b => b <> Leuart.STARTF_CHAR) after ->
  Forall (fun b => 0 <= b < 256 /\ b <> Leuart.STARTF_CHAR /\
                   b <> Leuart.SIGF_CHAR) payload ->
  (length payload + 3 <= 80)%nat ->
  Leuart.interrupts h
    (map Leuart.RxFrame (before ++ frame payload ++ after)) m
    = Ok (frame_stored h m
            (Leuart.store 0 (frame payload ++ [0])
               (Leuart.received_str (Leuart.lePayload m)))
            (length payload + 3)).
Proof.
  intros Hm Hblk Hbefore Hafter Hok Hlen.
  assert (Hbuf : length (Leuart.received_str (Leuart.lePayload m)) = 80%nat).
  { destruct (listening_inv m Hm)
      as (v & rx & tx & st & cnt & s & ix & tb & buf0 & rc & sf & sg &
          f1 & f2 & e1 & e2 & rxd0 & txd & blk & idl & -> & _ & _ & Hl).
    exact Hl. }
  unfold frame.
  rewrite !map_app.
  rewrite leuart_interrupts_app, rx_blocked_bytes by assumption.
  cbn [bind].
  rewrite leuart_interrupts_app.
  change (map Leuart.RxFrame [Leuart.STARTF_CHAR] ++
          map Leuart.RxFrame payload ++ map Leuart.RxFrame [Leuart.SIGF_CHAR])
    with (Leuart.RxFrame Leuart.STARTF_CHAR ::
          (map Leuart.RxFrame payload ++ [Leuart.RxFrame Leuart.SIGF_CHAR])).
  cbn [Leuart.interrupts].
  rewrite rx_start_marker by assumption. cbn [bind].
  rewrite leuart_interrupts_app, rx_payload by (try assumption; lia).
  cbn [bind Leuart.interrupts].
  rewrite rx_stop_marker by (try assumption; lia). cbn [bind].
  rewrite rx_blocked_bytes;
    [ | apply listening_frame_stored;
        [assumption | rewrite !upd_length, store_length, upd_length;
                      exact Hbuf]
      | reflexivity | assumption ].
  f_equal. f_equal; [|lia].
  unfold frame.
  change ([Leuart.STARTF_CHAR] ++ payload ++ [Leuart.SIGF_CHAR])
    with (Leuart.STARTF_CHAR :: (payload ++ [Leuart.SIGF_CHAR])).
  rewrite <- app_comm_cons, <- app_assoc.
  cbn [Leuart.store].
  rewrite store_app. cbn [app Leuart.store].
  reflexivity.
Qed.

Lemma skipn_upd {A : Type} (v : A) (l : list A) :
  forall i n : nat, (i < n)%nat -> skipn n (upd i v l) = skipn n l.
Proof.
  induction l as [|x l IH]; intros i n Hin.
  - destruct i; reflexivity.
  - destruct n as [|n]; [lia|].
    destruct i as [|i]; cbn [upd skipn]; [reflexivity|].
    apply IH. lia.
Qed.

Lemma store_skipn {A : Type} (vs : list A) :
  forall (i : nat) (a : list A),
    skipn (i + length vs) (Leuart.store i vs a) = skipn (i + length vs) a.
Proof.
  induction vs as [|v vs IH]; intros i a; cbn [Leuart.store length];
    [reflexivity|].
  replace (i + S (length vs))%nat with (S i + length vs)%nat by lia.
  rewrite IH. apply skipn_upd. lia.
Qed.

(** A frame on the line, with whatever comes before its start marker and
    after its stop marker: the buffer receives the frame, both markers
    included, and a NUL, and keeps its old content behind them; one
    rx-done event is posted; nothing is transmitted and the sleep table
    is as before; the receiver is listening behind RXBLOCK again, so that
    the next frame is received the same way. *)
Theorem leuart_frame_received (h : app_h) (m : Leuart.machine)
  (before payload after : list Z)
  (Hm : Leuart.listening m = true)
  (Hblk : Leuart.STATUS_RXBLOCK (Leuart.LEUART0 m) = true)
  (Hbefore : Forall (fun b => b <> Leuart.STARTF_CHAR) before)
  (Hafter : Forall (fun b => b <> Leuart.STARTF_CHAR) after)
  (Hpayload : Forall (fun b => 0 <= b < 256 /\ b <> Leuart.STARTF_CHAR /\
                               b <> Leuart.SIGF_CHAR) payload)
  (Hlen : (length payload + 3 <= 80)%nat) :
  exists m',
    Leuart.interrupts h
      (map Leuart.RxFrame (before ++ frame payload ++ after)) m = Ok m' /\
    firstn (length payload + 3) (Leuart.received_str (Leuart.lePayload m'))
      = frame payload ++ [0] /\
    skipn (length payload + 3) (Leuart.received_str (Leuart.lePayload m'))
      = skipn (length payload + 3)
          (Leuart.received_str (Leuart.lePayload m)) /\
    (Forall (fun b => b <> 0) payload ->
     Leuart.received_message m' = frame payload) /\
    Leuart.rx_count (Leuart.lePayload m') = Z.of_nat (length payload + 3) /\
    posted_events (Leuart.svc m')
      = posted_events (Leuart.svc m) ++ [LEUART_RX_EVT h] /\
    sleep (Leuart.svc m') = sleep (Leuart.svc m) /\
    Leuart.TXDATA (Leuart.LEUART0 m') = Leuart.TXDATA (Leuart.LEUART0 m) /\
    Leuart.listening m' = true /\
    Leuart.STATUS_RXBLOCK (Leuart.LEUART0 m') = true.
Proof.
  assert (Hbuf : length (Leuart.received_str (Leuart.lePayload m)) = 80%nat).
  { destruct (listening_inv m Hm)
      as (v & rx & tx & st & cnt & s & ix & tb & buf0 & rc & sf & sg &
          f1 & f2 & e1 & e2 & rxd0 & txd & blk & idl & -> & _ & _ & Hl).
    exact Hl. }
  assert (Hfl : length (frame payload ++ [0]) = (length payload + 3)%nat).
  { unfold frame. rewrite !length_app. simpl length. lia. }
  eexists. split; [apply rx_frame; assumption|].
  unfold frame_stored.
  cbn [Leuart.lePayload Leuart.received_str Leuart.rx_count Leuart.svc
       Leuart.LEUART0 Leuart.TXDATA Leuart.STATUS_RXBLOCK].
  set (buf := Leuart.store 0 (frame payload ++ [0])
                (Leuart.received_str (Leuart.lePayload m))).
  assert (Hfirst : firstn (length payload + 3) buf = frame payload ++ [0]).
  { rewrite <- Hfl. apply store_firstn. rewrite Hfl, Hbuf. exact Hlen. }
  split; [exact Hfirst|].
  split.
  { rewrite <- Hfl. apply (store_skipn (frame payload ++ [0]) 0). }
  split.
  { intros Hnz. unfold Leuart.received_message.
    cbn [Leuart.lePayload Leuart.received_str]. fold buf.
    assert (Hsplit : buf = frame payload ++
                           0 :: skipn (length payload + 3) buf).
    { rewrite <- (firstn_skipn (length payload + 3) buf) at 1.
      rewrite Hfirst, <- app_assoc. reflexivity. }
    assert (Hfr : Forall (fun b => b <> 0) (frame payload)).
    { unfold frame. apply Forall_app.
      split; [repeat constructor; discriminate|].
      apply Forall_app. split; [exact Hnz|repeat constructor; discriminate]. }
    rewrite Hsplit, (strlen_prefix _ _ Hfr).
    rewrite firstn_app, firstn_all, Nat.sub_diag. cbn [firstn].
    apply app_nil_r. }
  split; [reflexivity|].
  split; [reflexivity|].
  split; [reflexivity|].
  split; [reflexivity|].
  split; [|reflexivity].
  apply (listening_frame_stored h m buf (length payload + 3) Hm).
  unfold buf. rewrite store_length. exact Hbuf.
Qed.

Lemma leuart_frame_received_witness :
  exists m',
    Leuart.interrupts app_h_bits
      (map Leuart.RxFrame
         ([72; 101; 108; 108; 111] ++ frame [84; 101; 115; 116; 52; 85] ++
          [10; 82; 88; 84; 101; 115; 116; 80; 97; 115; 115; 46; 46; 46]))
      leuart_opened = Ok m' /\
    Leuart.received_message m' = [35; 84; 101; 115; 116; 52; 85; 63].
Proof.
  destruct (leuart_frame_received app_h_bits
              leuart_opened
              [72; 101; 108; 108; 111] [84; 101; 115; 116; 52; 85]
              [10; 82; 88; 84; 101; 115; 116; 80; 97; 115; 115; 46; 46; 46]
              eq_refl eq_refl)
    as (m' & H1 & _ & _ & H4 & _).
  - repeat constructor; discriminate.
  - repeat constructor; discriminate.
  - repeat constructor; (lia || discriminate).
  - simpl. lia.
  - exists m'. split; [exact H1|].
    apply H4. repeat constructor; discriminate.
Defined.

(** A start marker inside a frame halts the driver, whatever the frame
    held so far: the handler takes the start interrupt in its receive
    state ("#Te#st?" in the source's words). *)
Theorem leuart_nested_start_marker_halts (h : app_h) (m : Leuart.machine)
  (payload rest : list Z)
  (Hm : Leuart.listening m = true)
  (Hpayload : Forall (fun b => 0 <= b < 256 /\ b <> Leuart.STARTF_CHAR /\
                               b <> Leuart.SIGF_CHAR) payload)
  (Hlen : Z.of_nat (length payload) + 1 < 2 ^ 32) :
  Leuart.interrupts h
    (map Leuart.RxFrame
       ([Leuart.STARTF_CHAR] ++ payload ++ [Leuart.STARTF_CHAR] ++ rest)) m
    = Fault.
Proof.
  rewrite !map_app.
  change (map Leuart.RxFrame [Leuart.STARTF_CHAR] ++
          map Leuart.RxFrame payload ++
          map Leuart.RxFrame [Leuart.STARTF_CHAR] ++ map Leuart.RxFrame rest)
    with (Leuart.RxFrame Leuart.STARTF_CHAR ::
          (map Leuart.RxFrame payload ++
           (Leuart.RxFrame Leuart.STARTF_CHAR :: map Leuart.RxFrame rest))).
  cbn [Leuart.interrupts].
  rewrite rx_start_marker by assumption. cbn [bind].
  rewrite leuart_interrupts_app, rx_payload by (try assumption; lia).
  cbn [bind Leuart.interrupts].
  rewrite rx_nested_start_marker by assumption. reflexivity.
Qed.

Lemma leuart_nested_start_marker_halts_witness :
  Leuart.interrupts app_h_bits
    (map Leuart.RxFrame
       ([Leuart.STARTF_CHAR] ++ [84; 101] ++ [Leuart.STARTF_CHAR] ++
        [115; 116; 63]))
    leuart_opened
    = Fault.
Proof.
  apply (leuart_nested_start_marker_halts app_h_bits leuart_opened
           [84; 101] [115; 116; 63] eq_refl).
  - repeat constructor; (lia || discriminate).
  - simpl. lia.
Defined.

(** ** The link receiver: the busy flag *)

Lemma guarded_inv (P : Leuart.machine -> Prop) (c : bool)
  (f : Leuart.machine -> result Leuart.machine) (m m' : Leuart.machine) :
  (forall a b, P a -> f a = Ok b -> P b) ->
  P m ->
  (if c then f m else Ok m) = Ok m' ->
  P m'.
Proof.
  intros Hf Hm. destruct c; intros H.
  - exact (Hf _ _ Hm H).
  - injection H as <-. exact Hm.
Qed.

Lemma TXBL_rx_consistent (m m' : Leuart.machine) :
  rx_consistent m = true ->
  Leuart.TXBL_Interrupt m = Ok m' -> rx_consistent m' = true.
Proof.
  unfold Leuart.TXBL_Interrupt. intros Hm.
  destruct (Leuart.state (Leuart.lePayload m)); try discriminate.
  destruct (0 <? Leuart.count (Leuart.lePayload m));
    match goal with
    | |- (if ?c then _ else _) = _ -> _ => destruct c
    end; intros H; injection H as <-; exact Hm.
Qed.

Lemma TXC_rx_consistent (m m' : Leuart.machine) :
  rx_consistent m = true ->
  Leuart.TXC_Interrupt m = Ok m' -> rx_consistent m' = true.
Proof.
  unfold Leuart.TXC_Interrupt. intros Hm.
  destruct (Leuart.state (Leuart.lePayload m)); try discriminate.
  destruct (sleep_unblock_mode _ _) as [v|]; cbn [bind]; [|discriminate].
  intros H; injection H as <-; exact Hm.
Qed.

Lemma STARTF_rx_consistent (m m' : Leuart.machine) :
  rx_consistent m = true ->
  Leuart.STARTF_Interrupt m = Ok m' -> rx_consistent m' = true.
Proof.
  unfold Leuart.STARTF_Interrupt, rx_consistent, Leuart.leuart_rx_busy.
  intros Hm.
  destruct (Leuart.rx_state (Leuart.lePayload m)); try discriminate.
  rewrite Hm. cbn [bind].
  intros H; injection H as <-; reflexivity.
Qed.

Lemma RXDATAV_rx_consistent (m m' : Leuart.machine) :
  rx_consistent m = true ->
  Leuart.RXDATAV_Interrupt m = Ok m' -> rx_consistent m' = true.
Proof.
  unfold Leuart.RXDATAV_Interrupt, rx_consistent, Leuart.leuart_rx_busy.
  intros Hm.
  destruct (Leuart.rx_state (Leuart.lePayload m)); try discriminate;
    intros H; injection H as <-; exact Hm.
Qed.

Lemma SIGF_rx_consistent (h : app_h) (m m' : Leuart.machine) :
  rx_consistent m = true ->
  Leuart.SIGF_Interrupt h m = Ok m' -> rx_consistent m' = true.
Proof.
  unfold Leuart.SIGF_Interrupt, rx_consistent, Leuart.leuart_rx_busy.
  intros Hm.
  destruct (Leuart.rx_state (Leuart.lePayload m)); try discriminate;
    intros H; injection H as <-; reflexivity.
Qed.

Lemma IRQHandler_rx_consistent (h : app_h) (m m' : Leuart.machine) :
  rx_consistent m = true ->
  Leuart.LEUART0_IRQHandler h m = Ok m' ->
  rx_consistent m' = true.
Proof.
  intros Hm. unfold Leuart.LEUART0_IRQHandler.
  set (m0 := Leuart.set_LEUART0 _ m).
  assert (H0 : rx_consistent m0 = true) by exact Hm.
  clearbody m0.
  destruct (if Leuart.TXBL _ then _ else _) as [m1|] eqn:E1; cbn [bind];
    [|discriminate].
  apply (guarded_inv (fun a => rx_consistent a = true) _ _ _ _
           TXBL_rx_consistent H0) in E1.
  destruct (if Leuart.TXC _ then _ else _) as [m2|] eqn:E2; cbn [bind];
    [|discriminate].
  apply (guarded_inv (fun a => rx_consistent a = true) _ _ _ _
           TXC_rx_consistent E1) in E2.
  destruct (if Leuart.STARTF _ then _ else _) as [m3|] eqn:E3; cbn [bind];
    [|discriminate].
  apply (guarded_inv (fun a => rx_consistent a = true) _ _ _ _
           STARTF_rx_consistent E2) in E3.
  destruct (if Leuart.RXDATAV _ then _ else _) as [m4|] eqn:E4; cbn [bind];
    [|discriminate].
  apply (guarded_inv (fun a => rx_consistent a = true) _ _ _ _
           RXDATAV_rx_consistent E3) in E4.
  exact (guarded_inv (fun a => rx_consistent a = true) _ _ _ _
           (SIGF_rx_consistent h) E4).
Qed.

Lemma service_rx_consistent (h : app_h) (fuel : nat) :
  forall m m' : Leuart.machine,
    rx_consistent m = true ->
    Leuart.service h fuel m = Ok m' ->
    rx_consistent m' = true.
Proof.
  induction fuel as [|fuel IH]; intros m m' Hm; cbn [Leuart.service].
  - intros H; injection H as <-. exact Hm.
  - destruct (Leuart.irq_pending m).
    + destruct (Leuart.LEUART0_IRQHandler h m) as [m1|] eqn:E; cbn [bind];
        [|discriminate].
      apply IH. exact (IRQHandler_rx_consistent h m m1 Hm E).
    + intros H; injection H as <-. exact Hm.
Qed.

Lemma call_rx_consistent (h : app_h) (c : leuart_call)
  (m m' : Leuart.machine) :
  rx_consistent m = true ->
  leuart_call_run h c m = Ok m' ->
  rx_consistent m' = true.
Proof.
  intros Hm. destruct c as [string string_len|ev]; cbn [leuart_call_run].
  - unfold Leuart.leuart_start.
    destruct (sleep_block_mode _ _) as [v|]; cbn [bind]; [|discriminate].
    intros H; injection H as <-. exact Hm.
  - unfold Leuart.interrupt. apply service_rx_consistent. exact Hm.
Qed.

(** From [leuart_open] on, whatever transmissions are started and whatever
    happens on the line, for as long as the driver has not halted and
    every store has fallen inside the 80 cells of [str] and
    [received_str] (strings of fewer than 80 chars, frames that leave two
    cells free for the stop marker and the NUL): [leuart_rx_busy] is false
    when the receiver is idle and true inside a frame, and the receiver
    is never in its state [done]. *)
Theorem leuart_rx_busy_tracks_the_frame (h : app_h) (cs : list leuart_call)
  (m0 m m' : Leuart.machine)
  (Hstr : length (Leuart.str (Leuart.lePayload m0)) = 80%nat)
  (Hrcv : length (Leuart.received_str (Leuart.lePayload m0)) = 80%nat)
  (Hopen : Leuart.leuart_open h m0 = Ok m)
  (Hbounds : calls_in_bounds h cs m = true)
  (Hrun : leuart_calls h cs m = Ok m') :
  rx_consistent m' = true /\
  Leuart.rx_state (Leuart.lePayload m') <> Leuart.done /\
  (Leuart.leuart_rx_busy m' = false <->
   Leuart.rx_state (Leuart.lePayload m') = Leuart.idle).
Proof.
  clear Hstr Hrcv Hbounds.
  assert (Hm : rx_consistent m = true).
  { unfold Leuart.leuart_open in Hopen.
    destruct (sleep_block_mode _ _) as [v|]; cbn [bind] in Hopen;
      [|discriminate].
    injection Hopen as <-. reflexivity. }
  clear Hopen.
  assert (H : rx_consistent m' = true).
  { revert m Hm Hrun. induction cs as [|c cs IH]; intros m Hm Hrun.
    - injection Hrun as <-. exact Hm.
    - cbn [leuart_calls] in Hrun.
      destruct (leuart_call_run h c m) as [m1|] eqn:E; cbn [bind] in Hrun;
        [|discriminate].
      exact (IH m1 (call_rx_consistent h c m m1 Hm E) Hrun). }
  split; [exact H|].
  unfold rx_consistent in H.
  destruct (Leuart.rx_state (Leuart.lePayload m')),
    (Leuart.leuart_rx_busy m'); try discriminate;
    (split; [discriminate | split; (reflexivity || discriminate)]).
Qed.

Lemma leuart_rx_busy_tracks_the_frame_witness :
  exists m',
    leuart_calls app_h_bits
      [CallLine (Leuart.RxFrame 35); CallStart [72; 105; 0] 2;
       CallLine (Leuart.RxFrame 70)] leuart_opened = Ok m' /\
    rx_consistent m' = true /\
    Leuart.rx_state (Leuart.lePayload m') <> Leuart.done.
Proof.
  eexists.
  split; [vm_compute; reflexivity|].
  match goal with
  | |- rx_consistent ?m' = true /\ _ =>
      destruct (leuart_rx_busy_tracks_the_frame app_h_bits
                  [CallLine (Leuart.RxFrame 35); CallStart [72; 105; 0] 2;
                   CallLine (Leuart.RxFrame 70)]
                  leuart_at_reset leuart_opened m')
        as (H1 & H2 & _);
        [ reflexivity | reflexivity | vm_compute; reflexivity
        | vm_compute; reflexivity | vm_compute; reflexivity |]
  end.
  split; [exact H1 | exact H2].
Defined.

(** ** The link transmitter *)

(** One pass of the handler that leaves no interrupt pending is all that
    [service] does. *)
Lemma service_one (h : app_h) (fuel : nat) (m m1 : Leuart.machine) :
  Leuart.irq_pending m = true ->
  Leuart.LEUART0_IRQHandler h m = Ok m1 ->
  Leuart.irq_pending m1 = false ->
  Leuart.service h (S (S fuel)) m = Ok m1.
Proof.
  intros Hp Hh Hq. cbn [Leuart.service]. rewrite Hp, Hh. cbn [bind].
  rewrite Hq. reflexivity.
Qed.

Lemma service_none (h : app_h) (fuel : nat) (m : Leuart.machine) :
  Leuart.irq_pending m = false ->
  Leuart.service h fuel m = Ok m.
Proof.
  intros Hp. destruct fuel; cbn [Leuart.service]; [reflexivity|].
  rewrite Hp. reflexivity.
Qed.

Lemma tx_bytes_S (s : list Z) (k : nat) :
  tx_bytes s (S k) = tx_bytes s k ++ [u8 (nth k s 0)].
Proof.
  unfold tx_bytes. rewrite seq_S, map_app. reflexivity.
Qed.

(** A listening link whose transmit buffer is empty, field by field. *)
Lemma tx_ready_inv (m : Leuart.machine) :
  Leuart.listening m = true ->
  Leuart.TXBL (Leuart.IF_ (Leuart.LEUART0 m)) = true ->
  length (sleep (Leuart.svc m)) = Sleep.MAX_ENERGY_MODES ->
  exists sc n0 n1 n2 n3 n4 rx tx st cnt s ix tb buf rc sf sg f2 e2 rxd txd
         blk idl,
    m = Leuart.mk_machine (mk_services sc [n0; n1; n2; n3; n4]) rx tx
          (Leuart.mk_payload st cnt s ix tb Leuart.idle buf rc sf sg false)
          (Leuart.mk_regs (Leuart.mk_flags true f2 false false false)
             (Leuart.mk_flags false e2 true false false)
             rxd txd blk idl true 35 63) /\
    f2 && e2 = false /\ length buf = 80%nat.
Proof.
  intros Hm Hbl Htb.
  destruct (listening_inv m Hm)
    as (v & rx & tx & st & cnt & s & ix & tb & buf0 & rc & sf & sg &
        f1 & f2 & e1 & e2 & rxd0 & txd & blk & idl & -> & H1 & H2 & Hlen).
  cbn in Hbl, Htb. subst f1.
  destruct e1; [discriminate|].
  destruct v as [sc t].
  cbn in Htb.
  do 5 (destruct t as [|? t]; [discriminate|]).
  destruct t; [|discriminate].
  exists sc, n, n0, n1, n2, n3, rx, tx, st, cnt, s, ix, tb, buf0, rc, sf, sg,
    f2, e2, rxd0, txd, blk, idl.
  split; [reflexivity | split; [exact H2 | exact Hlen]].
Qed.

Ltac tx_ready_cases m Hm Hbl Htb :=
  let H2 := fresh "H2" in
  destruct (tx_ready_inv m Hm Hbl Htb)
    as (sc & n0 & n1 & n2 & n3 & n4 & rx & tx & st & cnt & s0 & ix & tb &
        buf0 & rc & sf & sg & f2 & e2 & rxd0 & txd & blk & idl & -> & H2 &
        Hbuf0);
  destruct f2, e2; try discriminate H2; clear H2 Hm Hbl Htb.

Ltac leuart_simpl :=
  unfold Leuart.enabled_flags, Leuart.write_IFC, Leuart.write_TXDATA,
    Leuart.set_IF, Leuart.set_IEN, Leuart.set_RXBLOCK, Leuart.set_LEUART0,
    Leuart.set_lePayload, Leuart.set_svc;
  cbn [Leuart.svc Leuart.rx_done_evt Leuart.tx_done_evt Leuart.lePayload
       Leuart.LEUART0 Leuart.state Leuart.count Leuart.str Leuart.index
       Leuart.txbusy Leuart.rx_state Leuart.received_str Leuart.rx_count
       Leuart.startf Leuart.sigf Leuart.rxbusy Leuart.TXBL Leuart.TXC
       Leuart.STARTF Leuart.RXDATAV Leuart.SIGF Leuart.IF_ Leuart.IEN
       Leuart.RXDATA Leuart.TXDATA Leuart.STATUS_RXBLOCK Leuart.STATUS_TXIDLE
       Leuart.CTRL_SFUBRX Leuart.STARTFRAME Leuart.SIGFRAME
       andb orb negb bind].

(** [leuart_start] arms the transmitter. *)
Lemma tx_start (m : Leuart.machine) (string : list Z) (n : nat) :
  Leuart.listening m = true ->
  Leuart.TXBL (Leuart.IF_ (Leuart.LEUART0 m)) = true ->
  length (sleep (Leuart.svc m)) = Sleep.MAX_ENERGY_MODES ->
  Leuart.leuart_start string (Z.of_nat n) m
    = Ok (sending m (Leuart.strcpy (Leuart.str (Leuart.lePayload m)) string)
            n 0 true (Leuart.STATUS_TXIDLE (Leuart.LEUART0 m))).
Proof.
  intros Hm Hbl Htb.
  tx_ready_cases m Hm Hbl Htb;
    unfold sending; rewrite Nat.sub_0_r;
    cbv -[Leuart.strcpy Z.of_nat app]; rewrite app_nil_r; reflexivity.
Qed.

(** With the transmit buffer empty, the handler writes the next char;
    after the last one it waits for the transmission to complete. *)
Lemma tx_write (h : app_h) (m : Leuart.machine) (s : list Z) (n k : nat)
  (idle : bool) :
  Leuart.listening m = true ->
  Leuart.TXBL (Leuart.IF_ (Leuart.LEUART0 m)) = true ->
  length (sleep (Leuart.svc m)) = Sleep.MAX_ENERGY_MODES ->
  (k < n)%nat ->
  Z.of_nat n < 2 ^ 32 ->
  Leuart.service h Leuart.service_fuel (sending m s n k true idle)
    = Ok (tx_after m s n k).
Proof.
  intros Hm Hbl Htb Hk Hn.
  assert (Hpos : (0 <? Z.of_nat (n - k)) = true) by (apply Z.ltb_lt; lia).
  assert (Hcnt : u32 (Z.of_nat (n - k) - 1) = Z.of_nat (n - S k))
    by (unfold u32; rewrite Z.mod_small; lia).
  assert (Hidx : u32 (Z.of_nat k + 1) = Z.of_nat (S k))
    by (unfold u32; rewrite Z.mod_small; lia).
  unfold Leuart.service_fuel, tx_after.
  destruct (Nat.ltb_spec (S k) n) as [Hlt|Hge].
  - assert (Hnz : (Z.of_nat (n - S k) =? 0) = false)
      by (apply Z.eqb_neq; lia).
    tx_ready_cases m Hm Hbl Htb;
      (apply service_one;
       [ reflexivity
       | unfold Leuart.LEUART0_IRQHandler, sending; leuart_simpl;
         unfold Leuart.TXBL_Interrupt; leuart_simpl;
         rewrite Hpos; leuart_simpl;
         rewrite Hcnt, Hidx, Nat2Z.id, Hnz, tx_bytes_S, app_assoc;
         reflexivity
       | reflexivity ]).
  - assert (Hz : Z.of_nat (n - S k) = 0) by lia.
    assert (Hkn : S k = n) by lia.
    tx_ready_cases m Hm Hbl Htb;
      (apply service_one;
       [ reflexivity
       | unfold Leuart.LEUART0_IRQHandler, sending, sent; leuart_simpl;
         unfold Leuart.TXBL_Interrupt; leuart_simpl;
         rewrite Hpos; leuart_simpl;
         rewrite Hcnt, Hidx, Nat2Z.id, Hz, <- Hkn, tx_bytes_S, app_assoc;
         reflexivity
       | reflexivity ]).
Qed.

(** The buffer emptying raises TXBL. *)
Lemma tx_buffer_empty_sending (h : app_h) (m : Leuart.machine) (s : list Z)
  (n k : nat) (idle : bool) :
  Leuart.interrupt h Leuart.TxBufferEmpty (sending m s n k false idle)
    = Leuart.service h Leuart.service_fuel (sending m s n k true idle).
Proof. reflexivity. Qed.

Lemma tx_buffer_empty_sent (h : app_h) (m : Leuart.machine) (s : list Z)
  (n : nat) :
  Leuart.listening m = true ->
  Leuart.TXBL (Leuart.IF_ (Leuart.LEUART0 m)) = true ->
  length (sleep (Leuart.svc m)) = Sleep.MAX_ENERGY_MODES ->
  Leuart.interrupt h Leuart.TxBufferEmpty (sent m s n false)
    = Ok (sent m s n true).
Proof.
  intros Hm Hbl Htb. unfold Leuart.interrupt.
  tx_ready_cases m Hm Hbl Htb; apply service_none; reflexivity.
Qed.

(** The transmission completing ends it. *)
Lemma tx_complete (h : app_h) (m : Leuart.machine) (s : list Z) (n : nat) :
  Leuart.listening m = true ->
  Leuart.TXBL (Leuart.IF_ (Leuart.LEUART0 m)) = true ->
  length (sleep (Leuart.svc m)) = Sleep.MAX_ENERGY_MODES ->
  Leuart.interrupt h Leuart.TxComplete (sent m s n true)
    = Ok (tx_finished m s n).
Proof.
  intros Hm Hbl Htb. unfold Leuart.interrupt, Leuart.service_fuel.
  tx_ready_cases m Hm Hbl Htb;
    (apply service_one;
     [ reflexivity
     | cbv -[Z.of_nat tx_bytes app Z.lor u32]; reflexivity
     | reflexivity ]).
Qed.

Lemma tx_after_busy (m : Leuart.machine) (s : list Z) (n j : nat) :
  Leuart.leuart_tx_busy (tx_after m s n j) = true.
Proof. unfold tx_after. destruct (S j <? n)%nat; reflexivity. Qed.

(** The chars go out one per buffer-empty event, and the loop on the busy
    flag runs through them. *)
Lemma tx_progress (h : app_h) (m : Leuart.machine) (s : list Z) (n : nat) :
  Leuart.listening m = true ->
  Leuart.TXBL (Leuart.IF_ (Leuart.LEUART0 m)) = true ->
  length (sleep (Leuart.svc m)) = Sleep.MAX_ENERGY_MODES ->
  Z.of_nat n < 2 ^ 32 ->
  forall j : nat, (j < n)%nat ->
    Leuart.interrupts h (repeat Leuart.TxBufferEmpty j) (tx_after m s n 0)
      = Ok (tx_after m s n j) /\
    forall rest,
      Ble.wait_tx h (repeat Leuart.TxBufferEmpty j ++ rest) (tx_after m s n 0)
        = Ble.wait_tx h rest (tx_after m s n j).
Proof.
  intros Hm Hbl Htb Hn.
  induction j as [|j IH]; intros Hj; [split; reflexivity|].
  destruct IH as [IH1 IH2]; [lia|].
  assert (Hstep : Leuart.interrupt h Leuart.TxBufferEmpty (tx_after m s n j)
                  = Ok (tx_after m s n (S j))).
  { unfold tx_after at 1.
    replace (S j <? n)%nat with true by (symmetry; apply Nat.ltb_lt; lia).
    rewrite tx_buffer_empty_sending.
    apply tx_write; try assumption. }
  change (repeat Leuart.TxBufferEmpty (S j))
    with (Leuart.TxBufferEmpty :: repeat Leuart.TxBufferEmpty j).
  rewrite repeat_cons.
  split.
  - rewrite leuart_interrupts_app, IH1. cbn [bind Leuart.interrupts].
    rewrite Hstep. reflexivity.
  - intros rest. rewrite <- app_assoc, IH2.
    cbn [app Ble.wait_tx].
    destruct rest; cbn [Ble.wait_tx]; rewrite tx_after_busy, Hstep;
      reflexivity.
Qed.

(** A whole transmission, from the first interrupt to the last. *)
Lemma tx_run (h : app_h) (m : Leuart.machine) (s : list Z) (n : nat) :
  Leuart.listening m = true ->
  Leuart.TXBL (Leuart.IF_ (Leuart.LEUART0 m)) = true ->
  length (sleep (Leuart.svc m)) = Sleep.MAX_ENERGY_MODES ->
  (1 <= n)%nat ->
  Z.of_nat n < 2 ^ 32 ->
  Leuart.interrupts h (tx_line n) (tx_after m s n 0)
    = Ok (tx_finished m s n) /\
  Ble.wait_tx h (tx_line n) (tx_after m s n 0) = inl (Ok (tx_finished m s n)).
Proof.
  intros Hm Hbl Htb H1 Hn.
  destruct (tx_progress h m s n Hm Hbl Htb Hn (n - 1)) as [P1 P2]; [lia|].
  assert (Hlast : tx_after m s n (n - 1) = sent m s n false).
  { unfold tx_after.
    replace (S (n - 1) <? n)%nat with false
      by (symmetry; apply Nat.ltb_ge; lia).
    reflexivity. }
  rewrite Hlast in P1, P2.
  unfold tx_line.
  assert (Hrep : repeat Leuart.TxBufferEmpty n
                 = repeat Leuart.TxBufferEmpty (n - 1)
                   ++ [Leuart.TxBufferEmpty]).
  { destruct n as [|n']; [lia|].
    replace (S n' - 1)%nat with n' by lia.
    cbn [repeat]. apply repeat_cons. }
  rewrite Hrep, <- app_assoc.
  split.
  - rewrite leuart_interrupts_app, P1. cbn [bind app Leuart.interrupts].
    rewrite tx_buffer_empty_sent by assumption. cbn [bind].
    rewrite tx_complete by assumption. reflexivity.
  - rewrite P2. cbn [app Ble.wait_tx].
    change (Leuart.leuart_tx_busy (sent m s n false)) with true. cbv iota.
    rewrite tx_buffer_empty_sent by assumption.
    change (Leuart.leuart_tx_busy (sent m s n true)) with true. cbv iota.
    rewrite tx_complete by assumption.
    reflexivity.
Qed.

Lemma strcpy_nth (dst src : list Z) (i : nat) :
  (i < strlen src)%nat ->
  (strlen src < length dst)%nat ->
  nth i (Leuart.strcpy dst src) 0 = nth i src 0.
Proof.
  intros Hi Hfit. unfold Leuart.strcpy.
  pose proof (strlen_le_length src) as Hle.
  assert (Hl : length (firstn (strlen src) src ++ [0]) = S (strlen src)).
  { rewrite length_app, length_firstn. simpl length. lia. }
  rewrite store_nth by (rewrite Hl; lia).
  rewrite Hl.
  replace ((0 <=? i)%nat && (i <? 0 + S (strlen src))%nat) with true
    by (symmetry; apply andb_true_iff; split;
        [apply Nat.leb_le | apply Nat.ltb_lt]; lia).
  rewrite Nat.sub_0_r, app_nth1 by (rewrite length_firstn; lia).
  rewrite nth_firstn.
  replace (i <? strlen src)%nat with true
    by (symmetry; apply Nat.ltb_lt; lia).
  reflexivity.
Qed.

Lemma tx_bytes_string (dst src : list Z) (n : nat) :
  (n <= strlen src)%nat ->
  (strlen src < length dst)%nat ->
  tx_bytes (Leuart.strcpy dst src) n = map u8 (firstn n src).
Proof.
  intros Hn Hfit. unfold tx_bytes.
  pose proof (strlen_le_length src) as Hle.
  change (firstn n src) with (firstn n (skipn 0 src)).
  rewrite (firstn_as_nth src 0 n) by lia.
  rewrite map_map. apply map_ext_in. intros i Hi.
  apply in_seq in Hi. rewrite strcpy_nth by lia. reflexivity.
Qed.

Lemma tx_finished_ready (m : Leuart.machine) (s : list Z) (n : nat) :
  Leuart.listening m = true ->
  Leuart.TXBL (Leuart.IF_ (Leuart.LEUART0 m)) = true ->
  length (sleep (Leuart.svc m)) = Sleep.MAX_ENERGY_MODES ->
  Leuart.listening (tx_finished m s n) = true /\
  Leuart.TXBL (Leuart.IF_ (Leuart.LEUART0 (tx_finished m s n))) = true /\
  sleep (Leuart.svc (tx_finished m s n)) = sleep (Leuart.svc m).
Proof.
  intros Hm Hbl Htb.
  tx_ready_cases m Hm Hbl Htb;
    (split; [|split; reflexivity]);
    unfold Leuart.listening, tx_finished;
    cbn [Leuart.lePayload Leuart.LEUART0 Leuart.received_str];
    rewrite Hbuf0; reflexivity.
Qed.

(** A transmission: [leuart_start] with a string and a length [n] within
    it, the first interrupt, then the buffer emptying after each char and
    the transmission completing.  Exactly the first [n] chars of the
    string are written to TXDATA, in order; the busy flag is up from the
    start and down at the end; one tx-done event is posted; the block on
    EM3 taken at the start is released; and the link is idle with its
    transmit buffer empty and its receiver listening, ready for the next
    transmission, the completion interrupt left enabled.  The string has
    fewer than the 80 chars of the driver's buffer. *)
Theorem leuart_transmission (h : app_h) (m : Leuart.machine)
  (string : list Z) (n : nat)
  (Hm : Leuart.listening m = true)
  (Hbl : Leuart.TXBL (Leuart.IF_ (Leuart.LEUART0 m)) = true)
  (Htb : length (sleep (Leuart.svc m)) = Sleep.MAX_ENERGY_MODES)
  (Hstr : length (Leuart.str (Leuart.lePayload m)) = 80%nat)
  (Hn : (1 <= n <= strlen string)%nat)
  (Hfit : (strlen string < 80)%nat) :
  exists m0 m',
    Leuart.leuart_start string (Z.of_nat n) m = Ok m0 /\
    Leuart.interrupts h (Leuart.Quiet :: tx_line n) m0 = Ok m' /\
    Leuart.leuart_tx_busy m0 = true /\
    blocks Leuart.LEUART_EM (Leuart.svc m0)
      = S (blocks Leuart.LEUART_EM (Leuart.svc m)) /\
    Leuart.TXDATA (Leuart.LEUART0 m')
      = Leuart.TXDATA (Leuart.LEUART0 m) ++ map u8 (firstn n string) /\
    Leuart.leuart_tx_busy m' = false /\
    posted_events (Leuart.svc m')
      = posted_events (Leuart.svc m) ++ [Leuart.tx_done_evt m] /\
    sleep (Leuart.svc m') = sleep (Leuart.svc m) /\
    Leuart.STATUS_TXIDLE (Leuart.LEUART0 m') = true /\
    Leuart.TXBL (Leuart.IF_ (Leuart.LEUART0 m')) = true /\
    Leuart.TXC (Leuart.IEN (Leuart.LEUART0 m')) = true /\
    Leuart.listening m' = true.
Proof.
  set (s := Leuart.strcpy (Leuart.str (Leuart.lePayload m)) string).
  destruct (tx_finished_ready m s n Hm Hbl Htb) as (R1 & R2 & R3).
  exists (sending m s n 0 true (Leuart.STATUS_TXIDLE (Leuart.LEUART0 m))).
  exists (tx_finished m s n).
  split; [apply tx_start; assumption|].
  assert (Hsmall : Z.of_nat n < 2 ^ 32) by lia.
  split.
  { cbn [Leuart.interrupts].
    change (Leuart.interrupt h Leuart.Quiet
              (sending m s n 0 true (Leuart.STATUS_TXIDLE (Leuart.LEUART0 m))))
      with (Leuart.service h Leuart.service_fuel
              (Leuart.set_LEUART0
                 (Leuart.LEUART0 (sending m s n 0 true
                    (Leuart.STATUS_TXIDLE (Leuart.LEUART0 m))))
                 (sending m s n 0 true
                    (Leuart.STATUS_TXIDLE (Leuart.LEUART0 m))))).
    change (Leuart.set_LEUART0 _ _)
      with (sending m s n 0 true (Leuart.STATUS_TXIDLE (Leuart.LEUART0 m))).
    rewrite tx_write by (try assumption; lia). cbn [bind].
    apply tx_run; try assumption; lia. }
  split; [reflexivity|].
  split.
  { unfold blocks, sending. cbn [Leuart.svc sleep].
    apply nth_upd_same. rewrite Htb. unfold Leuart.LEUART_EM, Sleep.EM3,
      Sleep.MAX_ENERGY_MODES. lia. }
  split.
  { unfold tx_finished. cbn [Leuart.LEUART0 Leuart.TXDATA].
    unfold s. rewrite tx_bytes_string by lia. reflexivity. }
  split; [reflexivity|].
  split; [reflexivity|].
  split; [exact R3|].
  split; [reflexivity|].
  split; [exact R2|].
  split; [reflexivity | exact R1].
Qed.

Lemma leuart_transmission_witness :
  exists m0 m',
    Leuart.leuart_start [72; 105; 0] 2 leuart_opened = Ok m0 /\
    Leuart.interrupts app_h_bits (Leuart.Quiet :: tx_line 2) m0 = Ok m' /\
    Leuart.TXDATA (Leuart.LEUART0 m') = [72; 105] /\
    posted_events (Leuart.svc m') = [32].
Proof.
  destruct (leuart_transmission app_h_bits leuart_opened [72; 105; 0] 2
              eq_refl eq_refl eq_refl eq_refl)
    as (m0 & m' & H1 & H2 & _ & _ & H5 & _ & H7 & _);
    [simpl; lia | simpl; lia |].
  exists m0, m'.
  split; [exact H1|].
  split; [exact H2|].
  split; [exact H5 | exact H7].
Defined.

Lemma tx_complete_early (h : app_h) (m : Leuart.machine) (s : list Z)
  (n k : nat) (idle : bool) :
  Leuart.listening m = true ->
  Leuart.TXBL (Leuart.IF_ (Leuart.LEUART0 m)) = true ->
  length (sleep (Leuart.svc m)) = Sleep.MAX_ENERGY_MODES ->
  Leuart.TXC (Leuart.IEN (Leuart.LEUART0 m)) = true ->
  Leuart.interrupt h Leuart.TxComplete (sending m s n k false idle) = Fault.
Proof.
  intros Hm Hbl Htb Htxc.
  tx_ready_cases m Hm Hbl Htb; cbn in Htxc; try discriminate Htxc.
  cbv -[Z.of_nat tx_bytes app Nat.sub]. reflexivity.
Qed.

(** The completion interrupt is never disabled once a transmission has
    enabled it.  In a later transmission, a completion that arrives
    before the last char is written (the line falling idle between two
    chars) is served in the state [transmit], where the driver halts. *)
Theorem leuart_early_completion_halts (h : app_h) (m : Leuart.machine)
  (string : list Z) (n j : nat)
  (Hm : Leuart.listening m = true)
  (Hbl : Leuart.TXBL (Leuart.IF_ (Leuart.LEUART0 m)) = true)
  (Htb : length (sleep (Leuart.svc m)) = Sleep.MAX_ENERGY_MODES)
  (Htxc : Leuart.TXC (Leuart.IEN (Leuart.LEUART0 m)) = true)
  (Hj : (S j < n)%nat)
  (Hn : Z.of_nat n < 2 ^ 32) :
  exists m0,
    Leuart.leuart_start string (Z.of_nat n) m = Ok m0 /\
    Leuart.interrupts h
      (Leuart.Quiet :: repeat Leuart.TxBufferEmpty j ++ [Leuart.TxComplete])
      m0 = Fault.
Proof.
  set (s := Leuart.strcpy (Leuart.str (Leuart.lePayload m)) string).
  exists (sending m s n 0 true (Leuart.STATUS_TXIDLE (Leuart.LEUART0 m))).
  split; [apply tx_start; assumption|].
  cbn [Leuart.interrupts].
  change (Leuart.interrupt h Leuart.Quiet
            (sending m s n 0 true (Leuart.STATUS_TXIDLE (Leuart.LEUART0 m))))
    with (Leuart.service h Leuart.service_fuel
            (Leuart.set_LEUART0
               (Leuart.LEUART0 (sending m s n 0 true
                  (Leuart.STATUS_TXIDLE (Leuart.LEUART0 m))))
               (sending m s n 0 true
                  (Leuart.STATUS_TXIDLE (Leuart.LEUART0 m))))).
  change (Leuart.set_LEUART0 _ _)
    with (sending m s n 0 true (Leuart.STATUS_TXIDLE (Leuart.LEUART0 m))).
  rewrite tx_write by (try assumption; lia). cbn [bind].
  destruct (tx_progress h m s n Hm Hbl Htb Hn j) as [P _]; [lia|].
  rewrite leuart_interrupts_app, P. cbn [bind Leuart.interrupts].
  unfold tx_after.
  replace (S j <? n)%nat with true by (symmetry; apply Nat.ltb_lt; lia).
  rewrite tx_complete_early by assumption. reflexivity.
Qed.

Lemma leuart_early_completion_halts_witness :
  exists m0 m1 m2,
    Leuart.leuart_start [72; 105; 0] 2 leuart_opened = Ok m0 /\
    Leuart.interrupts app_h_bits (Leuart.Quiet :: tx_line 2) m0 = Ok m1 /\
    Leuart.leuart_start [72; 105; 0] 2 m1 = Ok m2 /\
    Leuart.interrupts app_h_bits
      (Leuart.Quiet :: repeat Leuart.TxBufferEmpty 0 ++ [Leuart.TxComplete])
      m2 = Fault.
Proof.
  destruct (Leuart.leuart_start [72; 105; 0] 2 leuart_opened)
    as [m0|] eqn:E0; [|vm_compute in E0; discriminate].
  destruct (Leuart.interrupts app_h_bits (Leuart.Quiet :: tx_line 2) m0)
    as [m1|] eqn:E1;
    [|vm_compute in E0; injection E0 as <-; vm_compute in E1; discriminate].
  assert (Hm1 : m1 = tx_finished leuart_opened
                       (Leuart.strcpy (repeat 0 80) [72; 105; 0]) 2).
  { vm_compute in E0. injection E0 as <-. vm_compute in E1.
    injection E1 as <-. vm_compute. reflexivity. }
  destruct (leuart_early_completion_halts app_h_bits m1 [72; 105; 0] 2 0)
    as (m2 & H1 & H2);
    try (rewrite Hm1; vm_compute; reflexivity); try lia.
  exists m0, m1, m2.
  split; [reflexivity|].
  split; [exact E1|].
  split; [exact H1 | exact H2].
Defined.

(** ** [ble_write]: a packet through the queue and out on the link *)

(** What a pop reads off a ring that holds [p :: q]: the prefix cell is
    the length of [p], the loop reads [p], and with the counter updated
    the ring holds [q]. *)
Lemma pop_loop_represents (b : Ble.BLE_CIRCULAR_BUF) (p : list Z)
  (q : list (list Z)) :
  Ble.represents b (p :: q) ->
  Ble.size b <> Ble.CSIZE /\
  Ble.read_cell b = Z.of_nat (length p) /\
  fst (Ble.pop_loop (length p) (Ble.update_circ_readindex b 1)) = p /\
  Ble.represents
    (Ble.set_size
       (u32 (Ble.ble_circ_space
               (snd (Ble.pop_loop (length p) (Ble.update_circ_readindex b 1)))
             + Z.of_nat (length p) + 1))
       (snd (Ble.pop_loop (length p) (Ble.update_circ_readindex b 1)))) q.
Proof.
  intros (Hlen & Hr & Hcap & Hsize & Hw & Hcells).
  unfold Ble.CSIZE in *.
  assert (Henc : length (Ble.encode (p :: q))
                 = S (length p + length (Ble.encode q))).
  { unfold Ble.encode. cbn [flat_map]. cbn [app length].
    rewrite length_app. reflexivity. }
  rewrite Henc in *.
  assert (Hhead : Ble.read_cell b = Z.of_nat (length p)).
  { pose proof (Hcells O ltac:(lia)) as H0.
    unfold Ble.cell_after in H0.
    rewrite Z.add_0_r, Z.mod_small in H0 by lia.
    unfold Ble.read_cell. rewrite H0.
    unfold Ble.encode. cbn [flat_map app nth].
    unfold u8. change (2 ^ 8) with 256. apply Z.mod_small. lia. }
  assert (Hr1 : Ble.read_ptr (Ble.update_circ_readindex b 1)
                = (Ble.read_ptr b + 1) mod 64)
    by (apply readindex_step; exact Hr).
  rewrite pop_loop_spec by (rewrite Hr1; apply Z.mod_pos_bound; lia).
  cbn [fst snd].
  assert (Hchars : map (Ble.cell_after (Ble.update_circ_readindex b 1))
                     (seq 0 (length p)) = p).
  { apply (nth_ext _ _ 0 0).
    - rewrite length_map, length_seq. reflexivity.
    - intros k Hk. rewrite length_map, length_seq in Hk.
      rewrite (nth_indep _ 0 (Ble.cell_after
                 (Ble.update_circ_readindex b 1) 0))
        by (rewrite length_map, length_seq; exact Hk).
      rewrite map_nth, seq_nth by exact Hk.
      pose proof (Hcells (S k) ltac:(lia)) as Hc.
      unfold Ble.cell_after in *.
      rewrite Hr1, Z.add_mod_idemp_l by lia.
      cbn [Ble.update_circ_readindex Ble.cbuf].
      replace (Ble.read_ptr b + 1 + Z.of_nat (0 + k))
        with (Ble.read_ptr b + Z.of_nat (S k)) by lia.
      rewrite Hc. unfold Ble.encode. cbn [flat_map app nth].
      apply app_nth1. exact Hk. }
  split; [lia|].
  split; [exact Hhead|].
  split; [exact Hchars|].
  unfold Ble.represents, Ble.cell_after, Ble.advanced, Ble.ble_circ_space,
    Ble.CSIZE.
  cbn [Ble.set_size Ble.cbuf Ble.read_ptr Ble.size Ble.write_ptr
       Ble.update_circ_readindex Ble.size_mask].
  rewrite Hsize.
  assert (Hrp : (u32 (Ble.read_ptr b + 1) mod 64
                 + Z.of_nat (length p)) mod 64
                = (Ble.read_ptr b + Z.of_nat (S (length p))) mod 64).
  { change (u32 (Ble.read_ptr b + 1) mod 64)
      with (Ble.read_ptr (Ble.update_circ_readindex b 1)).
    rewrite Hr1, Z.add_mod_idemp_l by lia. f_equal. lia. }
  rewrite Hrp.
  repeat apply conj.
  + exact Hlen.
  + apply Z.mod_pos_bound. lia.
  + apply Z.mod_pos_bound. lia.
  + lia.
  + unfold u8, u32. change (2 ^ 8) with 256.
    change (2 ^ 32) with 4294967296.
    rewrite (Z.mod_small (64 - _) 256) by lia.
    rewrite Z.mod_small by lia. lia.
  + rewrite Hw, Z.add_mod_idemp_l by lia. f_equal. lia.
  + intros i Hi.
    pose proof (Hcells (S (length p) + i)%nat ltac:(lia)) as Hc.
    unfold Ble.cell_after in Hc.
    rewrite Z.add_mod_idemp_l by lia.
    replace (Ble.read_ptr b + Z.of_nat (S (length p)) + Z.of_nat i)
      with (Ble.read_ptr b + Z.of_nat (S (length p) + i)) by lia.
    rewrite Hc. unfold Ble.encode at 1. cbn [flat_map].
    change ((u8 (Z.of_nat (length p)) :: p) ++ ?x)
      with (u8 (Z.of_nat (length p)) :: (p ++ x)).
    cbn [Nat.add nth].
    rewrite app_nth2 by lia.
    f_equal. lia.
Qed.

Lemma strlen_packet_nul (p : list Z) :
  Ble.packet p -> strlen (p ++ [0]) = length p.
Proof.
  unfold Ble.packet. induction p as [|c p IH]; intros Hp; [reflexivity|].
  cbn [app strlen length] in *.
  destruct (c =? 0); [discriminate|].
  f_equal. apply IH. lia.
Qed.

(** The run of [ble_write] on a link that is ready. *)
Lemma ble_write_run (h : app_h) (m : Ble.machine)
  (p first : list Z) (q rest : list (list Z))
  (Hq : Ble.represents (Ble.ble_cbuf m) q)
  (Hp : Ble.packet p)
  (Hfits : Z.of_nat (length (Ble.encode q)) + Z.of_nat (length p) + 1
           <= Ble.CSIZE)
  (Hfirst : q ++ [p] = first :: rest)
  (Hpk : Ble.packet first)
  (Hne : (1 <= length first)%nat)
  (Hidle : Leuart.STATUS_TXIDLE (Leuart.LEUART0 (Ble.leuart m)) = true)
  (Hm : Leuart.listening (Ble.leuart m) = true)
  (Hbl : Leuart.TXBL (Leuart.IF_ (Leuart.LEUART0 (Ble.leuart m))) = true)
  (Htb : length (sleep (Leuart.svc (Ble.leuart m))) = Sleep.MAX_ENERGY_MODES)
  (Hstr : length (Leuart.str (Leuart.lePayload (Ble.leuart m))) = 80%nat) :
  exists m',
    Ble.ble_write h p (tx_line (length first)) m = Ble.Returned false m' /\
    Ble.represents (Ble.ble_cbuf m') rest /\
    Leuart.TXDATA (Leuart.LEUART0 (Ble.leuart m'))
      = Leuart.TXDATA (Leuart.LEUART0 (Ble.leuart m)) ++ map u8 first /\
    posted_events (Leuart.svc (Ble.leuart m'))
      = posted_events (Leuart.svc (Ble.leuart m))
        ++ [Leuart.tx_done_evt (Ble.leuart m)] /\
    sleep (Leuart.svc (Ble.leuart m')) = sleep (Leuart.svc (Ble.leuart m)) /\
    Leuart.leuart_tx_busy (Ble.leuart m') = false /\
    Leuart.STATUS_TXIDLE (Leuart.LEUART0 (Ble.leuart m')) = true /\
    Leuart.TXBL (Leuart.IF_ (Leuart.LEUART0 (Ble.leuart m'))) = true /\
    Leuart.listening (Ble.leuart m') = true /\
    length (Leuart.str (Leuart.lePayload (Ble.leuart m'))) = 80%nat /\
    Leuart.tx_done_evt (Ble.leuart m') = Leuart.tx_done_evt (Ble.leuart m).
Proof.
  destruct (push_represents p q m Hq Hp Hfits) as (m1 & E1 & R1 & L1 & S1).
  rewrite Hfirst in R1.
  destruct (pop_loop_represents _ first rest R1)
    as (Hsz & Hhead & Hchars & Hrep).
  assert (Hshort : (length first < 64)%nat).
  { destruct R1 as (_ & _ & Hcap & _). unfold Ble.CSIZE in Hcap.
    unfold Ble.encode in Hcap. cbn [flat_map] in Hcap.
    rewrite length_app in Hcap. simpl length in Hcap. lia. }
  set (l := Ble.leuart m) in *.
  set (s := Leuart.strcpy (Leuart.str (Leuart.lePayload l)) (first ++ [0])).
  destruct (tx_finished_ready l s (length first) Hm Hbl Htb) as (F1 & F2 & F3).
  destruct (tx_run h l s (length first) Hm Hbl Htb Hne ltac:(lia))
    as [_ Hwait].
  exists (Ble.mk_machine (tx_finished l s (length first))
            (Ble.set_size
               (u32 (Ble.ble_circ_space
                       (snd (Ble.pop_loop (length first)
                               (Ble.update_circ_readindex
                                  (Ble.ble_cbuf m1) 1)))
                     + Z.of_nat (length first) + 1))
               (snd (Ble.pop_loop (length first)
                       (Ble.update_circ_readindex (Ble.ble_cbuf m1) 1))))
            (Ble.result_str m1)).
  split.
  { unfold Ble.ble_write. rewrite E1.
    unfold Ble.ble_circ_pop. rewrite L1. fold l. rewrite Hidle.
    cbn [negb].
    replace (Ble.size (Ble.ble_cbuf m1) =? Ble.CSIZE) with false
      by (symmetry; apply Z.eqb_neq; exact Hsz).
    rewrite Hhead, Nat2Z.id.
    destruct (Ble.pop_loop (length first)
                (Ble.update_circ_readindex (Ble.ble_cbuf m1) 1))
      as [chars b'] eqn:Epop.
    cbn [fst snd] in Hchars |- *. subst chars.
    cbn [Ble.leuart Ble.set_ble_cbuf Ble.ble_cbuf Ble.result_str].
    rewrite L1. fold l.
    rewrite tx_start by assumption. cbn [bind]. fold s.
    rewrite tx_write by (try assumption; lia).
    rewrite Hwait. reflexivity. }
  cbn [Ble.ble_cbuf Ble.leuart].
  split; [exact Hrep|].
  split.
  { unfold tx_finished. cbn [Leuart.LEUART0 Leuart.TXDATA].
    unfold s. rewrite tx_bytes_string.
    - rewrite firstn_app, firstn_all, Nat.sub_diag. cbn [firstn].
      rewrite app_nil_r. reflexivity.
    - rewrite strlen_packet_nul by exact Hpk. lia.
    - rewrite strlen_packet_nul by exact Hpk. lia. }
  split; [reflexivity|].
  split; [exact F3|].
  split; [reflexivity|].
  split; [reflexivity|].
  split; [exact F2|].
  split; [exact F1|].
  split; [|reflexivity].
  unfold tx_finished. cbn [Leuart.lePayload Leuart.str].
  unfold s, Leuart.strcpy. rewrite store_length. exact Hstr.
Qed.

(** [ble_write] of a packet that fits, the oldest packet of the queue
    being of one char at least: the packet is queued behind those
    waiting, the oldest packet of the queue is taken off it and handed to
    the link, and the call returns when the link has sent it: the chars
    of that packet, all of them and in order, have been written to
    TXDATA, one tx-done event is posted, and the link is idle and ready
    again.  With nothing waiting, the packet sent is the one written.
    An empty oldest packet is left out: [leuart_start] is then called
    with a count of zero and no char is written. *)
Theorem ble_write_transmits (h : app_h) (m : Ble.machine)
  (p first : list Z) (q rest : list (list Z))
  (Hq : Ble.represents (Ble.ble_cbuf m) q)
  (Hp : Ble.packet p)
  (Hfits : Z.of_nat (length (Ble.encode q)) + Z.of_nat (length p) + 1
           <= Ble.CSIZE)
  (Hfirst : q ++ [p] = first :: rest)
  (Hpk : Ble.packet first)
  (Hne : (1 <= length first)%nat)
  (Hidle : Leuart.STATUS_TXIDLE (Leuart.LEUART0 (Ble.leuart m)) = true)
  (Hm : Leuart.listening (Ble.leuart m) = true)
  (Hbl : Leuart.TXBL (Leuart.IF_ (Leuart.LEUART0 (Ble.leuart m))) = true)
  (Htb : length (sleep (Leuart.svc (Ble.leuart m))) = Sleep.MAX_ENERGY_MODES)
  (Hstr : length (Leuart.str (Leuart.lePayload (Ble.leuart m))) = 80%nat) :
  exists m',
    Ble.ble_write h p (tx_line (length first)) m = Ble.Returned false m' /\
    Ble.represents (Ble.ble_cbuf m') rest /\
    Leuart.TXDATA (Leuart.LEUART0 (Ble.leuart m'))
      = Leuart.TXDATA (Leuart.LEUART0 (Ble.leuart m)) ++ map u8 first /\
    posted_events (Leuart.svc (Ble.leuart m'))
      = posted_events (Leuart.svc (Ble.leuart m))
        ++ [Leuart.tx_done_evt (Ble.leuart m)] /\
    sleep (Leuart.svc (Ble.leuart m')) = sleep (Leuart.svc (Ble.leuart m)) /\
    Leuart.leuart_tx_busy (Ble.leuart m') = false /\
    Leuart.STATUS_TXIDLE (Leuart.LEUART0 (Ble.leuart m')) = true /\
    Leuart.TXBL (Leuart.IF_ (Leuart.LEUART0 (Ble.leuart m'))) = true /\
    Leuart.listening (Ble.leuart m') = true.
Proof.
  destruct (ble_write_run h m p first q rest Hq Hp Hfits Hfirst Hpk Hne
              Hidle Hm Hbl Htb Hstr)
    as (m' & H1 & H2 & H3 & H4 & H5 & H6 & H7 & H8 & H9 & _).
  exists m'.
  split; [exact H1|].
  split; [exact H2|].
  split; [exact H3|].
  split; [exact H4|].
  split; [exact H5|].
  split; [exact H6|].
  split; [exact H7|].
  split; [exact H8 | exact H9].
Qed.

Lemma ble_write_transmits_witness :
  exists m',
    Ble.ble_write app_h_bits [72; 105] (tx_line 2) ble_opened
      = Ble.Returned false m' /\
    Ble.represents (Ble.ble_cbuf m') [] /\
    Leuart.TXDATA (Leuart.LEUART0 (Ble.leuart m')) = [72; 105].
Proof.
  destruct (ble_write_transmits app_h_bits ble_opened [72; 105] [72; 105]
              [] [])
    as (m' & H1 & H2 & H3 & _).
  - apply init_represents. reflexivity.
  - reflexivity.
  - vm_compute. discriminate.
  - reflexivity.
  - reflexivity.
  - simpl. lia.
  - reflexivity.
  - reflexivity.
  - reflexivity.
  - reflexivity.
  - reflexivity.
  - exists m'. split; [exact H1|]. split; [exact H2 | exact H3].
Defined.

(** The run of a row of [ble_write] calls on a link that is ready. *)
Lemma ble_writes_run (h : app_h) (strings : list (list Z)) :
  forall (m : Ble.machine)
    (Hq : Ble.represents (Ble.ble_cbuf m) [])
    (Hstrings : Forall (fun p => Ble.packet p /\
                                 (1 <= length p <= 63)%nat) strings)
    (Hidle : Leuart.STATUS_TXIDLE (Leuart.LEUART0 (Ble.leuart m)) = true)
    (Hm : Leuart.listening (Ble.leuart m) = true)
    (Hbl : Leuart.TXBL (Leuart.IF_ (Leuart.LEUART0 (Ble.leuart m))) = true)
    (Htb : length (sleep (Leuart.svc (Ble.leuart m)))
           = Sleep.MAX_ENERGY_MODES)
    (Hstr : length (Leuart.str (Leuart.lePayload (Ble.leuart m)))
            = 80%nat),
  exists m',
    ble_writes h strings m = Ble.Returned false m' /\
    Leuart.TXDATA (Leuart.LEUART0 (Ble.leuart m'))
      = Leuart.TXDATA (Leuart.LEUART0 (Ble.leuart m))
        ++ concat (map (map u8) strings) /\
    posted_events (Leuart.svc (Ble.leuart m'))
      = posted_events (Leuart.svc (Ble.leuart m))
        ++ repeat (Leuart.tx_done_evt (Ble.leuart m)) (length strings) /\
    Ble.represents (Ble.ble_cbuf m') [] /\
    sleep (Leuart.svc (Ble.leuart m')) = sleep (Leuart.svc (Ble.leuart m)) /\
    Leuart.listening (Ble.leuart m') = true.
Proof.
  induction strings as [|p rest IH]; intros m Hq Hstrings Hidle Hm Hbl Htb
    Hstr.
  - exists m. cbn [ble_writes map concat repeat length].
    rewrite !app_nil_r.
    split; [reflexivity|].
    split; [reflexivity|].
    split; [reflexivity|].
    split; [exact Hq|].
    split; [reflexivity | exact Hm].
  - inversion Hstrings as [|? ? (Hp & Hlen) Hrest]; subst.
    destruct (ble_write_run h m p p [] [] Hq Hp) as
      (m1 & H1 & H2 & H3 & H4 & H5 & H6 & H7 & H8 & H9 & H10 & H11);
      try assumption; try reflexivity; try lia.
    { unfold Ble.CSIZE. cbn [Ble.encode flat_map length]. lia. }
    destruct (IH m1 H2 Hrest H7 H9 H8) as (m' & I1 & I2 & I3 & I4 & I5 & I6);
      [rewrite H5; exact Htb | exact H10 |].
    exists m'. cbn [ble_writes].
    rewrite Hp, H1.
    split; [exact I1|].
    split.
    { rewrite I2, H3. cbn [map concat]. rewrite <- app_assoc. reflexivity. }
    split.
    { rewrite I3, H4, H11. cbn [length repeat].
      rewrite <- app_assoc. reflexivity. }
    split; [exact I4|].
    split; [rewrite I5; exact H5 | exact I6].
Qed.

(** Calls of [ble_write] in a row on an empty queue, as in
    [scheduled_boot_up_evt]: every call returns with its own string sent,
    so that the strings go out whole and in the order of the calls, with
    one tx-done event each, and the queue is empty again after each. *)
Theorem ble_writes_transmit_in_order (h : app_h) (strings : list (list Z)) :
  forall (m : Ble.machine)
    (Hq : Ble.represents (Ble.ble_cbuf m) [])
    (Hstrings : Forall (fun p => Ble.packet p /\
                                 (1 <= length p <= 63)%nat) strings)
    (Hidle : Leuart.STATUS_TXIDLE (Leuart.LEUART0 (Ble.leuart m)) = true)
    (Hm : Leuart.listening (Ble.leuart m) = true)
    (Hbl : Leuart.TXBL (Leuart.IF_ (Leuart.LEUART0 (Ble.leuart m))) = true)
    (Htb : length (sleep (Leuart.svc (Ble.leuart m)))
           = Sleep.MAX_ENERGY_MODES)
    (Hstr : length (Leuart.str (Leuart.lePayload (Ble.leuart m)))
            = 80%nat),
  exists m',
    ble_writes h strings m = Ble.Returned false m' /\
    Leuart.TXDATA (Leuart.LEUART0 (Ble.leuart m'))
      = Leuart.TXDATA (Leuart.LEUART0 (Ble.leuart m))
        ++ concat (map (map u8) strings) /\
    posted_events (Leuart.svc (Ble.leuart m'))
      = posted_events (Leuart.svc (Ble.leuart m))
        ++ repeat (Leuart.tx_done_evt (Ble.leuart m)) (length strings) /\
    Ble.represents (Ble.ble_cbuf m') [] /\
    sleep (Leuart.svc (Ble.leuart m')) = sleep (Leuart.svc (Ble.leuart m)) /\
    Leuart.listening (Ble.leuart m') = true.
Proof.
  intros m Hq Hstrings Hidle Hm Hbl Htb Hstr.
  exact (ble_writes_run h strings m Hq Hstrings Hidle Hm Hbl Htb Hstr).
Qed.

Lemma ble_writes_transmit_in_order_witness :
  exists m',
    ble_writes app_h_bits
      [[10; 72; 101; 108; 108; 111; 32; 87; 111; 114; 108; 100; 33];
       [10; 68; 68; 76]; [10; 98; 121]] ble_opened
      = Ble.Returned false m' /\
    Leuart.TXDATA (Leuart.LEUART0 (Ble.leuart m'))
      = [10; 72; 101; 108; 108; 111; 32; 87; 111; 114; 108; 100; 33;
         10; 68; 68; 76; 10; 98; 121].
Proof.
  destruct (ble_writes_transmit_in_order app_h_bits
              [[10; 72; 101; 108; 108; 111; 32; 87; 111; 114; 108; 100; 33];
               [10; 68; 68; 76]; [10; 98; 121]] ble_opened)
    as (m' & H1 & H2 & _).
  - apply init_represents. reflexivity.
  - repeat constructor; simpl; lia.
  - reflexivity.
  - reflexivity.
  - reflexivity.
  - reflexivity.
  - reflexivity.
  - exists m'. split; [exact H1|]. rewrite H2. reflexivity.
Defined.

(** From [ble_open] on: whatever the state before and whatever masks
    [ble_open] is given, it leaves the queue empty and the link ready,
    with EM3 blocked once for the receiver; the strings then written with
    [ble_write] are transmitted whole and in order, each with one tx-done
    event, which is [LEUART_TX_EVT] of app.h and not the mask given to
    [ble_open]; and the receiver is listening throughout. *)
Theorem ble_open_then_writes (h : app_h) (tx_event rx_event : Z)
  (m : Ble.machine) (strings : list (list Z))
  (Hcbuf : length (Ble.cbuf (Ble.ble_cbuf m)) = 64%nat)
  (Hstr : length (Leuart.str (Leuart.lePayload (Ble.leuart m))) = 80%nat)
  (Hrcv : length (Leuart.received_str (Leuart.lePayload (Ble.leuart m)))
          = 80%nat)
  (Htb : length (sleep (Leuart.svc (Ble.leuart m))) = Sleep.MAX_ENERGY_MODES)
  (Hstrings : Forall (fun p => Ble.packet p /\
                               (1 <= length p <= 63)%nat) strings) :
  exists m0 m',
    ble_open h tx_event rx_event m = Ok m0 /\
    Ble.represents (Ble.ble_cbuf m0) [] /\
    Leuart.listening (Ble.leuart m0) = true /\
    blocks Leuart.LEUART_EM (Leuart.svc (Ble.leuart m0))
      = S (blocks Leuart.LEUART_EM (Leuart.svc (Ble.leuart m))) /\
    Leuart.tx_done_evt (Ble.leuart m0) = LEUART_TX_EVT h /\
    Leuart.rx_done_evt (Ble.leuart m0) = LEUART_RX_EVT h /\
    ble_writes h strings m0 = Ble.Returned false m' /\
    Leuart.TXDATA (Leuart.LEUART0 (Ble.leuart m'))
      = Leuart.TXDATA (Leuart.LEUART0 (Ble.leuart m))
        ++ concat (map (map u8) strings) /\
    posted_events (Leuart.svc (Ble.leuart m'))
      = posted_events (Leuart.svc (Ble.leuart m))
        ++ repeat (LEUART_TX_EVT h) (length strings) /\
    Ble.represents (Ble.ble_cbuf m') [] /\
    sleep (Leuart.svc (Ble.leuart m')) = sleep (Leuart.svc (Ble.leuart m0)) /\
    Leuart.listening (Ble.leuart m') = true.
Proof.
  destruct m as [l b rs]. destruct l as [[sc tb] rx tx p r].
  destruct p as [st cnt s ix tbz rst buf rc sf sg rb].
  cbn [Ble.ble_cbuf Ble.leuart Leuart.lePayload Leuart.str
       Leuart.received_str Leuart.svc sleep] in Hcbuf, Hstr, Hrcv, Htb.
  do 5 (destruct tb as [|? tb]; [discriminate|]).
  destruct tb; [|discriminate].
  match goal with
  | |- exists m0 m', ?open = _ /\ _ =>
      pose proof (eq_refl open) as Hopen;
      match type of Hopen with
      | ?l = ?r =>
          let r' := eval cbv -[Ble.ble_circ_init LEUART_TX_EVT LEUART_RX_EVT
                               Leuart.TXDATA] in r in
          change (l = r') in Hopen
      end
  end.
  match type of Hopen with _ = Ok ?x => set (m0 := x) in * end.
  assert (Hq0 : Ble.represents (Ble.ble_cbuf m0) [])
    by (apply init_represents; exact Hcbuf).
  assert (Hl0 : Leuart.listening (Ble.leuart m0) = true).
  { unfold m0, Leuart.listening.
    cbn [Ble.leuart Ble.ble_circ_init Ble.set_ble_cbuf Leuart.lePayload
         Leuart.received_str].
    rewrite Hrcv. reflexivity. }
  destruct (ble_writes_run h strings m0 Hq0 Hstrings)
    as (m' & W1 & W2 & W3 & W4 & W5 & W6);
    [reflexivity | exact Hl0 | reflexivity | reflexivity | exact Hstr |].
  exists m0, m'.
  split; [exact Hopen|].
  split; [exact Hq0|].
  split; [exact Hl0|].
  split; [reflexivity|].
  split; [reflexivity|].
  split; [reflexivity|].
  split; [exact W1|].
  split; [exact W2|].
  split; [exact W3|].
  split; [exact W4|].
  split; [exact W5 | exact W6].
Qed.

Lemma ble_open_then_writes_witness :
  exists m0 m',
    ble_open app_h_bits 0x100 0x200 ble_at_reset = Ok m0 /\
    ble_writes app_h_bits [[10; 72; 105]; [10; 98; 121]] m0
      = Ble.Returned false m' /\
    Leuart.TXDATA (Leuart.LEUART0 (Ble.leuart m'))
      = [10; 72; 105; 10; 98; 121] /\
    posted_events (Leuart.svc (Ble.leuart m')) = [32; 32].
Proof.
  destruct (ble_open_then_writes app_h_bits 0x100 0x200 ble_at_reset
              [[10; 72; 105]; [10; 98; 121]] eq_refl eq_refl eq_refl eq_refl)
    as (m0 & m' & H1 & _ & _ & _ & _ & _ & H5 & H6 & H7 & _).
  - repeat constructor; simpl; lia.
  - exists m0, m'. split; [exact H1|]. split; [exact H5|].
    split; [rewrite H6; reflexivity | rewrite H7; reflexivity].
Defined.

(** ** The I2C engine: one transaction at a time *)

Lemma i2c_interrupt_keeps_busy (ev : I2C.bus_event) (s s' : I2C.state) :
  ev <> I2C.DevSTOP ->
  I2C.STATE_IDLE (I2C.peripheral s) = false ->
  I2C.interrupt ev s = Ok s' ->
  I2C.STATE_IDLE (I2C.peripheral s') = false.
Proof.
  intros Hev Hidle.
  destruct s as [v [a c n k] d [i rx w]]. cbn in Hidle. subst i.
  destruct ev as [| |b|]; [| | |congruence]; destruct c;
    cbn [I2C.interrupt I2C.raise I2C.I2C0_IRQHandler I2C.IF_ACK I2C.IF_NACK
         I2C.IF_RXDATAV I2C.IF_MSTOP bind I2C.I2C_ACK I2C.I2C_NACK
         I2C.I2C_RXDATAV I2C.payload I2C.current_state I2C.peripheral
         I2C.svc I2C.dest I2C.STATE_IDLE I2C.RXDATA I2C.written];
    try discriminate;
    try (intros H; injection H as <-; reflexivity).
  unfold I2C.set_bytes.
  cbn [I2C.payload I2C.bytes I2C.svc I2C.dest I2C.peripheral
       I2C.device_address I2C.current_state I2C.cmd].
  destruct (0 <? u32 (n - 1)); intros H; injection H as <-; reflexivity.
Qed.

(** While a transaction is under way the bus is not idle, and a second
    [I2C_Start] halts on its assertion: from the start of a transaction,
    through any interrupts short of the stop, the next [I2C_Start] does
    not return. *)
Theorem i2c_start_during_transaction_halts (s s0 s1 : I2C.state)
  (i2c_load next_load : I2C.I2C_PAYLOAD_INIT) (evs : list I2C.bus_event)
  (Hstart : I2C.I2C_Start i2c_load s = Ok s0)
  (Hevs : Forall (fun ev => ev <> I2C.DevSTOP) evs)
  (Hrun : I2C.interrupts evs s0 = Ok s1) :
  I2C.STATE_IDLE (I2C.peripheral s1) = false /\
  I2C.I2C_Start next_load s1 = Fault.
Proof.
  assert (H0 : I2C.STATE_IDLE (I2C.peripheral s0) = false).
  { unfold I2C.I2C_Start in Hstart.
    destruct (EFM_ASSERT _ s) as [s'|]; cbn [bind] in Hstart; [|discriminate].
    destruct (sleep_block_mode _ _) as [v|]; cbn [bind] in Hstart;
      [|discriminate].
    injection Hstart as <-. reflexivity. }
  clear Hstart.
  assert (H1 : I2C.STATE_IDLE (I2C.peripheral s1) = false).
  { revert s0 H0 Hrun. induction Hevs as [|ev evs Hev _ IH]; intros s0 H0 Hrun.
    - injection Hrun as <-. exact H0.
    - cbn [I2C.interrupts] in Hrun.
      destruct (I2C.interrupt ev s0) as [s2|] eqn:E; cbn [bind] in Hrun;
        [|discriminate].
      exact (IH s2 (i2c_interrupt_keeps_busy ev s0 s2 Hev H0 E) Hrun). }
  split; [exact H1|].
  unfold I2C.I2C_Start, EFM_ASSERT. rewrite H1. reflexivity.
Qed.

Lemma i2c_start_during_transaction_halts_witness :
  exists s0 s1,
    Si7021.Si7021_read i2c_at_reset = Ok s0 /\
    I2C.interrupts [I2C.DevACK; I2C.DevACK; I2C.DevNACK; I2C.DevNACK] s0
      = Ok s1 /\
    Si7021.Si7021_read s1 = Fault.
Proof.
  destruct (Si7021.Si7021_read i2c_at_reset) as [s0|] eqn:E0;
    [|vm_compute in E0; discriminate].
  destruct (I2C.interrupts
              [I2C.DevACK; I2C.DevACK; I2C.DevNACK; I2C.DevNACK] s0)
    as [s1|] eqn:E1;
    [|vm_compute in E0; injection E0 as <-; vm_compute in E1; discriminate].
  exists s0, s1.
  split; [reflexivity|].
  split; [exact E1|].
  refine (proj2 (i2c_start_during_transaction_halts i2c_at_reset s0 s1
                   (I2C.mk_init Si7021.Si7021_dev_addr Si7021.byte_num
                      Si7021.SI7021_TEMP_NO_HOLD)
                   (I2C.mk_init Si7021.Si7021_dev_addr Si7021.byte_num
                      Si7021.SI7021_TEMP_NO_HOLD)
                   [I2C.DevACK; I2C.DevACK; I2C.DevNACK; I2C.DevNACK]
                   E0 _ E1)).
  repeat constructor; discriminate.
Defined.

(** ** [rx_str_copy] *)

Lemma store_0_app (vs a : list Z) :
  (length vs <= length a)%nat ->
  Leuart.store 0 vs a = vs ++ skipn (length vs) a.
Proof.
  intros Hfit.
  rewrite <- (firstn_skipn (length vs) (Leuart.store 0 vs a)).
  pose proof (store_skipn vs 0 a) as Hs. cbn [Nat.add] in Hs.
  rewrite Hs, store_firstn by exact Hfit.
  reflexivity.
Qed.

Lemma firstn_strlen_nonzero (s : list Z) :
  Forall (fun b => b <> 0) (firstn (strlen s) s).
Proof.
  induction s as [|c s IH]; cbn [strlen firstn]; [constructor|].
  destruct (Z.eqb_spec c 0) as [->|Hc]; cbn [firstn]; constructor; assumption.
Qed.

Lemma skipn_cons_nth (d : list Z) :
  forall k : nat, (k < length d)%nat ->
    skipn k d = nth k d 0 :: skipn (S k) d.
Proof.
  induction d as [|c d IH]; intros k Hk; [simpl in Hk; lia|].
  destruct k as [|k]; [reflexivity|].
  cbn [skipn nth]. rewrite IH by (simpl in Hk; lia). reflexivity.
Qed.

Lemma strlen_app_nonzero (pre rest : list Z) :
  Forall (fun b => b <> 0) pre ->
  strlen (pre ++ rest) = (length pre + strlen rest)%nat.
Proof.
  intros Hp. induction Hp as [|b pre Hb _ IH]; [reflexivity|].
  cbn [app strlen length].
  apply Z.eqb_neq in Hb. rewrite Hb, IH. reflexivity.
Qed.

(** [rx_str_copy] overwrites the start of the destination with the chars
    of the received message and leaves the rest of it as it was; it
    writes no terminator.  The destination then reads as the message
    when it held a NUL just behind it (as the zeroed array of
    [Si7021_temp_done_evt] does); a char left there from before is read
    as part of the string. *)
Theorem rx_str_copy_writes_no_terminator (destination : list Z)
  (m : Leuart.machine)
  (Hfit : (length (Leuart.received_message m) < length destination)%nat) :
  rx_str_copy destination m
    = Leuart.received_message m
      ++ skipn (length (Leuart.received_message m)) destination /\
  (nth (length (Leuart.received_message m)) destination 0 = 0 ->
   firstn (strlen (rx_str_copy destination m)) (rx_str_copy destination m)
     = Leuart.received_message m) /\
  (nth (length (Leuart.received_message m)) destination 0 <> 0 ->
   (length (Leuart.received_message m)
    < strlen (rx_str_copy destination m))%nat).
Proof.
  set (msg := Leuart.received_message m) in *.
  assert (Hcopy : rx_str_copy destination m
                  = msg ++ skipn (length msg) destination)
    by (apply store_0_app; lia).
  assert (Hnz : Forall (fun b => b <> 0) msg)
    by apply firstn_strlen_nonzero.
  split; [exact Hcopy|].
  rewrite Hcopy, (skipn_cons_nth destination (length msg) Hfit).
  rewrite (strlen_app_nonzero _ _ Hnz).
  split.
  - intros H0. rewrite H0. cbn [strlen]. change (0 =? 0) with true.
    cbv iota. rewrite Nat.add_0_r.
    rewrite firstn_app, firstn_all, Nat.sub_diag. cbn [firstn].
    apply app_nil_r.
  - intros Hc. cbn [strlen]. apply Z.eqb_neq in Hc. rewrite Hc. lia.
Qed.

Lemma rx_str_copy_writes_no_terminator_witness :
  exists m',
    Leuart.interrupts app_h_bits (map Leuart.RxFrame (frame [70]))
      leuart_opened = Ok m' /\
    firstn 4 (rx_str_copy (repeat 0 100) m') = [35; 70; 63; 0] /\
    firstn 6 (rx_str_copy [35; 84; 101; 115; 116; 63; 0; 0] m')
      = [35; 70; 63; 115; 116; 63].
Proof.
  eexists. split; [vm_compute; reflexivity|].
  match goal with
  | |- firstn 4 (rx_str_copy _ ?m') = _ /\ _ =>
      destruct (rx_str_copy_writes_no_terminator (repeat 0 100) m')
        as (H1 & _);
        [vm_compute; lia|];
      destruct (rx_str_copy_writes_no_terminator
                  [35; 84; 101; 115; 116; 63; 0; 0] m') as (H2 & _);
        [vm_compute; lia|];
      rewrite H1, H2
  end.
  split; vm_compute; reflexivity.
Defined.

(** ** The states used above are those the code reaches *)

Lemma leuart_open_from_reset :
  Leuart.leuart_open app_h_bits leuart_at_reset = Ok leuart_opened.
Proof. vm_compute. reflexivity. Qed.

Lemma ble_open_from_reset :
  ble_open app_h_bits (LEUART_TX_EVT app_h_bits)
    (LEUART_RX_EVT app_h_bits) ble_at_reset = Ok ble_opened.
Proof. vm_compute. reflexivity. Qed.

Lemma queue_refines_fifo_witness :
  exists m',
    Ble.run app_h_bits
      [Ble.Push [72; 105]; Ble.Push [33]; Ble.Pop; Ble.Pop; Ble.Pop]
      (Ble.ble_circ_init ble_at_reset)
      = Ok ([Some [72; 105]; Some [33]; None], m') /\
    Ble.represents (Ble.ble_cbuf m') [].
Proof.
  apply (queue_refines_fifo app_h_bits
           [Ble.Push [72; 105]; Ble.Push [33]; Ble.Pop; Ble.Pop; Ble.Pop]
           [] (Ble.ble_circ_init ble_at_reset)).
  - apply init_represents. reflexivity.
  - reflexivity.
  - reflexivity.
  - repeat constructor.
  - vm_compute. reflexivity.
Defined.

(** ** The timer's interrupt handler *)

(** The handler never halts: it posts the event of each source that is
    both raised and enabled, compare 0 before compare 1 before underflow,
    clears the flags of those sources and no other, and leaves no
    interrupt pending. *)
Theorem letimer_irq_posts_enabled_sources (s : Letimer.state) :
  let i := Letimer.enabled_flags (Letimer.LETIMER0 s) in
  exists s',
    Letimer.LETIMER0_IRQHandler s = Ok s' /\
    Scheduler.posted (Letimer.sched s')
      = Scheduler.posted (Letimer.sched s)
        ++ (if Letimer.COMP0 i then [Letimer.scheduled_comp0_evt s] else [])
        ++ (if Letimer.COMP1 i then [Letimer.scheduled_comp1_evt s] else [])
        ++ (if Letimer.UF i then [Letimer.scheduled_uf_evt s] else []) /\
    Letimer.LETIMER0 s' = Letimer.write_IFC i (Letimer.LETIMER0 s) /\
    Letimer.irq_pending s' = false.
Proof.
  destruct s as [t e0 e1 eu [[f0 f1 fu] [n0 n1 nu]]].
  destruct t as [es ps].
  destruct f0, f1, fu, n0, n1, nu; 
    (eexists; split; [reflexivity|]);
    cbn; rewrite ?app_nil_r, <- ?app_assoc;
    (split; [reflexivity | split; reflexivity]).
Qed.

Lemma letimer_underflow_only (ev : Letimer.timer_event) (s : Letimer.state) :
  Letimer.IEN (Letimer.LETIMER0 s) = Letimer.mk_flags false false true ->
  Letimer.UF (Letimer.IF_ (Letimer.LETIMER0 s)) = false ->
  exists s',
    Letimer.interrupt ev s = Ok s' /\
    Scheduler.posted (Letimer.sched s')
      = Scheduler.posted (Letimer.sched s)
        ++ (if Letimer.is_underflow ev then [Letimer.scheduled_uf_evt s]
            else []) /\
    Letimer.IEN (Letimer.LETIMER0 s') = Letimer.mk_flags false false true /\
    Letimer.UF (Letimer.IF_ (Letimer.LETIMER0 s')) = false /\
    Letimer.scheduled_uf_evt s' = Letimer.scheduled_uf_evt s.
Proof.
  destruct s as [[es ps] e0 e1 eu [[f0 f1 fu] n]].
  cbn [Letimer.LETIMER0 Letimer.IEN Letimer.IF_ Letimer.UF].
  intros -> ->.
  destruct ev, f0, f1; eexists; (split; [reflexivity|]); cbn;
    rewrite ?app_nil_r; repeat split; reflexivity.
Qed.

(** With the interrupt enables the application opens the timer with
    (underflow alone), whatever the counter does, the handler posts the
    underflow event once per underflow and never a compare event, the
    events whose handlers in app.c assert false. *)
Theorem letimer_posts_only_underflow (evs : list Letimer.timer_event) :
  forall (s : Letimer.state)
    (Hen : Letimer.IEN (Letimer.LETIMER0 s)
           = Letimer.mk_flags false false true)
    (Hclr : Letimer.UF (Letimer.IF_ (Letimer.LETIMER0 s)) = false),
  exists s',
    Letimer.interrupts evs s = Ok s' /\
    Scheduler.posted (Letimer.sched s')
      = Scheduler.posted (Letimer.sched s)
        ++ repeat (Letimer.scheduled_uf_evt s)
             (length (filter Letimer.is_underflow evs)) /\
    Letimer.IEN (Letimer.LETIMER0 s') = Letimer.mk_flags false false true /\
    Letimer.irq_pending s' = false.
Proof.
  induction evs as [|ev evs IH]; intros s Hen Hclr.
  - exists s. cbn [Letimer.interrupts filter length repeat].
    rewrite app_nil_r.
    split; [reflexivity|]. split; [reflexivity|]. split; [exact Hen|].
    unfold Letimer.irq_pending, Letimer.enabled_flags.
    rewrite Hen, Hclr. cbn. rewrite !andb_false_r. reflexivity.
  - destruct (letimer_underflow_only ev s Hen Hclr)
      as (s1 & E1 & P1 & N1 & C1 & U1).
    destruct (IH s1 N1 C1) as (s' & E2 & P2 & N2 & Q2).
    exists s'. cbn [Letimer.interrupts]. rewrite E1. cbn [bind].
    split; [exact E2|].
    split; [|split; [exact N2 | exact Q2]].
    rewrite P2, P1, U1. cbn [filter].
    destruct (Letimer.is_underflow ev); cbn [length repeat].
    + rewrite <- app_assoc. reflexivity.
    + rewrite app_nil_r. reflexivity.
Qed.

Lemma letimer_posts_only_underflow_witness :
  exists s',
    Letimer.interrupts
      [Letimer.Compare1; Letimer.Underflow; Letimer.Compare0;
       Letimer.Compare1; Letimer.Underflow]
      (Letimer.mk_state (Scheduler.mk 0 []) 2 4 1
         (Letimer.mk_regs (Letimer.mk_flags false false false)
            (Letimer.mk_flags false false true))) = Ok s' /\
    Scheduler.posted (Letimer.sched s') = [1; 1].
Proof.
  destruct (letimer_posts_only_underflow
              [Letimer.Compare1; Letimer.Underflow; Letimer.Compare0;
               Letimer.Compare1; Letimer.Underflow]
              (Letimer.mk_state (Scheduler.mk 0 []) 2 4 1
                 (Letimer.mk_regs (Letimer.mk_flags false false false)
                    (Letimer.mk_flags false false true)))
              eq_refl eq_refl)
    as (s' & H1 & H2 & _).
  exists s'. split; [exact H1 | exact H2].
Defined.
